(** * commons-api: the WebSocket hub ([websocket.go]) and [cleanRoomName]

    A shallow embedding of the connection hub of commons-api
    ([WSManager], [WSClient] and the handlers of the read loop) and of the
    room-name cleaning function, with the properties the specification
    states about them.

    The sessions of [auth.go], the HTTP handlers and [GetRoomMessages]
    follow, with further properties of the hub, of the sessions and of the
    handlers that are read off the code.

    Conventions of the embedding.
    - A [*WSClient] is an address ([ptr]) into a heap of client records;
      the hub's maps hold addresses, as the Go maps hold pointers.
    - [map[*WSClient]bool] and [map[int]bool] only ever store [true] and are
      only tested for key presence or for a [true] value, so they are finite
      sets ([gset]).  [map[int][]*WSClient] is a [gmap] to lists; a missing
      key is Go's [nil] slice.
    - A function of the hub returns [option State]: [None] is a Go runtime
      panic (send on or close of a closed channel, nil dereference), which
      kills the process.
    - Every operation on the hub's maps is taken as one atomic step, which
      is what the mutex and the single [run] loop provide for every path
      but the unlocked iteration inside the broadcast case.
    - A trailing underscore ([Type_], [Data_], [Message_]) marks a Go name
      that is a keyword here or is already taken by another Go name.
    - An HTTP handler returns what it writes to the client together with
      the calls it has made on the database, in program order; the answers
      of the database are given by a record of functions ([DB]). *)

From Stdlib Require Import ZArith List Lia Bool.
From Stdlib Require Import Strings.String Strings.Ascii Strings.Byte.
From stdpp Require Import base option list gmap sets strings.

Set Warnings "-clear-no-such-hyp".

(** * The hub: data model *)

Definition ptr := positive.
Definition bytes := list byte.

(** A string literal as its bytes. *)
Definition b (s : string) : bytes := list_byte_of_string s.

(** [time.Time] and [time.Duration] in nanoseconds; [time.Since] without
    the saturation at the ends of [int64]. *)
Definition Second : Z := 1000000000.
Definition time_Since (now t : Z) : Z := (now - t)%Z.

Record Session := mkSession { UserID : Z; Username : string }.

(** [chan []byte] made with [make(chan []byte, 256)]. *)
Record chan := mkChan { buf : list bytes; closed : bool }.

Definition send_capacity : nat := 256.

Definition make_chan : chan := {| buf := []; closed := false |}.

Record WSClient := mkClient {
  conn_closed : bool;      (* conn: has [conn.Close()] been called *)
  session : Session;
  send : chan;
  client_rooms : gset Z;   (* rooms map[int]bool *)
  lastPing : Z }.

Record BroadcastMsg := mkBroadcastMsg { RoomID : Z; Message : bytes }.

(** The [WSManager] maps together with the heap its pointers point into. *)
Record State := mkState {
  clients : gset ptr;            (* clients map[*WSClient]bool *)
  rooms : gmap Z (list ptr);     (* rooms map[int][]*WSClient *)
  heap : gmap ptr WSClient }.

Definition NewWSManager : State :=
  {| clients := ∅; rooms := ∅; heap := ∅ |}.

(** Field updates. *)
Definition set_send (ch : chan) (cl : WSClient) : WSClient :=
  {| conn_closed := conn_closed cl; session := session cl; send := ch;
     client_rooms := client_rooms cl; lastPing := lastPing cl |}.

Definition set_client_rooms (rs : gset Z) (cl : WSClient) : WSClient :=
  {| conn_closed := conn_closed cl; session := session cl; send := send cl;
     client_rooms := rs; lastPing := lastPing cl |}.

Definition set_lastPing (t : Z) (cl : WSClient) : WSClient :=
  {| conn_closed := conn_closed cl; session := session cl; send := send cl;
     client_rooms := client_rooms cl; lastPing := t |}.

Definition set_conn_closed (cl : WSClient) : WSClient :=
  {| conn_closed := true; session := session cl; send := send cl;
     client_rooms := client_rooms cl; lastPing := lastPing cl |}.

(** * Channel operations *)

(** [close(ch)]: closing a closed channel panics. *)
Definition close_chan (ch : chan) : option chan :=
  if closed ch then None else Some {| buf := buf ch; closed := true |}.

(** [select { case ch <- m: ... default: ... }]. *)
Inductive try_send := SendPanic | SendFull | Sent (ch : chan).

Definition select_send (ch : chan) (m : bytes) : try_send :=
  if closed ch then SendPanic
  else if decide (length (buf ch) < send_capacity)
       then Sent {| buf := buf ch ++ [m]; closed := false |}
       else SendFull.

(** * The hub: [run], [addClientToRoom], [removeClientFromRoom] *)

(** [removeClientFromRoom]: the first occurrence of the client is cut out of
    the room's slice; the room is dropped from the client's own set whenever
    the room's slice is not nil. *)
Definition index_of (c : ptr) (l : list ptr) : option nat :=
  fst <$> list_find (λ x, x = c) l.

Definition removeClientFromRoom (c : ptr) (roomID : Z) (s : State) : option State :=
  match rooms s !! roomID with
  | None => Some s
  | Some l =>
      let rooms' :=
        match index_of c l with
        | Some i => <[roomID := take i l ++ drop (S i) l]> (rooms s)
        | None => rooms s
        end in
      cl ← heap s !! c;
      Some {| clients := clients s; rooms := rooms';
              heap := <[c := set_client_rooms (client_rooms cl ∖ {[roomID]}) cl]> (heap s) |}
  end.

(** [addClientToRoom]. *)
Definition addClientToRoom (c : ptr) (roomID : Z) (s : State) : option State :=
  let rooms1 :=
    match rooms s !! roomID with
    | None => <[roomID := []]> (rooms s)
    | Some _ => rooms s
    end in
  let l := default [] (rooms1 !! roomID) in
  if decide (c ∈ l) then
    Some {| clients := clients s; rooms := rooms1; heap := heap s |}
  else
    cl ← heap s !! c;
    Some {| clients := clients s; rooms := <[roomID := l ++ [c]]> rooms1;
            heap := <[c := set_client_rooms ({[roomID]} ∪ client_rooms cl) cl]> (heap s) |}.

(** The [register] case of [run]. *)
Definition register (c : ptr) (s : State) : option State :=
  cl ← heap s !! c;
  Some {| clients := {[c]} ∪ clients s; rooms := rooms s; heap := heap s |}.

(** The loop [for roomID := range client.rooms] of the [unregister] case. *)
Fixpoint remove_from_rooms (c : ptr) (roomIDs : list Z) (s : State) : option State :=
  match roomIDs with
  | [] => Some s
  | r :: rest => s' ← removeClientFromRoom c r s; remove_from_rooms c rest s'
  end.

(** The [unregister] case of [run].  Go leaves the order of [range] over a
    map open; the rooms are visited in the order of [elements], and
    [remove_from_rooms_perm] shows that any other order gives the same
    state. *)
Definition unregister (c : ptr) (s : State) : option State :=
  cl ← heap s !! c;
  if decide (c ∈ clients s) then
    ch ← close_chan (send cl);
    remove_from_rooms c (elements (client_rooms cl))
      {| clients := clients s ∖ {[c]}; rooms := rooms s;
         heap := <[c := set_send ch cl]> (heap s) |}
  else Some s.

(** The [broadcast] case of [run]: the loop over the room's slice. *)
Fixpoint broadcast_loop (targets : list ptr) (m : bytes) (s : State) : option State :=
  match targets with
  | [] => Some s
  | c :: rest =>
      cl ← heap s !! c;
      match select_send (send cl) m with
      | SendPanic => None
      | Sent ch =>
          broadcast_loop rest m
            {| clients := clients s; rooms := rooms s;
               heap := <[c := set_send ch cl]> (heap s) |}
      | SendFull =>
          ch ← close_chan (send cl);
          broadcast_loop rest m
            {| clients := clients s ∖ {[c]}; rooms := rooms s;
               heap := <[c := set_send ch cl]> (heap s) |}
      end
  end.

Definition broadcast (msg : BroadcastMsg) (s : State) : option State :=
  broadcast_loop (default [] (rooms s !! RoomID msg)) (Message msg) s.

(** [checkClientHealth], at time [now]; [run] calls it on every tick of a
    ticker of period [health_interval]. *)
Definition health_timeout : Z := 60 * Second.
Definition health_interval : Z := 30 * Second.

Fixpoint health_loop (now : Z) (cs : list ptr) (s : State) : option State :=
  match cs with
  | [] => Some s
  | c :: rest =>
      cl ← heap s !! c;
      if decide (time_Since now (lastPing cl) > health_timeout)%Z then
        health_loop now rest
          {| clients := clients s; rooms := rooms s;
             heap := <[c := set_conn_closed cl]> (heap s) |}
      else health_loop now rest s
  end.

Definition checkClientHealth (now : Z) (s : State) : option State :=
  health_loop now (elements (clients s)) s.

(** The ticker of [run], [time.NewTicker(30 * time.Second)], made at time
    [start]: the time of its tick number [k], counted from 0.  The delay
    between a tick and the sweep it starts is left out. *)
Definition ticker_time (start : Z) (k : nat) : Z :=
  (start + (Z.of_nat k + 1) * health_interval)%Z.

(** [HandleConnection] after a successful upgrade: a new client is
    allocated and handed to the [register] case. *)
Definition new_client (sess : Session) (now : Z) : WSClient :=
  {| conn_closed := false; session := sess; send := make_chan;
     client_rooms := ∅; lastPing := now |}.

Definition HandleConnection (sess : Session) (now : Z) (s : State) : option State :=
  let c := fresh (dom (heap s)) in
  register c {| clients := clients s; rooms := rooms s;
                heap := <[c := new_client sess now]> (heap s) |}.

(** * The write loop *)

(** [writePump], the receive case: one queued message is written to the
    transport; on a closed and drained channel the pump returns and its
    deferred [conn.Close()] runs; on an empty open channel it blocks. *)
Definition writePump_recv (c : ptr) (s : State) : option State :=
  cl ← heap s !! c;
  match buf (send cl) with
  | _ :: rest =>
      Some {| clients := clients s; rooms := rooms s;
              heap := <[c := set_send {| buf := rest; closed := closed (send cl) |} cl]> (heap s) |}
  | [] =>
      if closed (send cl) then
        Some {| clients := clients s; rooms := rooms s;
                heap := <[c := set_conn_closed cl]> (heap s) |}
      else Some s
  end.

(** [writePump], the ticker case: a ping is written; when the write fails
    the pump returns and its deferred [conn.Close()] runs. *)
Definition writePump_tick (write_ok : bool) (c : ptr) (s : State) : option State :=
  cl ← heap s !! c;
  if write_ok then Some s
  else Some {| clients := clients s; rooms := rooms s;
               heap := <[c := set_conn_closed cl]> (heap s) |}.

(** * The read loop and its handlers *)

Record Room := mkRoom { room_ID : Z; room_HallID : Z; room_Name : string }.

Record Message_ := mkMessage {
  msg_ID : Z; msg_RoomID : Z; msg_UserID : Z; msg_Username : string;
  msg_Content : string; msg_CreatedAt : Z }.

Record JoinRoomData := mkJoin { HallID : Z; join_RoomID : Z }.
Record SendMessageData := mkSend { send_RoomID : Z; Content : string }.
Record BroadcastMessageData := mkBroadcastData { bm_Message : Message_; bm_RoomID : Z }.

(** The [Data interface{}] of an inbound [WSMessage] is only ever looked at
    through [json.Marshal] followed by [json.Unmarshal] into one of three
    structs; it is represented by the three results ([None]: the decoder
    returned an error). *)
Record Data := mkData {
  as_JoinRoomData : option JoinRoomData;
  as_leave_room : option Z;
  as_SendMessageData : option SendMessageData }.

Record WSMessage := mkWSMessage { Type_ : string; Data_ : Data }.

(** What a handler is given by its collaborators during one call: the
    answers of the database ([None]: the call returned an error), of
    [json.Marshal] on the outbound envelope, and of [time.Now()]. *)
Record Env := mkEnv {
  IsUserInHall : Z → Z → option bool;
  GetRoomByID : Z → option Room;
  SaveMessage : Z → Z → string → option Message_;
  json_Marshal : string → BroadcastMessageData → option bytes;
  time_Now : Z }.

(** The calls a handler makes on the hub's channels and on the database, in
    program order. *)
Inductive Event :=
  | CallIsUserInHall (userID hallID : Z)
  | CallGetRoomByID (roomID : Z)
  | CallSaveMessage (roomID userID : Z) (content : string)
  | CallUpdateUserLastSeen (userID : Z)
  | SendBroadcast (msg : BroadcastMsg)      (* m.broadcast <- msg *)
  | SendUnregister (c : ptr).               (* m.unregister <- c *)

(** [BroadcastToRoom]. *)
Definition BroadcastToRoom (env : Env) (roomID : Z) (msgType : string)
    (data : BroadcastMessageData) : list Event :=
  match json_Marshal env msgType data with
  | None => []
  | Some jsonData => [SendBroadcast {| RoomID := roomID; Message := jsonData |}]
  end.

Definition handleJoinRoom (env : Env) (c : ptr) (data : Data) (s : State)
    : option (State * list Event) :=
  match as_JoinRoomData data with
  | None => Some (s, [])
  | Some joinData =>
      cl ← heap s !! c;
      let uid := UserID (session cl) in
      let ev1 := [CallIsUserInHall uid (HallID joinData)] in
      match IsUserInHall env uid (HallID joinData) with
      | Some true =>
          let ev2 := ev1 ++ [CallGetRoomByID (join_RoomID joinData)] in
          match GetRoomByID env (join_RoomID joinData) with
          | Some room =>
              if decide (room_HallID room = HallID joinData) then
                s' ← addClientToRoom c (join_RoomID joinData) s;
                Some (s', ev2)
              else Some (s, ev2)
          | None => Some (s, ev2)
          end
      | _ => Some (s, ev1)
      end
  end.

Definition handleLeaveRoom (c : ptr) (data : Data) (s : State)
    : option (State * list Event) :=
  match as_leave_room data with
  | None => Some (s, [])
  | Some roomID =>
      cl ← heap s !! c;
      s' ← removeClientFromRoom c roomID s;
      Some (s', [])
  end.

Definition handleSendMessage (env : Env) (c : ptr) (data : Data) (s : State)
    : option (State * list Event) :=
  match as_SendMessageData data with
  | None => Some (s, [])
  | Some sendData =>
      if decide (Content sendData = EmptyString) then Some (s, [])
      else
        cl ← heap s !! c;
        if decide (send_RoomID sendData ∈ client_rooms cl) then
          let uid := UserID (session cl) in
          let ev1 := [CallSaveMessage (send_RoomID sendData) uid (Content sendData)] in
          match SaveMessage env (send_RoomID sendData) uid (Content sendData) with
          | None => Some (s, ev1)
          | Some message =>
              Some (s, ev1 ++ BroadcastToRoom env (send_RoomID sendData) "new_message"
                                {| bm_Message := message; bm_RoomID := send_RoomID sendData |})
          end
        else Some (s, [])
  end.

Definition handleMessage (env : Env) (c : ptr) (msg : WSMessage) (s : State)
    : option (State * list Event) :=
  if String.eqb (Type_ msg) "join_room" then handleJoinRoom env c (Data_ msg) s
  else if String.eqb (Type_ msg) "leave_room" then handleLeaveRoom c (Data_ msg) s
  else if String.eqb (Type_ msg) "send_message" then handleSendMessage env c (Data_ msg) s
  else if String.eqb (Type_ msg) "ping" then
    cl ← heap s !! c;
    Some ({| clients := clients s; rooms := rooms s;
             heap := <[c := set_lastPing (time_Now env) cl]> (heap s) |},
          [CallUpdateUserLastSeen (UserID (session cl))])
  else Some (s, []).

(** The pong handler installed by [readPump]. *)
Definition PongHandler (now : Z) (c : ptr) (s : State) : option State :=
  cl ← heap s !! c;
  Some {| clients := clients s; rooms := rooms s;
          heap := <[c := set_lastPing now cl]> (heap s) |}.

(** What [conn.ReadMessage()] followed by [json.Unmarshal] gives the read
    loop: a transport error, bytes that are not a [WSMessage], or a decoded
    message.  A closed connection only ever gives the error. *)
Inductive frame := ReadError | InvalidJSON | Decoded (msg : WSMessage).

Definition ReadMessage (cl : WSClient) (incoming : frame) : frame :=
  if conn_closed cl then ReadError else incoming.

(** One iteration of the loop of [readPump]; on the error the loop is left
    and the deferred function runs ([true] in the result). *)
Definition readPump_iter (env : Env) (c : ptr) (incoming : frame) (s : State)
    : option (State * list Event * bool) :=
  cl ← heap s !! c;
  match ReadMessage cl incoming with
  | ReadError =>
      Some ({| clients := clients s; rooms := rooms s;
               heap := <[c := set_conn_closed cl]> (heap s) |},
            [SendUnregister c], true)
  | InvalidJSON => Some (s, [], false)
  | Decoded msg =>
      '(s', evs) ← handleMessage env c msg s;
      Some (s', evs, false)
  end.

(** ** The system as a transition system

    One command is one atomic step: a case of the [run] loop, or a step of a
    connection's read or write loop.  Commands sent by the handlers on the
    hub's channels ([SendBroadcast], [SendUnregister]) are taken up by the
    hub as [CmdBroadcast] and [CmdUnregister] steps. *)
Inductive Cmd :=
  | CmdConnect (sess : Session) (now : Z)
  | CmdUnregister (c : ptr)
  | CmdBroadcast (msg : BroadcastMsg)
  | CmdTick (now : Z)
  | CmdRead (env : Env) (c : ptr) (incoming : frame)
  | CmdPong (now : Z) (c : ptr)
  | CmdWrite (c : ptr)
  | CmdWriteTick (write_ok : bool) (c : ptr).

Definition exec (cmd : Cmd) (s : State) : option State :=
  match cmd with
  | CmdConnect sess now => HandleConnection sess now s
  | CmdUnregister c => unregister c s
  | CmdBroadcast msg => broadcast msg s
  | CmdTick now => checkClientHealth now s
  | CmdRead env c incoming =>
      '(s', _, _) ← readPump_iter env c incoming s; Some s'
  | CmdPong now c => PongHandler now c s
  | CmdWrite c => writePump_recv c s
  | CmdWriteTick write_ok c => writePump_tick write_ok c s
  end.

Fixpoint exec_all (cmds : list Cmd) (s : State) : option State :=
  match cmds with
  | [] => Some s
  | cmd :: rest => s' ← exec cmd s; exec_all rest s'
  end.

Inductive reachable : State → Prop :=
  | reachable_init : reachable NewWSManager
  | reachable_step s cmd s' :
      reachable s → exec cmd s = Some s' → reachable s'.

(** * [cleanRoomName]

    A Go [string] is its bytes.  The functions of the Go library that
    [cleanRoomName] calls are modelled after the library's documentation
    and code; [unicode.ToLower] above U+007F is the library's case table,
    which is a parameter ([tbl]). *)

Definition byteZ (x : byte) : Z := Z.of_N (Byte.to_N x).

(** Go's conversion [byte(x)]. *)
Definition Zbyte (x : Z) : byte :=
  default Byte.x00 (Byte.of_N (Z.to_N (x mod 256)%Z)).

Definition byte_or (x y : byte) : byte := Zbyte (Z.lor (byteZ x) (byteZ y)).
Definition byte_and (x y : byte) : byte := Zbyte (Z.land (byteZ x) (byteZ y)).

Module utf8.
Local Open Scope Z_scope.
Definition RuneError : Z := 0xFFFD.
Definition RuneSelf : Z := 0x80.
Definition MaxRune : Z := 0x10FFFF.

(** The table [first] with [acceptRanges]: for a leading byte, the length
    of the sequence and the range its second byte must lie in; [None] for
    a byte that cannot start a sequence of two or more bytes. *)
Definition lead (s0 : Z) : option (nat * Z * Z) :=
  if (0xC2 <=? s0) && (s0 <=? 0xDF) then Some (2%nat, 0x80, 0xBF)
  else if s0 =? 0xE0 then Some (3%nat, 0xA0, 0xBF)
  else if (0xE1 <=? s0) && (s0 <=? 0xEC) then Some (3%nat, 0x80, 0xBF)
  else if s0 =? 0xED then Some (3%nat, 0x80, 0x9F)
  else if (0xEE <=? s0) && (s0 <=? 0xEF) then Some (3%nat, 0x80, 0xBF)
  else if s0 =? 0xF0 then Some (4%nat, 0x90, 0xBF)
  else if (0xF1 <=? s0) && (s0 <=? 0xF3) then Some (4%nat, 0x80, 0xBF)
  else if s0 =? 0xF4 then Some (4%nat, 0x80, 0x8F)
  else None.

Definition continuation (x : Z) : bool := (0x80 <=? x) && (x <=? 0xBF).

(** [DecodeRuneInString]: the first rune of [s] and its width; an invalid
    or short sequence is [RuneError] of width 1. *)
Definition DecodeRuneInString (s : bytes) : Z * nat :=
  match s with
  | [] => (RuneError, 0%nat)
  | b0 :: t =>
      let s0 := byteZ b0 in
      if s0 <? RuneSelf then (s0, 1%nat)
      else
        match lead s0, t with
        | None, _ | Some _, [] => (RuneError, 1%nat)
        | Some (sz, lo, hi), b1 :: t1 =>
            let s1 := byteZ b1 in
            if (s1 <? lo) || (hi <? s1) then (RuneError, 1%nat)
            else if (sz <=? 2)%nat then
              (Z.lor (Z.shiftl (Z.land s0 0x1F) 6) (Z.land s1 0x3F), 2%nat)
            else
              match t1 with
              | [] => (RuneError, 1%nat)
              | b2 :: t2 =>
                  let s2 := byteZ b2 in
                  if negb (continuation s2) then (RuneError, 1%nat)
                  else if (sz <=? 3)%nat then
                    (Z.lor (Z.lor (Z.shiftl (Z.land s0 0x0F) 12)
                                  (Z.shiftl (Z.land s1 0x3F) 6))
                           (Z.land s2 0x3F), 3%nat)
                  else
                    match t2 with
                    | [] => (RuneError, 1%nat)
                    | b3 :: _ =>
                        let s3 := byteZ b3 in
                        if negb (continuation s3) then (RuneError, 1%nat)
                        else
                          (Z.lor (Z.lor (Z.lor (Z.shiftl (Z.land s0 0x07) 18)
                                               (Z.shiftl (Z.land s1 0x3F) 12))
                                        (Z.shiftl (Z.land s2 0x3F) 6))
                                 (Z.land s3 0x3F), 4%nat)
                    end
              end
        end
  end.

Definition tx : byte := Byte.x80.
Definition t2 : byte := Byte.xc0.
Definition t3 : byte := Byte.xe0.
Definition t4 : byte := Byte.xf0.
Definition maskx : byte := Byte.x3f.

(** [AppendRune] for a rune that is not negative. *)
Definition AppendRune (r : Z) : bytes :=
  if r <=? 0x7F then [Zbyte r]
  else if r <=? 0x7FF then
    [byte_or t2 (Zbyte (Z.shiftr r 6)); byte_or tx (byte_and (Zbyte r) maskx)]
  else if (r <? 0xD800) || ((0xDFFF <? r) && (r <=? 0xFFFF)) then
    [byte_or t3 (Zbyte (Z.shiftr r 12));
     byte_or tx (byte_and (Zbyte (Z.shiftr r 6)) maskx);
     byte_or tx (byte_and (Zbyte r) maskx)]
  else if (0xFFFF <? r) && (r <=? MaxRune) then
    [byte_or t4 (Zbyte (Z.shiftr r 18));
     byte_or tx (byte_and (Zbyte (Z.shiftr r 12)) maskx);
     byte_or tx (byte_and (Zbyte (Z.shiftr r 6)) maskx);
     byte_or tx (byte_and (Zbyte r) maskx)]
  else [Byte.xef; Byte.xbf; Byte.xbd].
End utf8.

Module unicode.
Local Open Scope Z_scope.
(** [unicode.ToLower]; [tbl] is [To(LowerCase, r)] above U+007F. *)
Definition ToLower (tbl : Z → Z) (r : Z) : Z :=
  if r <=? 0x7F then
    if (0x41 <=? r) && (r <=? 0x5A) then r + 0x20 else r
  else tbl r.

(** The rows of the case table for U+0080..U+00FF. *)
Definition latin1 (r : Z) : Z :=
  if (0xC0 <=? r) && (r <=? 0xDE) && negb (r =? 0xD7) then r + 0x20 else r.
End unicode.

Module strings.
Local Open Scope Z_scope.
Fixpoint HasPrefix (s prefix : bytes) {struct prefix} : bool :=
  match prefix, s with
  | [], _ => true
  | _ :: _, [] => false
  | p :: prefix', c :: s' => Byte.eqb c p && HasPrefix s' prefix'
  end.

Fixpoint Contains (s substr : bytes) : bool :=
  HasPrefix s substr ||
  match s with
  | [] => false
  | _ :: s' => Contains s' substr
  end.

(** [ReplaceAll] for a non-empty [old]: the non-overlapping occurrences of
    [old], found from the left, are replaced by [new].  [skip] counts the
    bytes of the occurrence being replaced that are still to be passed. *)
Fixpoint replace_from (old new : bytes) (skip : nat) (s : bytes) : bytes :=
  match s with
  | [] => []
  | c :: s' =>
      match skip with
      | S k => replace_from old new k s'
      | O =>
          if HasPrefix s old
          then new ++ replace_from old new (length old - 1)%nat s'
          else c :: replace_from old new 0 s'
      end
  end.

Definition ReplaceAll (s old new : bytes) : bytes := replace_from old new 0 s.

(** [TrimRight] for a cutset of ASCII bytes. *)
Fixpoint TrimRight (s cutset : bytes) : bytes :=
  match s with
  | [] => []
  | c :: s' =>
      match TrimRight s' cutset with
      | [] => if existsb (Byte.eqb c) cutset then [] else [c]
      | t => c :: t
      end
  end.

(** [Map]: every rune of [s], an invalid byte counting as [RuneError], is
    replaced by its image; a negative image is dropped.  [skip] counts the
    bytes of the current rune that are still to be passed. *)
Fixpoint map_from (mapping : Z → Z) (skip : nat) (s : bytes) : bytes :=
  match s with
  | [] => []
  | c :: s' =>
      match skip with
      | S k => map_from mapping k s'
      | O =>
          let '(r, width) := utf8.DecodeRuneInString s in
          let r' := mapping r in
          (if r' <? 0 then [] else utf8.AppendRune r')
            ++ map_from mapping (width - 1)%nat s'
      end
  end.

Definition Map (mapping : Z → Z) (s : bytes) : bytes := map_from mapping 0 s.

Definition isASCII (c : byte) : bool := byteZ c <? utf8.RuneSelf.
Definition isUpper (c : byte) : bool := (0x41 <=? byteZ c) && (byteZ c <=? 0x5A).

Definition lowerASCII (c : byte) : byte :=
  if isUpper c then Zbyte (byteZ c + 0x20) else c.

(** [ToLower], with its path for strings of ASCII bytes. *)
Definition ToLower (tbl : Z → Z) (s : bytes) : bytes :=
  if forallb isASCII s then
    if existsb isUpper s then map lowerASCII s else s
  else Map (unicode.ToLower tbl) s.
End strings.

(** [regexp.MustCompile(`[!@$%^&*()_=]+`).ReplaceAllString(name, "")]: every
    byte of the class is deleted. *)
Definition invalid_symbols : bytes := b "!@$%^&*()_=".

Definition is_invalid_symbol (c : byte) : bool := existsb (Byte.eqb c) invalid_symbols.

Definition remove_invalid_symbols (name : bytes) : bytes :=
  List.filter (λ c, negb (is_invalid_symbol c)) name.

(** The loop [for strings.Contains(name, "--")]; every turn shortens the
    name, so [length name] turns are enough. *)
Fixpoint collapse_dashes (fuel : nat) (name : bytes) : bytes :=
  match fuel with
  | O => name
  | S fuel' =>
      if strings.Contains name (b "--")
      then collapse_dashes fuel' (strings.ReplaceAll name (b "--") (b "-"))
      else name
  end.

Definition cleanRoomName (tbl : Z → Z) (name : bytes) : bytes :=
  let name := if strings.HasPrefix name (b "#") then name else b "#" ++ name in
  let name := strings.ToLower tbl name in
  let name := strings.ReplaceAll name (b " ") (b "-") in
  let name := remove_invalid_symbols name in
  let name := collapse_dashes (length name) name in
  let name := strings.TrimRight name (b "-") in
  let name :=
    if (20 <? length name)%nat
    then strings.TrimRight (take 20 name) (b "-")
    else name in
  if (length name <=? 1)%nat then [] else name.

(** * Notions used in the statements *)

(** The room's slice, [nil] read as empty, and a client's own room set. *)
Definition members (s : State) (roomID : Z) : list ptr :=
  default [] (rooms s !! roomID).

Definition memberships (s : State) (c : ptr) : gset Z :=
  match heap s !! c with Some cl => client_rooms cl | None => ∅ end.

Definition send_of (s : State) (c : ptr) : option chan :=
  send <$> heap s !! c.

(** What every reachable state satisfies: no slice lists a client twice;
    a client is in a room's slice exactly when the room is in its own set;
    a client in [clients] has an open queue; a client outside [clients]
    has a closed one. *)
Record hub_inv (s : State) : Prop := mk_hub_inv {
  inv_nodup : ∀ r, NoDup (members s r);
  inv_consistent : ∀ r c, c ∈ members s r ↔ r ∈ memberships s c;
  inv_live_open : ∀ c, c ∈ clients s →
      ∃ ch, send_of s c = Some ch ∧ closed ch = false;
  inv_dead_closed : ∀ c ch, send_of s c = Some ch →
      c ∈ clients s ∨ closed ch = true }.

(** The queue of [c] exists and is closed. *)
Definition is_closed (s : State) (c : ptr) : Prop :=
  ∃ ch, send_of s c = Some ch ∧ closed ch = true.

(** The record of [c] exists and satisfies [P]. *)
Definition client_has (P : WSClient → Prop) (s : State) (c : ptr) : Prop :=
  ∃ cl, heap s !! c = Some cl ∧ P cl.

(** The test of [checkClientHealth]. *)
Definition stale (now : Z) (cl : WSClient) : Prop :=
  (time_Since now (lastPing cl) > health_timeout)%Z.

#[local] Instance stale_dec now cl : Decision (stale now cl).
Proof. unfold stale. apply _. Defined.

(** What the sweep over the clients [cs] does to the record of [c]. *)
Definition swept (now : Z) (cs : list ptr) (c : ptr) (cl : WSClient) : WSClient :=
  if decide (c ∈ cs ∧ stale now cl) then set_conn_closed cl else cl.

(** What one iteration of the broadcast loop does to an open queue. *)
Definition deliver (m : bytes) (cl : WSClient) : WSClient :=
  if decide (length (buf (send cl)) < send_capacity)
  then set_send {| buf := buf (send cl) ++ [m]; closed := false |} cl
  else set_send {| buf := buf (send cl); closed := true |} cl.

(** The queue has no room left: the [default] branch of the [select]. *)
Definition queue_full (cl : WSClient) : Prop := send_capacity ≤ length (buf (send cl)).

(** What a broadcast to the clients [targets] does to the record of [c]. *)
Definition delivered (m : bytes) (targets : list ptr) (c : ptr) (cl : WSClient) : WSClient :=
  if decide (c ∈ targets) then deliver m cl else cl.

(** The two checks of [handleJoinRoom]. *)
Definition join_allowed (env : Env) (userID : Z) (joinData : JoinRoomData) : Prop :=
  IsUserInHall env userID (HallID joinData) = Some true ∧
  ∃ room, GetRoomByID env (join_RoomID joinData) = Some room ∧
          room_HallID room = HallID joinData.

Definition dash : byte := "-".
Definition hash : byte := "#".
Definition space : byte := " ".

(** The bytes a cleaned name is made of. *)
Definition clean_byte (c : byte) : Prop :=
  c ≠ space ∧ strings.isUpper c = false ∧ is_invalid_symbol c = false.

(** What a non-empty result of [cleanRoomName] looks like. *)
Record well_cleaned (y : bytes) : Prop := mk_well_cleaned {
  wc_hash : ∃ t, y = hash :: t;
  wc_length : 2 ≤ length y ≤ 20;
  wc_bytes : Forall clean_byte y;
  wc_no_dd : strings.Contains y (b "--") = false;
  wc_last : last y ≠ Some dash }.

(** * Concrete scenarios *)

Definition alice : Session := {| UserID := 1; Username := "alice" |}.
Definition bob : Session := {| UserID := 2; Username := "bob" |}.

(** A database in which every user is in every hall, room [r] belongs to
    hall [1], and every message is stored under id [100]. *)
Definition env_ok (now : Z) : Env :=
  {| IsUserInHall := λ _ _, Some true;
     GetRoomByID := λ r, Some {| room_ID := r; room_HallID := 1; room_Name := "#general" |};
     SaveMessage := λ r u content,
       Some {| msg_ID := 100; msg_RoomID := r; msg_UserID := u; msg_Username := "";
               msg_Content := content; msg_CreatedAt := now |};
     json_Marshal := λ t d, Some (b t ++ b (msg_Content (bm_Message d)));
     time_Now := now |}.

(** A [join_room] message for [room] of [hall]. *)
Definition join_room (hall room : Z) : WSMessage :=
  {| Type_ := "join_room";
     Data_ := {| as_JoinRoomData := Some {| HallID := hall; join_RoomID := room |};
                 as_leave_room := Some room;
                 as_SendMessageData := Some {| send_RoomID := room; Content := "" |} |} |}.

(** Two clients connect and both join room 7. *)
Definition two_in_room_cmds : list Cmd :=
  [ CmdConnect alice 0; CmdConnect bob 0;
    CmdRead (env_ok 1) 1%positive (Decoded (join_room 1 7));
    CmdRead (env_ok 2) 2%positive (Decoded (join_room 1 7)) ].

Definition two_in_room : State :=
  Eval vm_compute in default NewWSManager (exec_all two_in_room_cmds NewWSManager).

(** Bob is unregistered; later, after a sweep and a pong of alice, "hi" is
    broadcast to room 7. *)
Definition bob_gone : State :=
  Eval vm_compute in default NewWSManager (unregister 2%positive two_in_room).

Definition bob_gone_later : State :=
  Eval vm_compute in
    default NewWSManager (exec_all [CmdTick 5; CmdPong 6 1%positive] bob_gone).

Definition bob_gone_sent : State :=
  Eval vm_compute in
    default NewWSManager (broadcast {| RoomID := 7; Message := b "hi" |} bob_gone_later).

(** Both clients are in room 7; 256 messages are broadcast to it while
    neither write loop runs; then bob's write loop takes its 256 messages
    off its queue.  Alice's queue is full, bob's is empty. *)
Definition room7_full_cmds : list Cmd :=
  two_in_room_cmds
  ++ replicate 256 (CmdBroadcast {| RoomID := 7; Message := b "x" |})
  ++ replicate 256 (CmdWrite 2%positive).

Definition room7_full : State :=
  Eval vm_compute in default NewWSManager (exec_all room7_full_cmds NewWSManager).

(** Alice's record in [room7_full]. *)
Definition alice_full : WSClient :=
  Eval vm_compute in default (new_client alice 0) (heap room7_full !! 1%positive).

(** The data of a [send_message] for room 7 with content "hi". *)
Definition send_hi : Data :=
  {| as_JoinRoomData := None; as_leave_room := Some 7%Z;
     as_SendMessageData := Some {| send_RoomID := 7; Content := "hi" |} |}.

(** Alice's record in [two_in_room]. *)
Definition alice_joined : WSClient :=
  Eval vm_compute in default (new_client alice 0) (heap two_in_room !! 1%positive).

(** A [ping] message. *)
Definition ping_msg : WSMessage :=
  {| Type_ := "ping";
     Data_ := {| as_JoinRoomData := None; as_leave_room := None;
                 as_SendMessageData := None |} |}.

(** An 18-letter name followed by "é" (bytes C3 A9). *)
Definition long_name : bytes := b "aaaaaaaaaaaaaaaaaa" ++ [Byte.xc3; Byte.xa9].

(** * Further notions and scenarios for the hub *)

(** No queue holds more than its capacity. *)
Definition queues_bounded (s : State) : Prop :=
  ∀ c cl, heap s !! c = Some cl → length (buf (send cl)) ≤ send_capacity.

(** The [unregister] case of [run] when [range client.rooms] yields the
    rooms in [order]. *)
Definition unregister_in_order (order : list Z) (c : ptr) (s : State) : option State :=
  cl ← heap s !! c;
  if decide (c ∈ clients s) then
    ch ← close_chan (send cl);
    remove_from_rooms c order
      {| clients := clients s ∖ {[c]}; rooms := rooms s;
         heap := <[c := set_send ch cl]> (heap s) |}
  else Some s.

(** Alice is in rooms 7 and 8, bob in room 7. *)
Definition alice_two_rooms : State :=
  Eval vm_compute in
    default NewWSManager
      (exec (CmdRead (env_ok 3) 1%positive (Decoded (join_room 1 8))) two_in_room).

Definition alice_in_7_8 : WSClient :=
  Eval vm_compute in default (new_client alice 0) (heap alice_two_rooms !! 1%positive).

(** Bob leaves room 7; then "hi" is broadcast to it. *)
Definition bob_left : State :=
  Eval vm_compute in default NewWSManager (removeClientFromRoom 2%positive 7 two_in_room).

Definition bob_left_sent : State :=
  Eval vm_compute in
    default NewWSManager (broadcast {| RoomID := 7; Message := b "hi" |} bob_left).

(** "a" and then "b" are broadcast to room 7. *)
Definition sent_a : State :=
  Eval vm_compute in
    default NewWSManager (broadcast {| RoomID := 7; Message := b "a" |} two_in_room).

Definition sent_a_b : State :=
  Eval vm_compute in
    default NewWSManager (broadcast {| RoomID := 7; Message := b "b" |} sent_a).

(** At 61 s the sweep finds alice and bob of [room7_full] stale; then "hi"
    is broadcast to room 7 before alice's read loop has run. *)
Definition room7_swept : State :=
  Eval vm_compute in default NewWSManager (checkClientHealth (61 * Second) room7_full).

Definition room7_swept_sent : State :=
  Eval vm_compute in
    default NewWSManager (broadcast {| RoomID := 7; Message := b "hi" |} room7_swept).

(** Alice sends "hi" to room 7: the payload that is broadcast, and the
    state after the broadcast. *)
Definition hi_payload : bytes := Eval vm_compute in b "new_message" ++ b "hi".

Definition hi_sent : State :=
  Eval vm_compute in
    default NewWSManager (broadcast {| RoomID := 7; Message := hi_payload |} two_in_room).

(** * Sessions ([auth.go]) *)

Definition Hour : Z := 3600 * Second.

(** The fields of [User] that the session code reads. *)
Record User := mkUser { user_ID : Z; user_Username : string }.

(** The [Session] struct in full; [identity] holds its [UserID] and
    [Username], the part the hub reads. *)
Record AuthSession := mkAuthSession {
  Token : string;
  identity : Session;
  CreatedAt : Z;
  ExpiresAt : Z }.

Record AuthManager := mkAuthManager {
  sessions : gmap string AuthSession }.    (* sessions map[string]*Session *)

Definition NewAuthManager : AuthManager := {| sessions := ∅ |}.

(** [CreateSession].  [token] is what [generateToken] returned ([None]: the
    random source failed); [now1] and [now2] are the two readings of
    [time.Now()]. *)
Definition CreateSession (token : option string) (now1 now2 : Z) (user : User)
    (am : AuthManager) : option AuthSession * AuthManager :=
  match token with
  | None => (None, am)
  | Some tok =>
      let session :=
        {| Token := tok;
           identity := {| UserID := user_ID user; Username := user_Username user |};
           CreatedAt := now1;
           ExpiresAt := (now2 + 24 * Hour)%Z |} in
      (Some session, {| sessions := <[tok := session]> (sessions am) |})
  end.

Inductive session_error := InvalidSession | SessionExpired.

(** [ValidateSession] at time [now]; [time.Now().After(t)] is [now > t]. *)
Definition ValidateSession (now : Z) (token : string) (am : AuthManager)
    : (AuthSession + session_error) * AuthManager :=
  match sessions am !! token with
  | None => (inr InvalidSession, am)
  | Some session =>
      if decide (now > ExpiresAt session)%Z
      then (inr SessionExpired, {| sessions := delete token (sessions am) |})
      else (inl session, am)
  end.

Definition DeleteSession (token : string) (am : AuthManager) : AuthManager :=
  {| sessions := delete token (sessions am) |}.

(** [strings.TrimPrefix] on a [string]. *)
Definition TrimPrefix (s prefix : string) : string :=
  if String.prefix prefix s
  then String.substring (String.length prefix)
         (String.length s - String.length prefix) s
  else s.

(** [ExtractToken]; [authorization] is [r.Header.Get("Authorization")], the
    empty string when the header is absent. *)
Definition ExtractToken (authorization : string) : string :=
  if String.prefix "Bearer " authorization
  then TrimPrefix authorization "Bearer "
  else "".

(** ** HTTP responses *)

Definition StatusOK : Z := 200.
Definition StatusBadRequest : Z := 400.
Definition StatusUnauthorized : Z := 401.
Definition StatusForbidden : Z := 403.
Definition StatusNotFound : Z := 404.
Definition StatusMethodNotAllowed : Z := 405.
Definition StatusConflict : Z := 409.
Definition StatusInternalServerError : Z := 500.

Record Hall := mkHall {
  hall_ID : Z; hall_Name : string; hall_InviteCode : string; hall_OwnerID : Z }.

(** What a handler writes: an error ([http.Error] and [respondError] alike:
    a status and a message), or a JSON value with status 200. *)
Inductive Payload :=
  | PayloadStatus (status : string)
  | PayloadStatusMessage (status message : string)
  | PayloadLogin (user : User) (token : string)
  | PayloadHall (hall : Hall)
  | PayloadRoom (room : Room)
  | PayloadRooms (rooms : list Room)
  | PayloadMessages (messages : list Message_)
  | PayloadInviteCode (code : string).

Inductive Response :=
  | Error (code : Z) (message : string)
  | Respond (data : Payload).

Definition status_of (r : Response) : Z :=
  match r with Error code _ => code | Respond _ => StatusOK end.

(** [RequireAuth]: the response when the request is turned away, or the
    session handed to the wrapped handler. *)
Definition RequireAuth (now : Z) (authorization : string) (am : AuthManager)
    : (Response + AuthSession) * AuthManager :=
  let token := ExtractToken authorization in
  if String.eqb token "" then
    (inl (Error StatusUnauthorized "Missing authorization token"), am)
  else
    match ValidateSession now token am with
    | (inr _, am') => (inl (Error StatusUnauthorized "Invalid or expired session"), am')
    | (inl session, am') => (inr session, am')
    end.

(** [handleLogout], behind [RequireAuth]. *)
Definition handleLogout (method authorization : string) (am : AuthManager)
    : Response * AuthManager :=
  if negb (String.eqb method "POST") then
    (Error StatusMethodNotAllowed "Method not allowed", am)
  else
    (Respond (PayloadStatus "logged out"),
     DeleteSession (ExtractToken authorization) am).

Definition logout_route (now : Z) (method authorization : string) (am : AuthManager)
    : Response * AuthManager :=
  match RequireAuth now authorization am with
  | (inl response, am') => (response, am')
  | (inr _, am') => handleLogout method authorization am'
  end.

(** What [upgrader.Upgrade] does with the request inside
    [HandleConnection]: it refuses the request and answers it itself
    through [http.Error] (400 for a request that is not a WebSocket
    handshake), it takes the connection over and then fails, closing it
    without an answer, or it completes the handshake. *)
Inductive upgrade_result :=
  | UpgradeRefused (code : Z) (message : string)
  | UpgradeLost
  | Upgraded.

(** [handleWebSocket]; [token] is the query parameter, [upgrade] what
    [upgrader.Upgrade] does inside [HandleConnection].  The response is
    [None] when the connection has been taken over: nothing is written
    through the [ResponseWriter] then. *)
Definition handleWebSocket (now : Z) (token : string) (upgrade : upgrade_result)
    (now' : Z) (am : AuthManager) (s : State)
    : option Response * AuthManager * option State :=
  if String.eqb token "" then
    (Some (Error StatusUnauthorized "Missing token"), am, Some s)
  else
    match ValidateSession now token am with
    | (inr _, am') => (Some (Error StatusUnauthorized "Invalid token"), am', Some s)
    | (inl session, am') =>
        match upgrade with
        | UpgradeRefused code message => (Some (Error code message), am', Some s)
        | UpgradeLost => (None, am', Some s)
        | Upgraded => (None, am', HandleConnection (identity session) now' s)
        end
    end.

(** ** The HTTP handlers of rooms, halls and messages *)

(** [strconv.Atoi]: an optional sign and decimal digits, within [int]. *)
Definition digit_of (c : ascii) : option Z :=
  let n := Z.of_N (N_of_ascii c) in
  if (48 <=? n)%Z && (n <=? 57)%Z then Some (n - 48)%Z else None.

Fixpoint digits (s : string) (acc : Z) : option Z :=
  match s with
  | EmptyString => Some acc
  | String c s' =>
      match digit_of c with
      | Some d => digits s' (10 * acc + d)%Z
      | None => None
      end
  end.

Definition Atoi (s : string) : option Z :=
  match s with
  | EmptyString => None
  | String c rest =>
      let neg := Ascii.eqb c "-" in
      let body := if neg || Ascii.eqb c "+" then rest else s in
      match body with
      | EmptyString => None
      | _ =>
          n ← digits body 0;
          let v := if neg then (- n)%Z else n in
          if (- 2 ^ 63 <=? v)%Z && (v <=? 2 ^ 63 - 1)%Z then Some v else None
      end
  end.

(** [strings.Split(s, "/")]. *)
Fixpoint split_slash (s : string) : list string :=
  match s with
  | EmptyString => [EmptyString]
  | String c s' =>
      if Ascii.eqb c "/" then EmptyString :: split_slash s'
      else
        match split_slash s' with
        | part :: parts => String c part :: parts
        | [] => [String c EmptyString]
        end
  end.

(** The answers of the database during one request ([None], [inl]: the call
    returned an error; [UniqueConstraint]: an error whose text contains
    "UNIQUE constraint failed"). *)
Inductive db_error := UniqueConstraint | OtherError.

Record DB := mkDB {
  db_AuthenticateUser : string → string → option User;
  db_CreateUser : string → string → db_error + User;
  db_AddUserToDefaultHall : Z → bool;
  db_GetUserByUsername : string → option User;
  db_IsUserInHall : Z → Z → option bool;
  db_GetRoomByID : Z → option Room;
  db_GetRoomByName : Z → string → option Room;
  db_GetHallByID : Z → option Hall;
  db_GetHallRooms : Z → option (list Room);
  db_CreateHall : string → Z → option Hall;
  db_CreateRoom : Z → bytes → db_error + Room;
  db_DeleteRoom : Z → bool;
  db_DeleteHall : Z → bool;
  db_RegenerateInviteCode : Z → option string;
  db_GetRoomMessages : Z → Z → Z → option (list Message_) }.

(** The calls made on the database, in program order.  A [Q] call runs
    [SELECT] statements only; a [Do] call runs an [INSERT], [UPDATE] or
    [DELETE] ([AuthenticateUser] updates the user's [last_seen]). *)
Inductive DBCall :=
  | DoAuthenticateUser (username password : string)
  | DoCreateUser (username password : string)
  | DoAddUserToDefaultHall (userID : Z)
  | QGetUserByUsername (username : string)
  | QIsUserInHall (userID hallID : Z)
  | QGetRoomByID (roomID : Z)
  | QGetRoomByName (hallID : Z) (name : string)
  | QGetHallByID (hallID : Z)
  | QGetHallRooms (hallID : Z)
  | DoCreateHall (name : string) (ownerID : Z)
  | DoCreateRoom (hallID : Z) (name : bytes)
  | DoDeleteRoom (roomID : Z)
  | DoDeleteHall (hallID : Z)
  | DoRegenerateInviteCode (hallID : Z)
  | QGetRoomMessages (roomID limit offset : Z).

Definition changes_database (call : DBCall) : bool :=
  match call with
  | QGetUserByUsername _ | QIsUserInHall _ _ | QGetRoomByID _ | QGetRoomByName _ _
  | QGetHallByID _ | QGetHallRooms _ | QGetRoomMessages _ _ _ => false
  | _ => true
  end.



(** The [limit] and [offset] of [handleMessages]; the argument is the query
    parameter, empty when absent. *)
Definition messages_limit (limitStr : string) : Z :=
  if String.eqb limitStr "" then 50
  else
    match Atoi limitStr with
    | Some parsedLimit =>
        if (0 <? parsedLimit)%Z && (parsedLimit <=? 100)%Z then parsedLimit else 50
    | None => 50
    end.

Definition messages_offset (offsetStr : string) : Z :=
  if String.eqb offsetStr "" then 0
  else
    match Atoi offsetStr with
    | Some parsedOffset => if (0 <=? parsedOffset)%Z then parsedOffset else 0
    | None => 0
    end.

(** [handleMessages]; [url_path] is [r.URL.Path]. *)
Definition handleMessages (db : DB) (method : string) (session : option AuthSession)
    (url_path limitStr offsetStr : string) : Response * list DBCall :=
  if negb (String.eqb method "GET") then
    (Error StatusMethodNotAllowed "Method not allowed", [])
  else
    match session with
    | None => (Error StatusUnauthorized "Unauthorized", [])
    | Some sess =>
        match Atoi (TrimPrefix url_path "/api/messages/") with
        | None => (Error StatusBadRequest "Invalid room ID", [])
        | Some roomID =>
            let q1 := [QGetRoomByID roomID] in
            match db_GetRoomByID db roomID with
            | None => (Error StatusNotFound "Room not found", q1)
            | Some room =>
                let uid := UserID (identity sess) in
                let q2 := q1 ++ [QIsUserInHall uid (room_HallID room)] in
                match db_IsUserInHall db uid (room_HallID room) with
                | Some true =>
                    let limit := messages_limit limitStr in
                    let offset := messages_offset offsetStr in
                    let q3 := q2 ++ [QGetRoomMessages roomID limit offset] in
                    match db_GetRoomMessages db roomID limit offset with
                    | None =>
                        (Error StatusInternalServerError "Failed to fetch messages", q3)
                    | Some messages => (Respond (PayloadMessages messages), q3)
                    end
                | _ => (Error StatusForbidden "Access denied", q2)
                end
            end
        end
    end.

Record DeleteRoomRequest := mkDeleteRoomRequest {
  dr_RoomID : Z; dr_RoomName : string; dr_HallID : Z }.

(** The end of [handleDeleteRoom] and of [handleDeleteRoomByID], from the
    looked-up room on: the owner check and the deletion of [roomID]. *)
Definition delete_room_checked (db : DB) (sess : AuthSession) (q : list DBCall)
    (room : option Room) (roomID : Z) : Response * list DBCall :=
  match room with
  | None => (Error StatusNotFound "Room not found", q)
  | Some room =>
      let q1 := q ++ [QGetHallByID (room_HallID room)] in
      match db_GetHallByID db (room_HallID room) with
      | None => (Error StatusNotFound "Hall not found", q1)
      | Some hall =>
          if negb (hall_OwnerID hall =? UserID (identity sess))%Z then
            (Error StatusForbidden "Only hall owner can delete rooms", q1)
          else
            let q2 := q1 ++ [DoDeleteRoom roomID] in
            if db_DeleteRoom db roomID
            then (Respond (PayloadStatus "room deleted"), q2)
            else (Error StatusInternalServerError "Failed to delete room", q2)
      end
  end.

(** [handleDeleteRoom]: the room is named by its id, or by hall and name;
    the deletion is of [req.RoomID] in both cases. *)
Definition handleDeleteRoom (db : DB) (method : string) (session : option AuthSession)
    (body : option DeleteRoomRequest) : Response * list DBCall :=
  if negb (String.eqb method "POST") then
    (Error StatusMethodNotAllowed "Method not allowed", [])
  else
    match session, body with
    | None, _ => (Error StatusUnauthorized "Unauthorized", [])
    | Some _, None => (Error StatusBadRequest "Invalid JSON", [])
    | Some sess, Some req =>
        if negb (dr_RoomID req =? 0)%Z then
          delete_room_checked db sess [QGetRoomByID (dr_RoomID req)]
            (db_GetRoomByID db (dr_RoomID req)) (dr_RoomID req)
        else if negb (String.eqb (dr_RoomName req) "") && negb (dr_HallID req =? 0)%Z then
          delete_room_checked db sess [QGetRoomByName (dr_HallID req) (dr_RoomName req)]
            (db_GetRoomByName db (dr_HallID req) (dr_RoomName req)) (dr_RoomID req)
        else
          (Error StatusBadRequest "Either room_id or (room_name + hall_id) required", [])
    end.

(** [handleDeleteRoomByID]. *)
Definition handleDeleteRoomByID (db : DB) (method : string) (session : option AuthSession)
    (roomIDStr : string) : Response * list DBCall :=
  if negb (String.eqb method "POST") then
    (Error StatusMethodNotAllowed "Method not allowed", [])
  else
    match session with
    | None => (Error StatusUnauthorized "Unauthorized", [])
    | Some sess =>
        match Atoi roomIDStr with
        | None => (Error StatusBadRequest "Invalid room ID", [])
        | Some roomID =>
            delete_room_checked db sess [QGetRoomByID roomID]
              (db_GetRoomByID db roomID) roomID
        end
    end.

(** [handleHallWithID]: [/api/halls/{hall_id}/{action}]. *)
Definition handleHallWithID (db : DB) (method : string) (session : option AuthSession)
    (url_path : string) : Response * list DBCall :=
  match session with
  | None => (Error StatusUnauthorized "Unauthorized", [])
  | Some sess =>
      match split_slash (TrimPrefix url_path "/api/halls/") with
      | part0 :: action :: _ =>
          match Atoi part0 with
          | None => (Error StatusBadRequest "Invalid hall ID", [])
          | Some hallID =>
              let q1 := [QGetHallByID hallID] in
              match db_GetHallByID db hallID with
              | None => (Error StatusNotFound "Hall not found", q1)
              | Some hall =>
                  if negb (hall_OwnerID hall =? UserID (identity sess))%Z then
                    (Error StatusForbidden "Only hall owner can perform admin actions", q1)
                  else if String.eqb action "regenerate-invite" then
                    if negb (String.eqb method "POST") then
                      (Error StatusMethodNotAllowed "Method not allowed", q1)
                    else
                      match db_RegenerateInviteCode db hallID with
                      | None =>
                          (Error StatusInternalServerError "Failed to regenerate invite code",
                           q1 ++ [DoRegenerateInviteCode hallID])
                      | Some newCode =>
                          (Respond (PayloadInviteCode newCode),
                           q1 ++ [DoRegenerateInviteCode hallID])
                      end
                  else if String.eqb action "delete" then
                    if negb (String.eqb method "POST") then
                      (Error StatusMethodNotAllowed "Method not allowed", q1)
                    else if String.eqb (hall_Name hall) "HKCLB" then
                      (Error StatusForbidden "Cannot delete default hall", q1)
                    else if db_DeleteHall db hallID then
                      (Respond (PayloadStatus "hall deleted"), q1 ++ [DoDeleteHall hallID])
                    else
                      (Error StatusInternalServerError "Failed to delete hall",
                       q1 ++ [DoDeleteHall hallID])
                  else (Error StatusNotFound "Unknown action", q1)
              end
          end
      | _ => (Error StatusBadRequest "Invalid URL format", [])
      end
  end.

(** ** Tokens and invite codes *)

(** [hex.EncodeToString]. *)
Definition hextable : string := "0123456789abcdef".

Definition hex_digit (n : N) : ascii :=
  default "0"%char (String.get (N.to_nat n) hextable).

Fixpoint EncodeToString (src : bytes) : string :=
  match src with
  | [] => EmptyString
  | v :: rest =>
      String (hex_digit (N.shiftr (Byte.to_N v) 4))
        (String (hex_digit (N.land (Byte.to_N v) 15)) (EncodeToString rest))
  end.

(** [make([]byte, n)]. *)
Definition make_bytes (n : nat) : bytes := replicate n Byte.x00.

(** [rand.Read(b)], which is [io.ReadFull] on the random source: [b] is
    filled whole with the next bytes of the source, or the call fails.
    [random] is what the source has to give ([None]: reading it fails). *)
Definition rand_Read (random : option bytes) (b : bytes) : option bytes :=
  source ← random;
  if decide (length b ≤ length source) then Some (take (length b) source) else None.

(** [generateToken] ([auth.go]) and [generateInviteCode] ([Database]). *)
Definition generateToken (random : option bytes) : option string :=
  bytes ← rand_Read random (make_bytes 32);
  Some (EncodeToString bytes).

Definition generateInviteCode (random : option bytes) : option string :=
  bytes ← rand_Read random (make_bytes 8);
  Some (EncodeToString bytes).

(** ** Logging in and registering *)

Record Credentials := mkCredentials { cred_Username : string; cred_Password : string }.

(** [handleLogin]; [random], [now1] and [now2] are what [CreateSession]
    reads from the random source and from the clock. *)
Definition handleLogin (db : DB) (method : string) (body : option Credentials)
    (random : option bytes) (now1 now2 : Z) (am : AuthManager)
    : Response * list DBCall * AuthManager :=
  if negb (String.eqb method "POST") then
    (Error StatusMethodNotAllowed "Method not allowed", [], am)
  else
    match body with
    | None => (Error StatusBadRequest "Invalid JSON", [], am)
    | Some req =>
        let q1 := [DoAuthenticateUser (cred_Username req) (cred_Password req)] in
        match db_AuthenticateUser db (cred_Username req) (cred_Password req) with
        | None => (Error StatusUnauthorized "Invalid credentials", q1, am)
        | Some user =>
            match CreateSession (generateToken random) now1 now2 user am with
            | (None, am') =>
                (Error StatusInternalServerError "Failed to create session", q1, am')
            | (Some session, am') =>
                (Respond (PayloadLogin user (Token session)), q1, am')
            end
        end
    end.

(** [handleRegister]. *)
Definition handleRegister (db : DB) (method : string) (body : option Credentials)
    (random : option bytes) (now1 now2 : Z) (am : AuthManager)
    : Response * list DBCall * AuthManager :=
  if negb (String.eqb method "POST") then
    (Error StatusMethodNotAllowed "Method not allowed", [], am)
  else
    match body with
    | None => (Error StatusBadRequest "Invalid JSON", [], am)
    | Some req =>
        if String.eqb (cred_Username req) "" || String.eqb (cred_Password req) "" then
          (Error StatusBadRequest "Username and password required", [], am)
        else
          let q1 := [DoCreateUser (cred_Username req) (cred_Password req)] in
          match db_CreateUser db (cred_Username req) (cred_Password req) with
          | inl UniqueConstraint => (Error StatusConflict "Username already exists", q1, am)
          | inl OtherError => (Error StatusInternalServerError "Failed to create user", q1, am)
          | inr user =>
              (* the result of [AddUserToDefaultHall] is only logged *)
              let q2 := q1 ++ [DoAddUserToDefaultHall (user_ID user)] in
              match CreateSession (generateToken random) now1 now2 user am with
              | (None, am') =>
                  (Error StatusInternalServerError "Failed to create session", q2, am')
              | (Some session, am') =>
                  (Respond (PayloadLogin user (Token session)), q2, am')
              end
          end
    end.

(** ** Halls *)


(** [handleDeleteHall]; [body] is the decoded [hall_id]. *)
Definition handleDeleteHall (db : DB) (method : string) (session : option AuthSession)
    (body : option Z) : Response * list DBCall :=
  if negb (String.eqb method "POST") then
    (Error StatusMethodNotAllowed "Method not allowed", [])
  else
    match session, body with
    | None, _ => (Error StatusUnauthorized "Unauthorized", [])
    | Some _, None => (Error StatusBadRequest "Invalid JSON", [])
    | Some sess, Some hallID =>
        let q1 := [QGetHallByID hallID] in
        match db_GetHallByID db hallID with
        | None => (Error StatusNotFound "Hall not found", q1)
        | Some hall =>
            if negb (hall_OwnerID hall =? UserID (identity sess))%Z then
              (Error StatusForbidden "Only hall owner can delete hall", q1)
            else if String.eqb (hall_Name hall) "HKCLB" then
              (Error StatusForbidden "Cannot delete default hall", q1)
            else if db_DeleteHall db hallID then
              (Respond (PayloadStatus "hall deleted"), q1 ++ [DoDeleteHall hallID])
            else
              (Error StatusInternalServerError "Failed to delete hall",
               q1 ++ [DoDeleteHall hallID])
        end
    end.

Record GiveAdminRequest := mkGiveAdminRequest { ga_Username : string; ga_HallID : Z }.

(** [handleGiveAdmin]. *)
Definition handleGiveAdmin (db : DB) (method : string) (session : option AuthSession)
    (body : option GiveAdminRequest) : Response * list DBCall :=
  if negb (String.eqb method "POST") then
    (Error StatusMethodNotAllowed "Method not allowed", [])
  else
    match session, body with
    | None, _ => (Error StatusUnauthorized "Unauthorized", [])
    | Some _, None => (Error StatusBadRequest "Invalid JSON", [])
    | Some sess, Some req =>
        let q1 := [QGetHallByID (ga_HallID req)] in
        match db_GetHallByID db (ga_HallID req) with
        | None => (Error StatusNotFound "Hall not found", q1)
        | Some hall =>
            if negb (hall_OwnerID hall =? UserID (identity sess))%Z then
              (Error StatusForbidden "Only hall owner can give admin rights", q1)
            else
              let q2 := q1 ++ [QGetUserByUsername (ga_Username req)] in
              match db_GetUserByUsername db (ga_Username req) with
              | None => (Error StatusNotFound "User not found", q2)
              | Some targetUser =>
                  let q3 := q2 ++ [QIsUserInHall (user_ID targetUser) (ga_HallID req)] in
                  match db_IsUserInHall db (user_ID targetUser) (ga_HallID req) with
                  | Some true =>
                      (Respond (PayloadStatusMessage
                                  "Admin rights feature not fully implemented yet"
                                  "This would grant admin rights in a full implementation"),
                       q3)
                  | _ => (Error StatusBadRequest "User is not a member of this hall", q3)
                  end
              end
        end
    end.

(** ** [/api/rooms/] *)

(** [handleRooms]. *)
Definition handleRooms (db : DB) (method : string) (session : option AuthSession)
    (url_path : string) : Response * list DBCall :=
  if negb (String.eqb method "GET") then
    (Error StatusMethodNotAllowed "Method not allowed", [])
  else
    match session with
    | None => (Error StatusUnauthorized "Unauthorized", [])
    | Some sess =>
        match Atoi (TrimPrefix url_path "/api/rooms/") with
        | None => (Error StatusBadRequest "Invalid hall ID", [])
        | Some hallID =>
            let uid := UserID (identity sess) in
            let q1 := [QIsUserInHall uid hallID] in
            match db_IsUserInHall db uid hallID with
            | Some true =>
                match db_GetHallRooms db hallID with
                | None =>
                    (Error StatusInternalServerError "Failed to fetch rooms",
                     q1 ++ [QGetHallRooms hallID])
                | Some rooms => (Respond (PayloadRooms rooms), q1 ++ [QGetHallRooms hallID])
                end
            | _ => (Error StatusForbidden "Access denied", q1)
            end
        end
    end.

(** [handleRoomsWithID]: [/api/rooms/{hall_id}] or
    [/api/rooms/{room_id}/delete]. *)
Definition handleRoomsWithID (db : DB) (method : string) (session : option AuthSession)
    (url_path : string) : Response * list DBCall :=
  match session with
  | None => (Error StatusUnauthorized "Unauthorized", [])
  | Some _ =>
      match split_slash (TrimPrefix url_path "/api/rooms/") with
      | [_] => handleRooms db method session url_path
      | [part0; part1] =>
          if String.eqb part1 "delete"
          then handleDeleteRoomByID db method session part0
          else (Error StatusNotFound "Invalid URL format", [])
      | _ => (Error StatusNotFound "Invalid URL format", [])
      end
  end.

(** ** [GetRoomMessages] ([Database]) *)

(** Indexing and assigning on a slice; [None] is the panic for an index
    out of range. *)
Definition slice_get {A} (l : list A) (i : Z) : option A :=
  if (i <? 0)%Z then None else l !! Z.to_nat i.

Definition slice_set {A} (l : list A) (i : Z) (x : A) : option (list A) :=
  if (0 <=? i)%Z && (i <? Z.of_nat (length l))%Z
  then Some (<[Z.to_nat i := x]> l) else None.

(** The loop
    [for i, j := 0, len(messages)-1; i < j; i, j = i+1, j-1 { messages[i], messages[j] = messages[j], messages[i] }]
    from the indices [i] and [j] on; [None] when the fuel runs out or an
    index is out of range. *)
Fixpoint reverse_loop {A} (fuel : nat) (i j : Z) (messages : list A) : option (list A) :=
  if (i <? j)%Z then
    match fuel with
    | O => None
    | S fuel' =>
        mj ← slice_get messages j;
        mi ← slice_get messages i;
        messages1 ← slice_set messages i mj;
        messages2 ← slice_set messages1 j mi;
        reverse_loop fuel' (i + 1) (j - 1) messages2
    end
  else Some messages.

(** The loop [for rows.Next()]: a row is [None] when [Scan] fails on it. *)
Fixpoint scan_rows (rows : list (option Message_)) (messages : list Message_)
    : option (list Message_) :=
  match rows with
  | [] => Some messages
  | row :: rest => message ← row; scan_rows rest (messages ++ [message])
  end.

(** [GetRoomMessages]; [query] is what the [SELECT] gives ([None]: an
    error), newest message first. *)
Definition GetRoomMessages (query : option (list (option Message_)))
    : option (list Message_) :=
  rows ← query;
  messages ← scan_rows rows [];
  reverse_loop (length messages) 0 (Z.of_nat (length messages) - 1) messages.

(** ** Scenarios for the sessions and the handlers *)

(** Alice has logged in at time 5 and holds the token "t1". *)
Definition one_session : AuthManager :=
  snd (CreateSession (Some "t1"%string) 5 6 (mkUser 1 "alice") NewAuthManager).

Definition session_t1 : AuthSession :=
  {| Token := "t1"; identity := {| UserID := 1; Username := "alice" |};
     CreatedAt := 5; ExpiresAt := 6 + 24 * Hour |}.

(** A database in which every user is in every hall, user 1 owns every
    hall, every room looked up by id is in hall 1, and the room found by
    hall and name has id 42; every password is right and every user name is
    free, and adding a user to the default hall fails. *)
Definition db_ok : DB :=
  {| db_AuthenticateUser := λ u _, Some {| user_ID := 1; user_Username := u |};
     db_CreateUser := λ u _, inr {| user_ID := 1; user_Username := u |};
     db_AddUserToDefaultHall := λ _, false;
     db_GetUserByUsername := λ u, Some {| user_ID := 2; user_Username := u |};
     db_IsUserInHall := λ _ _, Some true;
     db_GetRoomByID := λ r, Some {| room_ID := r; room_HallID := 1; room_Name := "#general" |};
     db_GetRoomByName := λ h n, Some {| room_ID := 42; room_HallID := h; room_Name := n |};
     db_GetHallByID := λ h,
       Some {| hall_ID := h; hall_Name := "Lobby"; hall_InviteCode := "inv";
               hall_OwnerID := 1 |};
     db_GetHallRooms := λ _, Some [];
     db_CreateHall := λ n o,
       Some {| hall_ID := 4; hall_Name := n; hall_InviteCode := "inv"; hall_OwnerID := o |};
     db_CreateRoom := λ h n,
       inr {| room_ID := 9; room_HallID := h; room_Name := "#general-chat" |};
     db_DeleteRoom := λ _, true;
     db_DeleteHall := λ _, true;
     db_RegenerateInviteCode := λ _, Some "new"%string;
     db_GetRoomMessages := λ _ _ _, Some [] |}.

(** ** Notions used in the statements about tokens and messages *)

(** The value of a lower-case hexadecimal digit, and the bytes a string of
    such digits stands for. *)
Definition fromHexChar (c : ascii) : option N :=
  let n := N_of_ascii c in
  if (48 <=? n)%N && (n <=? 57)%N then Some (n - 48)%N
  else if (97 <=? n)%N && (n <=? 102)%N then Some (n - 97 + 10)%N
  else None.

Fixpoint DecodeString (s : string) : option bytes :=
  match s with
  | EmptyString => Some []
  | String _ EmptyString => None
  | String hi (String lo rest) =>
      a ← fromHexChar hi;
      b ← fromHexChar lo;
      v ← Byte.of_N (16 * a + b);
      (v ::.) <$> DecodeString rest
  end.

(** Newest first, and oldest first. *)
Definition newest_first (messages : list Message_) : Prop :=
  ∀ i j mi mj, i < j → messages !! i = Some mi → messages !! j = Some mj →
    (msg_CreatedAt mj ≤ msg_CreatedAt mi)%Z.

Definition oldest_first (messages : list Message_) : Prop :=
  ∀ i j mi mj, i < j → messages !! i = Some mi → messages !! j = Some mj →
    (msg_CreatedAt mi ≤ msg_CreatedAt mj)%Z.

(** The stored message with id [id], made at time [t]; the 32 bytes
    00 01 .. 1f and the token made of them. *)
Definition message_at (id t : Z) : Message_ :=
  {| msg_ID := id; msg_RoomID := 7; msg_UserID := 1; msg_Username := "alice";
     msg_Content := "hi"; msg_CreatedAt := t |}.

Definition random32 : bytes :=
  Eval vm_compute in
    omap (λ n, Byte.of_N (N.of_nat n)) (seq 0 32).

Definition token32 : string := Eval vm_compute in EncodeToString random32.

(** Alice has logged in at time 5 and was given [token32]. *)
Definition logged_in : AuthManager :=
  snd (handleLogin db_ok "POST" (Some {| cred_Username := "alice"; cred_Password := "pw" |})
         (Some random32) 5 6 NewAuthManager).

(** * Properties of the hub

    ** Cutting a client out of a slice *)

Section list_cut.
Implicit Types (c : ptr) (l : list ptr).

Lemma index_of_None c l : index_of c l = None ↔ c ∉ l.
Proof.
  unfold index_of. rewrite fmap_None, list_find_None, Forall_forall.
  split; [intros H Hin; by apply (H c) | intros H x Hx ->; done].
Qed.

Lemma index_of_Some c l i : index_of c l = Some i → l !! i = Some c.
Proof.
  unfold index_of. intros H. apply fmap_Some in H as [[j x] [H ->]].
  apply list_find_Some in H as (H & -> & _). done.
Qed.

Lemma cut_split c l i :
  l !! i = Some c → l = take i l ++ c :: drop (S i) l.
Proof. intros H. by rewrite take_drop_middle. Qed.

Lemma cut_NoDup c l i :
  NoDup l → l !! i = Some c → NoDup (take i l ++ drop (S i) l).
Proof.
  intros Hnd Hi. rewrite (cut_split c l i Hi) in Hnd.
  apply NoDup_app in Hnd as (H1 & H2 & H3). apply NoDup_cons in H3 as [H3 H4].
  apply NoDup_app. split_and!; [done | | done].
  intros x Hx Hx'. apply (H2 x Hx). by right.
Qed.

Lemma cut_elem_of c l i x :
  NoDup l → l !! i = Some c →
  x ∈ take i l ++ drop (S i) l ↔ x ∈ l ∧ x ≠ c.
Proof.
  intros Hnd Hi. rewrite (cut_split c l i Hi) in Hnd.
  rewrite (cut_split c l i Hi) at 3.
  apply NoDup_app in Hnd as (H1 & H2 & H3). apply NoDup_cons in H3 as [H3 H4].
  rewrite !elem_of_app, elem_of_cons. split.
  - intros [Hx | Hx]; (split; [tauto |]); intros ->.
    + apply (H2 c Hx). by left.
    + done.
  - intros [[Hx | [-> | Hx]] Hne]; tauto.
Qed.
End list_cut.

(** ** Effect of [removeClientFromRoom] and [addClientToRoom] *)

Lemma members_lookup s r l : rooms s !! r = Some l → members s r = l.
Proof. unfold members. by intros ->. Qed.

Lemma members_nil s r : rooms s !! r = None → members s r = [].
Proof. unfold members. by intros ->. Qed.

Lemma removeClientFromRoom_effect c r s s' :
  hub_inv s → removeClientFromRoom c r s = Some s' →
  clients s' = clients s ∧
  (∀ r' c', c' ∈ members s' r' ↔ c' ∈ members s r' ∧ ¬ (r' = r ∧ c' = c)) ∧
  (∀ c' r', r' ∈ memberships s' c' ↔ r' ∈ memberships s c' ∧ ¬ (r' = r ∧ c' = c)) ∧
  (∀ c', send_of s' c' = send_of s c') ∧
  (∀ r', NoDup (members s' r')).
Proof.
  intros Hinv. unfold removeClientFromRoom.
  destruct (rooms s !! r) as [l|] eqn:Hr.
  - destruct (heap s !! c) as [cl|] eqn:Hc; simpl; [| done].
    intros [= <-]. simpl.
    pose proof (inv_nodup s Hinv r) as Hnd. rewrite (members_lookup _ _ _ Hr) in Hnd.
    assert (Hmem : ∀ r' c',
      c' ∈ default [] (match index_of c l with
                       | Some i => <[r:=take i l ++ drop (S i) l]> (rooms s)
                       | None => rooms s end !! r')
      ↔ c' ∈ members s r' ∧ ¬ (r' = r ∧ c' = c)).
    { intros r' c'. destruct (index_of c l) as [i|] eqn:Hi.
      - apply index_of_Some in Hi. destruct (decide (r' = r)) as [->|Hne].
        + rewrite lookup_insert_eq. simpl. rewrite (members_lookup _ _ _ Hr).
          rewrite (cut_elem_of c l i c' Hnd Hi). naive_solver.
        + rewrite lookup_insert_ne by done. unfold members. naive_solver.
      - apply index_of_None in Hi. unfold members.
        destruct (decide (r' = r)) as [->|Hne]; [| naive_solver].
        rewrite Hr. simpl. naive_solver. }
    split_and!; [done | exact Hmem | | |].
    + intros c' r'. unfold memberships. simpl.
      destruct (decide (c' = c)) as [->|Hne].
      * rewrite lookup_insert_eq, Hc. simpl. set_solver.
      * rewrite lookup_insert_ne by done. naive_solver.
    + intros c'. unfold send_of. simpl.
      destruct (decide (c' = c)) as [->|Hne].
      * by rewrite lookup_insert_eq, Hc.
      * by rewrite lookup_insert_ne.
    + intros r'. unfold members. simpl.
      destruct (index_of c l) as [i|] eqn:Hi; [| apply (inv_nodup s Hinv)].
      apply index_of_Some in Hi. destruct (decide (r' = r)) as [->|Hne].
      * rewrite lookup_insert_eq. simpl. by apply (cut_NoDup c).
      * rewrite lookup_insert_ne by done. apply (inv_nodup s Hinv).
  - intros [= <-]. split_and!; try done.
    + intros r' c'. split; [| tauto]. intros H. split; [done |].
      intros [-> ->]. rewrite (members_nil _ _ Hr) in H. by apply not_elem_of_nil in H.
    + intros c' r'. split; [| tauto]. intros H. split; [done |].
      intros [-> ->]. apply (inv_consistent s Hinv) in H.
      rewrite (members_nil _ _ Hr) in H. by apply not_elem_of_nil in H.
    + apply (inv_nodup s Hinv).
Qed.

Lemma removeClientFromRoom_inv c r s s' :
  hub_inv s → removeClientFromRoom c r s = Some s' → hub_inv s'.
Proof.
  intros Hinv H. destruct (removeClientFromRoom_effect c r s s' Hinv H)
    as (Hcl & Hmem & Hms & Hsend & Hnd).
  split.
  - done.
  - intros r' c'. rewrite Hmem, Hms, (inv_consistent s Hinv). done.
  - intros c'. rewrite Hcl, Hsend. apply (inv_live_open s Hinv).
  - intros c' ch. rewrite Hcl, Hsend. apply (inv_dead_closed s Hinv).
Qed.

Lemma addClientToRoom_effect c r s s' :
  hub_inv s → addClientToRoom c r s = Some s' →
  clients s' = clients s ∧
  (∀ r' c', c' ∈ members s' r' ↔ c' ∈ members s r' ∨ (r' = r ∧ c' = c)) ∧
  (∀ c' r', r' ∈ memberships s' c' ↔ r' ∈ memberships s c' ∨ (r' = r ∧ c' = c)) ∧
  (∀ c', send_of s' c' = send_of s c') ∧
  (∀ r', NoDup (members s' r')).
Proof.
  intros Hinv. unfold addClientToRoom.
  pose proof (inv_nodup s Hinv) as Hnd.
  pose proof (inv_consistent s Hinv) as Hcons.
  set (rooms1 := match rooms s !! r with
                 | Some _ => rooms s | None => <[r:=[]]> (rooms s) end).
  assert (H1 : ∀ r', default [] (rooms1 !! r') = members s r').
  { intros r'. unfold rooms1, members. destruct (rooms s !! r) eqn:Hr; [done |].
    destruct (decide (r' = r)) as [->|Hne].
    - by rewrite lookup_insert_eq, Hr.
    - by rewrite lookup_insert_ne. }
  rewrite H1. unfold members, memberships, send_of in *.
  destruct (decide (c ∈ default [] (rooms s !! r))) as [Hin|Hnin].
  - intros [= <-]. simpl. split_and!; try done.
    + intros r' c'. rewrite H1. naive_solver.
    + intros c' r'. split; [tauto |]. intros [H | [-> ->]]; [done |].
      by apply Hcons.
    + intros r'. rewrite H1. apply Hnd.
  - destruct (heap s !! c) as [cl|] eqn:Hc; simpl; [| done].
    intros [= <-]. simpl. split_and!; [done | | | |].
    + intros r' c'. destruct (decide (r' = r)) as [->|Hne].
      * rewrite lookup_insert_eq. simpl. rewrite elem_of_app, list_elem_of_singleton.
        naive_solver.
      * rewrite lookup_insert_ne, H1 by done. naive_solver.
    + intros c' r'. destruct (decide (c' = c)) as [->|Hne].
      * rewrite lookup_insert_eq, Hc. set_solver.
      * rewrite lookup_insert_ne by done. naive_solver.
    + intros c'. destruct (decide (c' = c)) as [->|Hne].
      * by rewrite lookup_insert_eq, Hc.
      * by rewrite lookup_insert_ne.
    + intros r'. destruct (decide (r' = r)) as [->|Hne].
      * rewrite lookup_insert_eq. simpl. apply NoDup_app. split_and!.
        -- apply Hnd.
        -- intros x Hx Hx'. apply list_elem_of_singleton in Hx' as ->. done.
        -- apply NoDup_singleton.
      * rewrite lookup_insert_ne, H1 by done. apply Hnd.
Qed.

Lemma addClientToRoom_inv c r s s' :
  hub_inv s → addClientToRoom c r s = Some s' → hub_inv s'.
Proof.
  intros Hinv H. destruct (addClientToRoom_effect c r s s' Hinv H)
    as (Hcl & Hmem & Hms & Hsend & Hnd).
  split.
  - done.
  - intros r' c'. rewrite Hmem, Hms, (inv_consistent s Hinv). done.
  - intros c'. rewrite Hcl, Hsend. apply (inv_live_open s Hinv).
  - intros c' ch. rewrite Hcl, Hsend. apply (inv_dead_closed s Hinv).
Qed.

(** ** Updating one client record *)

Lemma update_client_inv s c cl cl' cs' :
  hub_inv s → heap s !! c = Some cl →
  client_rooms cl' = client_rooms cl →
  (∀ c', c' ≠ c → (c' ∈ cs' ↔ c' ∈ clients s)) →
  (c ∈ cs' → closed (send cl') = false) →
  (c ∉ cs' → closed (send cl') = true) →
  hub_inv {| clients := cs'; rooms := rooms s; heap := <[c := cl']> (heap s) |}.
Proof.
  intros Hinv Hc Hrooms Hothers Hlive Hdead.
  assert (Hms : ∀ c0, memberships
    {| clients := cs'; rooms := rooms s; heap := <[c := cl']> (heap s) |} c0
    = memberships s c0).
  { intros c0. unfold memberships. simpl. destruct (decide (c0 = c)) as [->|Hne].
    - by rewrite lookup_insert_eq, Hc.
    - by rewrite lookup_insert_ne. }
  split.
  - apply (inv_nodup s Hinv).
  - intros r c0. rewrite Hms. apply (inv_consistent s Hinv).
  - intros c0 Hin. unfold send_of. simpl. destruct (decide (c0 = c)) as [->|Hne].
    + rewrite lookup_insert_eq. simpl. eauto.
    + rewrite lookup_insert_ne by done. apply (inv_live_open s Hinv). by apply Hothers.
  - intros c0 ch. unfold send_of. simpl. destruct (decide (c0 = c)) as [->|Hne].
    + rewrite lookup_insert_eq. simpl. intros [= <-].
      destruct (decide (c ∈ cs')); [by left | right; by apply Hdead].
    + rewrite lookup_insert_ne by done. intros H.
      destruct (inv_dead_closed s Hinv c0 ch H) as [Hin | Hcl]; [left | by right].
      by apply Hothers.
Qed.

(** A change that keeps the room set and the channel's [closed] flag. *)
Lemma update_client_same_inv s c cl cl' :
  hub_inv s → heap s !! c = Some cl →
  client_rooms cl' = client_rooms cl →
  closed (send cl') = closed (send cl) →
  hub_inv {| clients := clients s; rooms := rooms s; heap := <[c := cl']> (heap s) |}.
Proof.
  intros Hinv Hc Hrooms Hclosed.
  apply (update_client_inv s c cl cl'); try done.
  - intros Hin. rewrite Hclosed.
    destruct (inv_live_open s Hinv c Hin) as (ch & Hch & Hopen).
    unfold send_of in Hch. rewrite Hc in Hch. by injection Hch as <-.
  - intros Hnin. rewrite Hclosed.
    destruct (inv_dead_closed s Hinv c (send cl)) as [Hin | Hcl]; try done.
    unfold send_of. by rewrite Hc.
Qed.

(** Closing a live client's channel and deleting it from [clients]. *)
Lemma evict_client_inv s c cl ch :
  hub_inv s → heap s !! c = Some cl → closed ch = true →
  hub_inv {| clients := clients s ∖ {[c]}; rooms := rooms s;
             heap := <[c := set_send ch cl]> (heap s) |}.
Proof.
  intros Hinv Hc Hclosed.
  apply (update_client_inv s c cl (set_send ch cl)); try done.
  - intros c' Hne. set_solver.
  - set_solver.
Qed.

Lemma close_chan_closed ch ch' : close_chan ch = Some ch' → closed ch' = true ∧ buf ch' = buf ch.
Proof. unfold close_chan. destruct (closed ch); [done |]. by intros [= <-]. Qed.

Lemma close_chan_open ch : closed ch = false → close_chan ch = Some {| buf := buf ch; closed := true |}.
Proof. unfold close_chan. by intros ->. Qed.

(** ** Each step of the system keeps the invariant *)

Lemma NewWSManager_inv : hub_inv NewWSManager.
Proof.
  split.
  - intros r. unfold members. simpl. rewrite lookup_empty. apply NoDup_nil_2.
  - intros r c. unfold members, memberships. simpl. rewrite !lookup_empty. simpl.
    split; [by intros ?%not_elem_of_nil | set_solver].
  - intros c. simpl. set_solver.
  - intros c ch. unfold send_of. simpl. by rewrite lookup_empty.
Qed.

Lemma HandleConnection_eq sess now s :
  HandleConnection sess now s =
  Some {| clients := {[fresh (dom (heap s))]} ∪ clients s; rooms := rooms s;
          heap := <[fresh (dom (heap s)) := new_client sess now]> (heap s) |}.
Proof. unfold HandleConnection, register. simpl. by rewrite lookup_insert_eq. Qed.

Lemma fresh_not_in_heap s : heap s !! fresh (dom (heap s)) = None.
Proof. apply not_elem_of_dom. apply is_fresh. Qed.

Lemma HandleConnection_inv sess now s s' :
  hub_inv s → HandleConnection sess now s = Some s' → hub_inv s'.
Proof.
  intros Hinv. rewrite HandleConnection_eq. intros [= <-].
  pose proof (fresh_not_in_heap s) as Hfresh.
  set (c := fresh (dom (heap s))) in *.
  assert (Hms : ∀ c0, memberships
    {| clients := {[c]} ∪ clients s; rooms := rooms s;
       heap := <[c := new_client sess now]> (heap s) |} c0 = memberships s c0).
  { intros c0. unfold memberships. simpl. destruct (decide (c0 = c)) as [->|Hne].
    - by rewrite lookup_insert_eq, Hfresh.
    - by rewrite lookup_insert_ne. }
  split.
  - apply (inv_nodup s Hinv).
  - intros r c0. rewrite Hms. apply (inv_consistent s Hinv).
  - intros c0 Hin. simpl in Hin. unfold send_of. simpl.
    destruct (decide (c0 = c)) as [->|Hne].
    + rewrite lookup_insert_eq. simpl. eauto.
    + rewrite lookup_insert_ne by done. apply (inv_live_open s Hinv). set_solver.
  - intros c0 ch. unfold send_of. simpl. destruct (decide (c0 = c)) as [->|Hne].
    + intros _. left. set_solver.
    + rewrite lookup_insert_ne by done. intros H.
      destruct (inv_dead_closed s Hinv c0 ch H); [left; set_solver | by right].
Qed.

Lemma remove_from_rooms_inv c rs s s' :
  hub_inv s → remove_from_rooms c rs s = Some s' → hub_inv s'.
Proof.
  revert s. induction rs as [|r rs IH]; intros s Hinv; simpl.
  - by intros [= <-].
  - destruct (removeClientFromRoom c r s) as [s1|] eqn:H1; simpl; [| done].
    apply IH. by apply (removeClientFromRoom_inv c r s).
Qed.

Lemma unregister_inv c s s' :
  hub_inv s → unregister c s = Some s' → hub_inv s'.
Proof.
  intros Hinv. unfold unregister.
  destruct (heap s !! c) as [cl|] eqn:Hc; simpl; [| done].
  destruct (decide (c ∈ clients s)); [| by intros [= <-]].
  destruct (close_chan (send cl)) as [ch|] eqn:Hch; simpl; [| done].
  apply remove_from_rooms_inv. apply evict_client_inv; try done.
  by apply close_chan_closed in Hch as [? _].
Qed.

Lemma broadcast_loop_inv targets m s s' :
  hub_inv s → broadcast_loop targets m s = Some s' → hub_inv s'.
Proof.
  revert s. induction targets as [|c rest IH]; intros s Hinv; simpl.
  - by intros [= <-].
  - destruct (heap s !! c) as [cl|] eqn:Hc; simpl; [| done].
    unfold select_send. destruct (closed (send cl)) eqn:Hopen; [done |].
    destruct (decide _).
    + apply IH. by apply (update_client_same_inv s c cl).
    + rewrite (close_chan_open _ Hopen). simpl. apply IH.
      by apply evict_client_inv.
Qed.

Lemma broadcast_inv msg s s' :
  hub_inv s → broadcast msg s = Some s' → hub_inv s'.
Proof. apply broadcast_loop_inv. Qed.

Lemma health_loop_inv now cs s s' :
  hub_inv s → health_loop now cs s = Some s' → hub_inv s'.
Proof.
  revert s. induction cs as [|c rest IH]; intros s Hinv; simpl.
  - by intros [= <-].
  - destruct (heap s !! c) as [cl|] eqn:Hc; simpl; [| done].
    destruct (decide _); [| by apply IH].
    apply IH. by apply (update_client_same_inv s c cl).
Qed.

Lemma PongHandler_inv now c s s' :
  hub_inv s → PongHandler now c s = Some s' → hub_inv s'.
Proof.
  intros Hinv. unfold PongHandler.
  destruct (heap s !! c) as [cl|] eqn:Hc; simpl; [| done]. intros [= <-].
  by apply (update_client_same_inv s c cl).
Qed.

Lemma writePump_recv_inv c s s' :
  hub_inv s → writePump_recv c s = Some s' → hub_inv s'.
Proof.
  intros Hinv. unfold writePump_recv.
  destruct (heap s !! c) as [cl|] eqn:Hc; simpl; [| done].
  destruct (buf (send cl)) as [|m rest].
  - destruct (closed (send cl)); intros [= <-]; [| done].
    by apply (update_client_same_inv s c cl).
  - intros [= <-]. by apply (update_client_same_inv s c cl).
Qed.

Lemma handleMessage_inv env c msg s s' evs :
  hub_inv s → handleMessage env c msg s = Some (s', evs) → hub_inv s'.
Proof.
  intros Hinv. unfold handleMessage.
  destruct (String.eqb _ "join_room").
  { unfold handleJoinRoom. destruct (as_JoinRoomData _) as [jd|]; [| by intros [= <- _]].
    destruct (heap s !! c) as [cl|]; simpl; [| done].
    destruct (IsUserInHall _ _ _) as [[|]|]; try by intros [= <- _].
    destruct (GetRoomByID _ _) as [room|]; [| by intros [= <- _]].
    destruct (decide _); [| by intros [= <- _]].
    destruct (addClientToRoom _ _ _) as [s1|] eqn:H1; simpl; [| done].
    intros [= <- _]. by apply (addClientToRoom_inv _ _ _ _ Hinv H1). }
  destruct (String.eqb _ "leave_room").
  { unfold handleLeaveRoom. destruct (as_leave_room _) as [r|]; [| by intros [= <- _]].
    destruct (heap s !! c) as [cl|]; simpl; [| done].
    destruct (removeClientFromRoom _ _ _) as [s1|] eqn:H1; simpl; [| done].
    intros [= <- _]. by apply (removeClientFromRoom_inv _ _ _ _ Hinv H1). }
  destruct (String.eqb _ "send_message").
  { unfold handleSendMessage. destruct (as_SendMessageData _) as [sd|]; [| by intros [= <- _]].
    destruct (decide _); [by intros [= <- _] |].
    destruct (heap s !! c) as [cl|]; simpl; [| done].
    destruct (decide _); [| by intros [= <- _]].
    destruct (SaveMessage _ _ _ _); by intros [= <- _]. }
  destruct (String.eqb _ "ping"); [| by intros [= <- _]].
  destruct (heap s !! c) as [cl|] eqn:Hc; simpl; [| done]. intros [= <- _].
  by apply (update_client_same_inv s c cl).
Qed.

Lemma exec_inv cmd s s' : hub_inv s → exec cmd s = Some s' → hub_inv s'.
Proof.
  intros Hinv. destruct cmd as [sess now|c|msg|now|env c f|now c|c|ok c]; simpl.
  - by apply HandleConnection_inv.
  - by apply unregister_inv.
  - by apply broadcast_inv.
  - by apply health_loop_inv.
  - unfold readPump_iter. destruct (heap s !! c) as [cl|] eqn:Hc; simpl; [| done].
    destruct (ReadMessage cl f) as [| |msg]; simpl.
    + intros [= <-]. by apply (update_client_same_inv s c cl).
    + by intros [= <-].
    + destruct (handleMessage env c msg s) as [[s1 evs]|] eqn:H1; simpl; [| done].
      intros [= <-]. by apply (handleMessage_inv env c msg s s1 evs).
  - by apply PongHandler_inv.
  - by apply writePump_recv_inv.
  - unfold writePump_tick. destruct (heap s !! c) as [cl|] eqn:Hc; simpl; [| done].
    destruct ok; intros [= <-]; [done |]. by apply (update_client_same_inv s c cl).
Qed.

Lemma reachable_inv s : reachable s → hub_inv s.
Proof.
  induction 1 as [|s cmd s' _ IH Hexec]; [apply NewWSManager_inv |].
  by apply (exec_inv cmd s).
Qed.

Lemma exec_all_inv cmds s s' : hub_inv s → exec_all cmds s = Some s' → hub_inv s'.
Proof.
  revert s. induction cmds as [|cmd rest IH]; intros s Hinv; simpl.
  - by intros [= <-].
  - destruct (exec cmd s) as [s1|] eqn:H1; simpl; [| done].
    apply IH. by apply (exec_inv cmd s).
Qed.

Lemma exec_all_reachable cmds s s' :
  reachable s → exec_all cmds s = Some s' → reachable s'.
Proof.
  revert s. induction cmds as [|cmd rest IH]; intros s Hr; simpl.
  - by intros [= <-].
  - destruct (exec cmd s) as [s1|] eqn:H1; simpl; [| done].
    apply IH. by apply (reachable_step s cmd).
Qed.

(** ** Membership consistency and uniqueness *)

Lemma two_in_room_reachable : reachable two_in_room.
Proof.
  apply (exec_all_reachable two_in_room_cmds NewWSManager); [constructor |].
  vm_compute. reflexivity.
Qed.

Lemma room7_full_reachable : reachable room7_full.
Proof.
  apply (exec_all_reachable room7_full_cmds NewWSManager); [constructor |].
  vm_compute. reflexivity.
Qed.

(** C2: in every reachable state a connection is in a room's slice exactly
    when the room is in the connection's own room set, and the state after
    a join, a leave, an unregister or a broadcast (with its overflow
    evictions) applied to a reachable state is consistent again. *)
Theorem membership_consistency s :
  reachable s →
  (∀ R C, C ∈ members s R ↔ R ∈ memberships s C) ∧
  (∀ c r m s',
     addClientToRoom c r s = Some s' ∨ removeClientFromRoom c r s = Some s' ∨
     unregister c s = Some s' ∨ broadcast {| RoomID := r; Message := m |} s = Some s' →
     ∀ R C, C ∈ members s' R ↔ R ∈ memberships s' C).
Proof.
  intros Hr. pose proof (reachable_inv s Hr) as Hinv. split.
  - intros R C. apply (inv_consistent s Hinv).
  - intros c r m s' H. apply inv_consistent.
    destruct H as [H | [H | [H | H]]].
    + by apply (addClientToRoom_inv c r s).
    + by apply (removeClientFromRoom_inv c r s).
    + by apply (unregister_inv c s).
    + by apply (broadcast_inv _ s _ Hinv H).
Qed.

Lemma membership_consistency_witness :
  (∀ R C, C ∈ members two_in_room R ↔ R ∈ memberships two_in_room C) ∧
  (∀ c r m s',
     addClientToRoom c r two_in_room = Some s' ∨
     removeClientFromRoom c r two_in_room = Some s' ∨
     unregister c two_in_room = Some s' ∨
     broadcast {| RoomID := r; Message := m |} two_in_room = Some s' →
     ∀ R C, C ∈ members s' R ↔ R ∈ memberships s' C).
Proof.
  apply (membership_consistency two_in_room).
  apply (exec_all_reachable two_in_room_cmds NewWSManager); [constructor |].
  vm_compute. reflexivity.
Defined.

Lemma addClientToRoom_twice c r s s1 :
  addClientToRoom c r s = Some s1 → addClientToRoom c r s1 = Some s1.
Proof.
  unfold addClientToRoom at 1.
  set (rooms1 := match rooms s !! r with
                 | Some _ => rooms s | None => <[r:=[]]> (rooms s) end).
  intros H.
  assert (Hin : ∃ l, rooms s1 !! r = Some l ∧ c ∈ l).
  { destruct (decide (c ∈ default [] (rooms1 !! r))) as [Hin|Hnin].
    - injection H as <-. simpl. destruct (rooms1 !! r) as [l|] eqn:Hl; simpl in Hin.
      + eauto.
      + by apply not_elem_of_nil in Hin.
    - destruct (heap s !! c) as [cl|]; simpl in H; [| done]. injection H as <-.
      simpl. rewrite lookup_insert_eq. eexists. split; [done |].
      apply elem_of_app. right. by apply list_elem_of_singleton. }
  destruct Hin as (l & Hl & Hin). unfold addClientToRoom. cbv zeta.
  rewrite !Hl. simpl. rewrite decide_True by done. by destruct s1.
Qed.

(** C9: in every reachable state no room's slice lists a connection twice,
    and a second join of the same connection to the same room changes
    nothing. *)
Theorem join_unique s :
  reachable s →
  (∀ r, NoDup (members s r)) ∧
  (∀ c r s1, addClientToRoom c r s = Some s1 →
     addClientToRoom c r s1 = Some s1 ∧ NoDup (members s1 r) ∧ c ∈ members s1 r).
Proof.
  intros Hr. pose proof (reachable_inv s Hr) as Hinv. split.
  - apply (inv_nodup s Hinv).
  - intros c r s1 H. split_and!.
    + by apply (addClientToRoom_twice c r s).
    + apply inv_nodup. by apply (addClientToRoom_inv c r s).
    + apply (addClientToRoom_effect c r s s1 Hinv H). by right.
Qed.

Lemma join_unique_witness :
  (∀ r, NoDup (members two_in_room r)) ∧
  (∀ c r s1, addClientToRoom c r two_in_room = Some s1 →
     addClientToRoom c r s1 = Some s1 ∧ NoDup (members s1 r) ∧ c ∈ members s1 r).
Proof.
  apply (join_unique two_in_room).
  apply (exec_all_reachable two_in_room_cmds NewWSManager); [constructor |].
  vm_compute. reflexivity.
Defined.

(** ** Leave and Remove *)

Lemma set_client_rooms_id cl : set_client_rooms (client_rooms cl) cl = cl.
Proof. by destruct cl. Qed.

Lemma removeClientFromRoom_frame c r s s' :
  removeClientFromRoom c r s = Some s' →
  clients s' = clients s ∧ (∀ c', send_of s' c' = send_of s c') ∧
  dom (heap s') = dom (heap s).
Proof.
  unfold removeClientFromRoom. destruct (rooms s !! r); [| by intros [= <-]].
  destruct (heap s !! c) as [cl|] eqn:Hc; simpl; [| done]. intros [= <-]. simpl.
  split_and!; [done | |].
  - intros c'. unfold send_of. simpl. destruct (decide (c' = c)) as [->|Hne].
    + by rewrite lookup_insert_eq, Hc.
    + by rewrite lookup_insert_ne.
  - rewrite dom_insert_L. apply elem_of_dom_2 in Hc. set_solver.
Qed.

Lemma remove_from_rooms_frame c rs s s' :
  remove_from_rooms c rs s = Some s' →
  clients s' = clients s ∧ (∀ c', send_of s' c' = send_of s c') ∧
  dom (heap s') = dom (heap s).
Proof.
  revert s. induction rs as [|r rs IH]; intros s; simpl.
  - by intros [= <-].
  - destruct (removeClientFromRoom c r s) as [s1|] eqn:H1; simpl; [| done].
    intros H. apply IH in H as (-> & H2 & ->).
    apply removeClientFromRoom_frame in H1 as (-> & H3 & ->).
    split_and!; try done. intros c'. by rewrite H2, H3.
Qed.

(** The order in which [range client.rooms] visits the rooms does not
    matter. *)
Lemma removeClientFromRoom_comm c r1 r2 s :
  removeClientFromRoom c r1 s ≫= removeClientFromRoom c r2
  = removeClientFromRoom c r2 s ≫= removeClientFromRoom c r1.
Proof.
  destruct (decide (r1 = r2)) as [->|Hne]; [done |].
  unfold removeClientFromRoom.
  destruct (rooms s !! r1) as [l1|] eqn:H1, (rooms s !! r2) as [l2|] eqn:H2; simpl;
    rewrite ?H1, ?H2; try done.
  - destruct (heap s !! c) as [cl|] eqn:Hc; simpl; [| done].
    assert (∀ (l : list ptr) (rs : gmap Z (list ptr)) r r',
              r ≠ r' →
              match index_of c l with
              | Some i => <[r:=take i l ++ drop (S i) l]> rs
              | None => rs
              end !! r' = rs !! r') as Hkeep.
    { intros l rs r r' Hr. destruct (index_of c l); [| done]. by rewrite lookup_insert_ne. }
    rewrite !Hkeep, H1, H2 by done. simpl. rewrite !lookup_insert_eq. simpl.
    f_equal. f_equal.
    + destruct (index_of c l1), (index_of c l2); try done. by apply insert_insert_ne.
    + rewrite !insert_insert_eq. f_equal. unfold set_client_rooms. simpl. f_equal.
      set_solver.
  - destruct (heap s !! c) as [cl|] eqn:Hc; simpl; [| done].
    destruct (index_of c l1); simpl; rewrite ?lookup_insert_ne by done; by rewrite H2.
  - destruct (heap s !! c) as [cl|] eqn:Hc; simpl; [| done].
    destruct (index_of c l2); simpl; rewrite ?lookup_insert_ne by done; by rewrite H1.
Qed.

Lemma remove_from_rooms_perm c rs rs' s :
  rs ≡ₚ rs' → remove_from_rooms c rs s = remove_from_rooms c rs' s.
Proof.
  intros Hp. revert s. induction Hp as [|r rs rs' _ IH|r1 r2 rs|rs1 rs2 rs3 _ IH1 _ IH2];
    intros s; simpl.
  - done.
  - destruct (removeClientFromRoom c r s); simpl; [apply IH | done].
  - pose proof (removeClientFromRoom_comm c r2 r1 s) as H.
    destruct (removeClientFromRoom c r2 s) as [s2|], (removeClientFromRoom c r1 s) as [s1|];
      simpl in *; try done.
    + by rewrite H.
    + by rewrite H.
    + by rewrite <- H.
  - by rewrite IH1, IH2.
Qed.

Lemma unregister_twice c s s1 : unregister c s = Some s1 → unregister c s1 = Some s1.
Proof.
  unfold unregister at 1. destruct (heap s !! c) as [cl|] eqn:Hc; simpl; [| done].
  destruct (decide (c ∈ clients s)) as [Hin|Hnin].
  - destruct (close_chan (send cl)) as [ch|]; simpl; [| done].
    intros H. apply remove_from_rooms_frame in H as (Hcl & _ & Hdom).
    simpl in Hcl, Hdom. unfold unregister.
    assert (Hc1 : is_Some (heap s1 !! c)).
    { apply elem_of_dom. rewrite Hdom, dom_insert_L. set_solver. }
    destruct Hc1 as [cl1 ->]. simpl. rewrite decide_False; [done |].
    rewrite Hcl. set_solver.
  - intros [= <-]. unfold unregister. rewrite Hc. simpl. by rewrite decide_False.
Qed.

(** C7: a leave of a connection from a room it is not in changes nothing
    (room index, the connection's room set and its queue included), and a
    second unregister of a connection changes nothing and does not panic,
    so the queue is closed once. *)
Theorem leave_absent_remove_twice s c :
  reachable s → is_Some (heap s !! c) →
  (∀ r, c ∉ members s r → removeClientFromRoom c r s = Some s) ∧
  (∀ data r, as_leave_room data = Some r → c ∉ members s r →
     handleLeaveRoom c data s = Some (s, [])) ∧
  (∀ s1, unregister c s = Some s1 → unregister c s1 = Some s1).
Proof.
  intros Hr [cl Hc]. pose proof (reachable_inv s Hr) as Hinv.
  assert (Hleave : ∀ r, c ∉ members s r → removeClientFromRoom c r s = Some s);
    [| split_and!; [done | | apply unregister_twice]].
  - intros r Hnin. unfold removeClientFromRoom.
    destruct (rooms s !! r) as [l|] eqn:Hl; [| done].
    rewrite (members_lookup _ _ _ Hl) in Hnin.
    apply index_of_None in Hnin as Hidx. rewrite Hidx, Hc. simpl.
    assert (Hr' : r ∉ client_rooms cl).
    { intros Hin. assert (r ∈ memberships s c) as Hm by (unfold memberships; by rewrite Hc).
      apply (inv_consistent s Hinv) in Hm. rewrite (members_lookup _ _ _ Hl) in Hm. done. }
    assert (client_rooms cl ∖ {[r]} = client_rooms cl) as -> by set_solver.
    rewrite set_client_rooms_id, insert_id by done. by destruct s.
  - intros data r Hdata Hnin. unfold handleLeaveRoom. rewrite Hdata, Hc. simpl.
    by rewrite (Hleave r Hnin).
Qed.

Lemma leave_absent_remove_twice_witness :
  (∀ r, 1%positive ∉ members two_in_room r →
     removeClientFromRoom 1%positive r two_in_room = Some two_in_room) ∧
  (∀ data r, as_leave_room data = Some r → 1%positive ∉ members two_in_room r →
     handleLeaveRoom 1%positive data two_in_room = Some (two_in_room, [])) ∧
  (∀ s1, unregister 1%positive two_in_room = Some s1 →
     unregister 1%positive s1 = Some s1).
Proof.
  apply (leave_absent_remove_twice two_in_room 1%positive).
  - apply (exec_all_reachable two_in_room_cmds NewWSManager); [constructor |].
    vm_compute. reflexivity.
  - vm_compute. eauto.
Defined.

(** ** Closed queues *)

Lemma send_of_insert cs rs h c cl c' :
  send_of {| clients := cs; rooms := rs; heap := <[c := cl]> h |} c' =
  if decide (c' = c) then Some (send cl) else send <$> h !! c'.
Proof.
  unfold send_of. simpl. destruct (decide (c' = c)) as [->|Hne].
  - by rewrite lookup_insert_eq.
  - by rewrite lookup_insert_ne.
Qed.

Lemma send_of_insert_same s cs rs c cl cl' c' :
  heap s !! c = Some cl → send cl' = send cl →
  send_of {| clients := cs; rooms := rs; heap := <[c := cl']> (heap s) |} c' = send_of s c'.
Proof.
  intros Hc Hs. rewrite send_of_insert. unfold send_of. case_decide as Heq; [| done].
  subst c'. by rewrite Hc, Hs.
Qed.

Lemma addClientToRoom_frame c r s s' :
  addClientToRoom c r s = Some s' →
  clients s' = clients s ∧ (∀ c', send_of s' c' = send_of s c').
Proof.
  unfold addClientToRoom. destruct (decide _); [by intros [= <-] |].
  destruct (heap s !! c) as [cl|] eqn:Hc; simpl; [| done]. intros [= <-]. simpl.
  split; [done |]. intros c'. by apply (send_of_insert_same s _ _ c cl).
Qed.

Lemma handleMessage_frame env c msg s s' evs :
  handleMessage env c msg s = Some (s', evs) →
  clients s' = clients s ∧ (∀ c', send_of s' c' = send_of s c').
Proof.
  unfold handleMessage.
  destruct (String.eqb _ "join_room").
  { unfold handleJoinRoom. destruct (as_JoinRoomData _) as [jd|]; [| by intros [= <- _]].
    destruct (heap s !! c) as [cl|]; simpl; [| done].
    destruct (IsUserInHall _ _ _) as [[|]|]; try by intros [= <- _].
    destruct (GetRoomByID _ _) as [room|]; [| by intros [= <- _]].
    destruct (decide _); [| by intros [= <- _]].
    destruct (addClientToRoom _ _ _) as [s1|] eqn:H1; simpl; [| done].
    intros [= <- _]. by apply addClientToRoom_frame in H1. }
  destruct (String.eqb _ "leave_room").
  { unfold handleLeaveRoom. destruct (as_leave_room _) as [r|]; [| by intros [= <- _]].
    destruct (heap s !! c) as [cl|]; simpl; [| done].
    destruct (removeClientFromRoom _ _ _) as [s1|] eqn:H1; simpl; [| done].
    intros [= <- _]. apply removeClientFromRoom_frame in H1. tauto. }
  destruct (String.eqb _ "send_message").
  { unfold handleSendMessage. destruct (as_SendMessageData _) as [sd|]; [| by intros [= <- _]].
    destruct (decide _); [by intros [= <- _] |].
    destruct (heap s !! c) as [cl|]; simpl; [| done].
    destruct (decide _); [| by intros [= <- _]].
    destruct (SaveMessage _ _ _ _); by intros [= <- _]. }
  destruct (String.eqb _ "ping"); [| by intros [= <- _]].
  destruct (heap s !! c) as [cl|] eqn:Hc; simpl; [| done]. intros [= <- _]. simpl.
  split; [done |]. intros c'. by apply (send_of_insert_same s _ _ c cl).
Qed.

Lemma health_loop_frame now cs s s' :
  health_loop now cs s = Some s' →
  clients s' = clients s ∧ rooms s' = rooms s ∧
  (∀ c, send_of s' c = send_of s c) ∧ (∀ c, memberships s' c = memberships s c).
Proof.
  revert s. induction cs as [|c rest IH]; intros s; simpl.
  - by intros [= <-].
  - destruct (heap s !! c) as [cl|] eqn:Hc; simpl; [| done].
    destruct (decide _); [| by apply IH].
    intros H. apply IH in H as (-> & -> & H3 & H4). simpl.
    split_and!; try done.
    + intros c'. rewrite H3. by apply (send_of_insert_same s _ _ c cl).
    + intros c'. rewrite H4. unfold memberships. simpl.
      destruct (decide (c' = c)) as [->|Hne].
      * by rewrite lookup_insert_eq, Hc.
      * by rewrite lookup_insert_ne.
Qed.

(** A broadcast that returns has not touched any closed queue: a send on
    one would have panicked. *)
Lemma broadcast_loop_skips_closed targets m s s' c :
  is_closed s c → broadcast_loop targets m s = Some s' → send_of s' c = send_of s c.
Proof.
  revert s. induction targets as [|c0 rest IH]; intros s Hcl; simpl.
  - by intros [= <-].
  - destruct (heap s !! c0) as [cl|] eqn:Hc; simpl; [| done].
    destruct Hcl as (ch & Hch & Hclosed).
    assert (Hne : closed (send cl) = false → c ≠ c0).
    { intros Hopen ->. unfold send_of in Hch. rewrite Hc in Hch. simpl in Hch. congruence. }
    unfold select_send. destruct (closed (send cl)) eqn:Hopen; [done |].
    specialize (Hne eq_refl).
    assert (Hkeep : ∀ cs ch',
      send_of {| clients := cs; rooms := rooms s; heap := <[c0:=set_send ch' cl]> (heap s) |} c
      = send_of s c).
    { intros cs ch'. rewrite send_of_insert. by rewrite decide_False. }
    destruct (decide _).
    + intros H. apply IH in H; [by rewrite H, Hkeep |].
      exists ch. by rewrite Hkeep.
    + rewrite (close_chan_open _ Hopen). simpl.
      intros H. apply IH in H; [by rewrite H, Hkeep |].
      exists ch. by rewrite Hkeep.
Qed.

Lemma exec_keeps_closed cmd s s' c :
  is_closed s c → exec cmd s = Some s' → is_closed s' c.
Proof.
  intros Hcl. pose proof Hcl as (ch & Hch & Hclosed).
  destruct cmd as [sess now|c0|msg|now|env c0 f|now c0|c0|ok c0]; simpl.
  - rewrite HandleConnection_eq. intros [= <-]. exists ch. split; [| done].
    rewrite send_of_insert. rewrite decide_False; [done |].
    intros ->. unfold send_of in Hch. by rewrite fresh_not_in_heap in Hch.
  - unfold unregister. destruct (heap s !! c0) as [cl|] eqn:Hc; simpl; [| done].
    destruct (decide (c0 ∈ clients s)); [| by intros [= <-]].
    destruct (close_chan (send cl)) as [ch0|] eqn:Hclose; simpl; [| done].
    intros H. apply remove_from_rooms_frame in H as (_ & H & _).
    exists ch. rewrite H, send_of_insert. split; [| done].
    rewrite decide_False; [done |]. intros ->.
    unfold send_of in Hch. rewrite Hc in Hch. simpl in Hch. injection Hch as <-.
    unfold close_chan in Hclose. by rewrite Hclosed in Hclose.
  - intros H. apply (broadcast_loop_skips_closed _ _ _ _ c Hcl) in H.
    exists ch. by rewrite H.
  - intros H. apply health_loop_frame in H as (_ & _ & H & _). exists ch. by rewrite H.
  - unfold readPump_iter. destruct (heap s !! c0) as [cl|] eqn:Hc; simpl; [| done].
    destruct (ReadMessage cl f) as [| |msg]; simpl.
    + intros [= <-]. exists ch. by rewrite (send_of_insert_same s _ _ c0 cl).
    + intros [= <-]. by exists ch.
    + destruct (handleMessage env c0 msg s) as [[s1 evs]|] eqn:H1; simpl; [| done].
      intros [= <-]. apply handleMessage_frame in H1 as [_ H1]. exists ch. by rewrite H1.
  - unfold PongHandler. destruct (heap s !! c0) as [cl|] eqn:Hc; simpl; [| done].
    intros [= <-]. exists ch. by rewrite (send_of_insert_same s _ _ c0 cl).
  - unfold writePump_recv. destruct (heap s !! c0) as [cl|] eqn:Hc; simpl; [| done].
    destruct (buf (send cl)) as [|m rest] eqn:Hbuf.
    + destruct (closed (send cl)); intros [= <-]; [| by exists ch].
      exists ch. by rewrite (send_of_insert_same s _ _ c0 cl).
    + intros [= <-]. unfold is_closed. rewrite send_of_insert. case_decide as Heq.
      * subst c0. unfold send_of in Hch. rewrite Hc in Hch. simpl in Hch.
        injection Hch as <-. eexists. split; [done |]. done.
      * exists ch. done.
  - unfold writePump_tick. destruct (heap s !! c0) as [cl|] eqn:Hc; simpl; [| done].
    destruct ok; intros [= <-]; [by exists ch |].
    exists ch. by rewrite (send_of_insert_same s _ _ c0 cl).
Qed.

Lemma exec_all_keeps_closed cmds s s' c :
  is_closed s c → exec_all cmds s = Some s' → is_closed s' c.
Proof.
  revert s. induction cmds as [|cmd rest IH]; intros s Hcl; simpl.
  - by intros [= <-].
  - destruct (exec cmd s) as [s1|] eqn:H1; simpl; [| done].
    apply IH. by apply (exec_keeps_closed cmd s).
Qed.

Lemma unregister_closes c s s1 :
  hub_inv s → unregister c s = Some s1 → is_closed s1 c.
Proof.
  intros Hinv. unfold unregister.
  destruct (heap s !! c) as [cl|] eqn:Hc; simpl; [| done].
  destruct (decide (c ∈ clients s)) as [Hin|Hnin].
  - destruct (close_chan (send cl)) as [ch|] eqn:Hclose; simpl; [| done].
    intros H. apply remove_from_rooms_frame in H as (_ & H & _).
    exists ch. rewrite H, send_of_insert, decide_True by done.
    split; [done |]. by apply close_chan_closed in Hclose as [? _].
  - intros [= <-]. exists (send cl). assert (send_of s c = Some (send cl)) as Hs.
    { unfold send_of. by rewrite Hc. }
    split; [done |]. by destruct (inv_dead_closed s Hinv c _ Hs).
Qed.

(** ** Eviction by [unregister] *)

Lemma removeClientFromRoom_total c r s :
  is_Some (heap s !! c) → is_Some (removeClientFromRoom c r s).
Proof.
  intros [cl Hc]. unfold removeClientFromRoom.
  destruct (rooms s !! r); [| done]. rewrite Hc. simpl. eauto.
Qed.

Lemma remove_from_rooms_effect c rs s :
  hub_inv s → is_Some (heap s !! c) →
  ∃ s', remove_from_rooms c rs s = Some s' ∧ hub_inv s' ∧
    (∀ c' r', r' ∈ memberships s' c' ↔ r' ∈ memberships s c' ∧ ¬ (c' = c ∧ r' ∈ rs)).
Proof.
  revert s. induction rs as [|r rs IH]; intros s Hinv Hc; simpl.
  - exists s. split_and!; try done. intros c' r'. split; [| tauto].
    intros H. split; [done |]. intros [_ ?%not_elem_of_nil]. done.
  - destruct (removeClientFromRoom_total c r s Hc) as [s1 H1]. rewrite H1. simpl.
    pose proof (removeClientFromRoom_inv c r s s1 Hinv H1) as Hinv1.
    destruct (removeClientFromRoom_effect c r s s1 Hinv H1) as (_ & _ & Hms & _ & _).
    assert (Hc1 : is_Some (heap s1 !! c)).
    { apply removeClientFromRoom_frame in H1 as (_ & _ & Hdom).
      apply elem_of_dom. rewrite Hdom. by apply elem_of_dom. }
    destruct (IH s1 Hinv1 Hc1) as (s' & H' & Hinv' & Hms').
    exists s'. split_and!; try done.
    intros c' r'. rewrite Hms', Hms, elem_of_cons. naive_solver.
Qed.

Lemma unregister_evicts c s :
  hub_inv s → c ∈ clients s →
  ∃ s2, unregister c s = Some s2 ∧ hub_inv s2 ∧ (c ∉ clients s2) ∧
        (∀ r, c ∉ members s2 r) ∧ memberships s2 c = ∅ ∧ is_closed s2 c.
Proof.
  intros Hinv Hin.
  destruct (inv_live_open s Hinv c Hin) as (ch & Hch & Hopen).
  unfold send_of in Hch. destruct (heap s !! c) as [cl|] eqn:Hc; [| done].
  simpl in Hch. injection Hch as <-.
  set (s0 := {| clients := clients s ∖ {[c]}; rooms := rooms s;
                heap := <[c := set_send {| buf := buf (send cl); closed := true |} cl]> (heap s) |}).
  assert (Hinv0 : hub_inv s0) by (by apply evict_client_inv).
  assert (Hc0 : is_Some (heap s0 !! c)) by (simpl; rewrite lookup_insert_eq; eauto).
  destruct (remove_from_rooms_effect c (elements (client_rooms cl)) s0 Hinv0 Hc0)
    as (s2 & H2 & Hinv2 & Hms).
  assert (Hun : unregister c s = Some s2).
  { unfold unregister. rewrite Hc. simpl. rewrite decide_True by done.
    by rewrite (close_chan_open _ Hopen). }
  assert (Hempty : memberships s2 c = ∅).
  { apply leibniz_equiv. apply elem_of_equiv_empty. intros r Hr.
    apply Hms in Hr as [Hr Hnot]. apply Hnot. split; [done |].
    apply elem_of_elements. unfold memberships, s0 in Hr. simpl in Hr.
    by rewrite lookup_insert_eq in Hr. }
  exists s2. split_and!; try done.
  - apply remove_from_rooms_frame in H2 as (-> & _ & _). simpl. set_solver.
  - intros r Hr. apply (inv_consistent s2 Hinv2) in Hr. rewrite Hempty in Hr. set_solver.
  - by apply (unregister_closes c s).
Qed.

(** C5: once the unregister of a connection has been processed, whatever
    the system does next, a broadcast that the hub processes leaves the
    connection's queue as it was: nothing is enqueued onto it.  The queue is
    closed from then on; and when the connection was live at the unregister,
    it is in no room's slice after it. *)
Theorem no_broadcast_after_remove s c s1 cmds s2 msg s3 :
  reachable s → unregister c s = Some s1 →
  exec_all cmds s1 = Some s2 → broadcast msg s2 = Some s3 →
  send_of s3 c = send_of s2 c ∧ is_closed s2 c ∧
  (c ∈ clients s → ∀ r, c ∉ members s1 r).
Proof.
  intros Hr Hun Hrun Hb. pose proof (reachable_inv s Hr) as Hinv.
  assert (is_closed s2 c) as Hcl.
  { apply (exec_all_keeps_closed cmds s1); [| done].
    by apply (unregister_closes c s). }
  split_and!; [| done |].
  - by apply (broadcast_loop_skips_closed _ _ _ _ c Hcl) in Hb.
  - intros Hin. destruct (unregister_evicts c s Hinv Hin) as (s' & H' & _ & _ & H3 & _).
    rewrite Hun in H'. by injection H' as ->.
Qed.

Lemma no_broadcast_after_remove_witness :
  send_of bob_gone_sent 2%positive = send_of bob_gone_later 2%positive ∧
  is_closed bob_gone_later 2%positive ∧
  (2%positive ∈ clients two_in_room → ∀ r, 2%positive ∉ members bob_gone r).
Proof.
  apply (no_broadcast_after_remove two_in_room 2%positive bob_gone
           [CmdTick 5; CmdPong 6 1%positive] bob_gone_later
           {| RoomID := 7; Message := b "hi" |} bob_gone_sent).
  - apply (exec_all_reachable two_in_room_cmds NewWSManager); [constructor |].
    vm_compute. reflexivity.
  - vm_compute. reflexivity.
  - vm_compute. reflexivity.
  - vm_compute. reflexivity.
Defined.

Example bob_gone_sent_alice_got_it :
  buf <$> send_of bob_gone_sent 1%positive = Some [b "hi"] ∧
  buf <$> send_of bob_gone_sent 2%positive = Some [].
Proof. split; vm_compute; reflexivity. Qed.

(** ** The health sweep *)

Lemma set_conn_closed_twice cl : set_conn_closed (set_conn_closed cl) = set_conn_closed cl.
Proof. done. Qed.

Lemma swept_nil now c cl : swept now [] c cl = cl.
Proof. unfold swept. rewrite decide_False; [done |]. by intros [?%not_elem_of_nil _]. Qed.

Lemma swept_stale now cs c cl : c ∈ cs → stale now cl → swept now cs c cl = set_conn_closed cl.
Proof. intros. unfold swept. by rewrite decide_True. Qed.

Lemma swept_fresh now cs c cl : ¬ stale now cl → swept now cs c cl = cl.
Proof. intros. unfold swept. rewrite decide_False; [done | tauto]. Qed.

Lemma swept_ext now cs cs' c cl :
  (stale now cl → c ∈ cs ↔ c ∈ cs') → swept now cs c cl = swept now cs' c cl.
Proof. intros H. unfold swept. apply decide_ext. tauto. Qed.

Lemma health_loop_effect now cs s :
  (∀ c, c ∈ cs → is_Some (heap s !! c)) →
  ∃ s', health_loop now cs s = Some s' ∧
    ∀ c, heap s' !! c = swept now cs c <$> heap s !! c.
Proof.
  revert s. induction cs as [|c0 rest IH]; intros s Hheap.
  - exists s. split; [done |]. intros c. destruct (heap s !! c) as [cl|]; [| done].
    simpl. by rewrite swept_nil.
  - destruct (Hheap c0) as [cl0 Hc0]; [by left |].
    cbn [health_loop]. rewrite Hc0. simpl.
    fold (stale now cl0). destruct (decide (stale now cl0)) as [Hst|Hst].
    + edestruct (IH {| clients := clients s; rooms := rooms s;
                       heap := <[c0:=set_conn_closed cl0]> (heap s) |}) as (s' & H' & Heff).
      { intros c Hc. simpl. destruct (decide (c = c0)) as [->|Hne].
        - rewrite lookup_insert_eq. eauto.
        - rewrite lookup_insert_ne by done. apply Hheap. by right. }
      exists s'. split; [done |]. intros c. rewrite Heff. simpl.
      destruct (decide (c = c0)) as [->|Hne].
      * rewrite lookup_insert_eq, Hc0. simpl. f_equal.
        rewrite (swept_stale now (c0 :: rest)) by (done || by left).
        unfold swept. by destruct (decide _).
      * rewrite lookup_insert_ne by done. destruct (heap s !! c) as [cl|]; [| done].
        simpl. f_equal. apply swept_ext. rewrite elem_of_cons. naive_solver.
    + destruct (IH s) as (s' & H' & Heff).
      { intros c Hc. apply Hheap. by right. }
      exists s'. split; [done |]. intros c. rewrite Heff.
      destruct (heap s !! c) as [cl|] eqn:Hc; [| done].
      simpl. f_equal. apply swept_ext. rewrite elem_of_cons. intros Hs. split; [tauto |].
      intros [-> | Hin]; [| done]. rewrite Hc0 in Hc. injection Hc as <-. done.
Qed.

(** ** Properties of a client record that no step undoes *)

Section client_has.
Context (P : WSClient → Prop).
Context (P_send : ∀ ch cl, P cl → P (set_send ch cl)).
Context (P_rooms : ∀ rs cl, P cl → P (set_client_rooms rs cl)).
Context (P_ping : ∀ t cl, P cl → P (set_lastPing t cl)).
Context (P_conn : ∀ cl, P cl → P (set_conn_closed cl)).

Lemma client_has_insert s cs rs c c0 cl0 cl0' :
client_has P s c → heap s !! c0 = Some cl0 → (P cl0 → P cl0') →
client_has P {| clients := cs; rooms := rs; heap := <[c0 := cl0']> (heap s) |} c.
Proof.
intros (cl & Hc & HP) Hc0 Himp. unfold client_has. simpl.
destruct (decide (c = c0)) as [->|Hne].
- rewrite lookup_insert_eq. eexists. split; [done |]. apply Himp. congruence.
- rewrite lookup_insert_ne by done. eauto.
Qed.

Lemma client_has_frame s cs rs c :
client_has P s c → client_has P {| clients := cs; rooms := rs; heap := heap s |} c.
Proof. done. Qed.

Lemma removeClientFromRoom_has c0 r s s' c :
client_has P s c → removeClientFromRoom c0 r s = Some s' → client_has P s' c.
Proof using P_rooms.
intros H. unfold removeClientFromRoom. destruct (rooms s !! r); [| by intros [= <-]].
destruct (heap s !! c0) as [cl0|] eqn:Hc0; simpl; [| done]. intros [= <-].
apply (client_has_insert s _ _ c c0 cl0); auto.
Qed.

Lemma remove_from_rooms_has c0 rs s s' c :
client_has P s c → remove_from_rooms c0 rs s = Some s' → client_has P s' c.
Proof using P_rooms.
revert s. induction rs as [|r rs IH]; intros s H; simpl; [by intros [= <-] |].
destruct (removeClientFromRoom c0 r s) as [s1|] eqn:H1; simpl; [| done].
apply IH. by apply (removeClientFromRoom_has c0 r s).
Qed.

Lemma addClientToRoom_has c0 r s s' c :
client_has P s c → addClientToRoom c0 r s = Some s' → client_has P s' c.
Proof using P_rooms.
intros H. unfold addClientToRoom. destruct (decide _); [by intros [= <-] |].
destruct (heap s !! c0) as [cl0|] eqn:Hc0; simpl; [| done]. intros [= <-].
apply (client_has_insert s _ _ c c0 cl0); auto.
Qed.

Lemma broadcast_loop_has targets m s s' c :
client_has P s c → broadcast_loop targets m s = Some s' → client_has P s' c.
Proof using P_send.
revert s. induction targets as [|c0 rest IH]; intros s H; simpl; [by intros [= <-] |].
destruct (heap s !! c0) as [cl0|] eqn:Hc0; simpl; [| done].
destruct (select_send (send cl0) m) as [| |ch]; [done | |].
- destruct (close_chan (send cl0)) as [ch|]; simpl; [| done].
  apply IH. apply (client_has_insert s _ _ c c0 cl0); auto.
- apply IH. apply (client_has_insert s _ _ c c0 cl0); auto.
Qed.

Lemma health_loop_has now cs s s' c :
client_has P s c → health_loop now cs s = Some s' → client_has P s' c.
Proof using P_conn.
revert s. induction cs as [|c0 rest IH]; intros s H; simpl; [by intros [= <-] |].
destruct (heap s !! c0) as [cl0|] eqn:Hc0; simpl; [| done].
destruct (decide _); [| by apply IH].
apply IH. apply (client_has_insert s _ _ c c0 cl0); auto.
Qed.

Lemma handleMessage_has env c0 msg s s' evs c :
client_has P s c → handleMessage env c0 msg s = Some (s', evs) → client_has P s' c.
Proof using P_rooms P_ping.
intros H. unfold handleMessage.
destruct (String.eqb _ "join_room").
{ unfold handleJoinRoom. destruct (as_JoinRoomData _) as [jd|]; [| by intros [= <- _]].
  destruct (heap s !! c0) as [cl0|]; simpl; [| done].
  destruct (IsUserInHall _ _ _) as [[|]|]; try by intros [= <- _].
  destruct (GetRoomByID _ _) as [room|]; [| by intros [= <- _]].
  destruct (decide _); [| by intros [= <- _]].
  destruct (addClientToRoom _ _ _) as [s1|] eqn:H1; simpl; [| done].
  intros [= <- _]. by apply (addClientToRoom_has _ _ _ _ _ H H1). }
destruct (String.eqb _ "leave_room").
{ unfold handleLeaveRoom. destruct (as_leave_room _) as [r|]; [| by intros [= <- _]].
  destruct (heap s !! c0) as [cl0|]; simpl; [| done].
  destruct (removeClientFromRoom _ _ _) as [s1|] eqn:H1; simpl; [| done].
  intros [= <- _]. by apply (removeClientFromRoom_has _ _ _ _ _ H H1). }
destruct (String.eqb _ "send_message").
{ unfold handleSendMessage. destruct (as_SendMessageData _) as [sd|]; [| by intros [= <- _]].
  destruct (decide _); [by intros [= <- _] |].
  destruct (heap s !! c0) as [cl0|]; simpl; [| done].
  destruct (decide _); [| by intros [= <- _]].
  destruct (SaveMessage _ _ _ _); by intros [= <- _]. }
destruct (String.eqb _ "ping"); [| by intros [= <- _]].
destruct (heap s !! c0) as [cl0|] eqn:Hc0; simpl; [| done]. intros [= <- _].
apply (client_has_insert s _ _ c c0 cl0); auto.
Qed.

Lemma exec_has cmd s s' c :
client_has P s c → exec cmd s = Some s' → client_has P s' c.
Proof using All.
intros H. destruct cmd as [sess now|c0|msg|now|env c0 f|now c0|c0|ok c0]; simpl.
- rewrite HandleConnection_eq. intros [= <-]. destruct H as (cl & Hc & HP).
  exists cl. split; [| done]. simpl. rewrite lookup_insert_ne; [done |].
  intros Heq. rewrite <- Heq in Hc. by rewrite fresh_not_in_heap in Hc.
- unfold unregister. destruct (heap s !! c0) as [cl0|] eqn:Hc0; simpl; [| done].
  destruct (decide (c0 ∈ clients s)); [| by intros [= <-]].
  destruct (close_chan (send cl0)) as [ch|]; simpl; [| done].
  apply remove_from_rooms_has. apply (client_has_insert s _ _ c c0 cl0); auto.
- by apply broadcast_loop_has.
- by apply health_loop_has.
- unfold readPump_iter. destruct (heap s !! c0) as [cl0|] eqn:Hc0; simpl; [| done].
  destruct (ReadMessage cl0 f) as [| |msg]; simpl.
  + intros [= <-]. apply (client_has_insert s _ _ c c0 cl0); auto.
  + by intros [= <-].
  + destruct (handleMessage env c0 msg s) as [[s1 evs]|] eqn:H1; simpl; [| done].
    intros [= <-]. by apply (handleMessage_has _ _ _ _ _ _ _ H H1).
- unfold PongHandler. destruct (heap s !! c0) as [cl0|] eqn:Hc0; simpl; [| done].
  intros [= <-]. apply (client_has_insert s _ _ c c0 cl0); auto.
- unfold writePump_recv. destruct (heap s !! c0) as [cl0|] eqn:Hc0; simpl; [| done].
  destruct (buf (send cl0)).
  + destruct (closed (send cl0)); intros [= <-]; [| done].
    apply (client_has_insert s _ _ c c0 cl0); auto.
  + intros [= <-]. apply (client_has_insert s _ _ c c0 cl0); auto.
- unfold writePump_tick. destruct (heap s !! c0) as [cl0|] eqn:Hc0; simpl; [| done].
  destruct ok; intros [= <-]; [done |].
  apply (client_has_insert s _ _ c c0 cl0); auto.
Qed.

Lemma exec_all_has cmds s s' c :
client_has P s c → exec_all cmds s = Some s' → client_has P s' c.
Proof using All.
revert s. induction cmds as [|cmd rest IH]; intros s H; simpl; [by intros [= <-] |].
destruct (exec cmd s) as [s1|] eqn:H1; simpl; [| done].
apply IH. by apply (exec_has cmd s).
Qed.
End client_has.

(** Once closed, a transport stays closed. *)
Lemma exec_all_keeps_conn_closed cmds s s' c :
  client_has (λ cl, conn_closed cl = true) s c → exec_all cmds s = Some s' →
  client_has (λ cl, conn_closed cl = true) s' c.
Proof. by apply exec_all_has. Qed.

(** On a closed transport the read loop stops at its next iteration and
    sends the connection to [unregister]. *)
Lemma readPump_iter_closed env c incoming s :
  client_has (λ cl, conn_closed cl = true) s c →
  readPump_iter env c incoming s = Some (s, [SendUnregister c], true).
Proof.
  intros (cl & Hc & Hclosed). unfold readPump_iter, ReadMessage. rewrite Hc. simpl.
  rewrite Hclosed. assert (set_conn_closed cl = cl) as ->.
  { destruct cl. simpl in Hclosed. by subst. }
  rewrite insert_id by done. by destruct s.
Qed.

Lemma swept_outside now cs c cl : c ∉ cs → swept now cs c cl = cl.
Proof. intros H. unfold swept. rewrite decide_False; [done |]. by intros [? _]. Qed.

(** The first tick at which a connection last heard of at [p] is stale
    comes more than 60 s and at most 90 s after [p]. *)
Lemma ticker_time_stale start p :
  (start ≤ p)%Z →
  ∃ k, (60 * 1000000000 < ticker_time start k - p ≤ 90 * 1000000000)%Z.
Proof.
  intros Hstart. exists (Z.to_nat ((p - start + 60 * 1000000000) / (30 * 1000000000))).
  unfold ticker_time, health_interval, Second.
  pose proof (Z.div_mod (p - start + 60 * 1000000000) (30 * 1000000000)) as Hdiv.
  pose proof (Z.mod_pos_bound (p - start + 60 * 1000000000) (30 * 1000000000)) as Hmod.
  assert (0 ≤ (p - start + 60 * 1000000000) / (30 * 1000000000))%Z
    by (apply Z.div_pos; lia).
  rewrite Z2Nat.id by done. lia.
Qed.

(** C6: the sweep closes the transport of every live connection whose
    [lastPing] is more than 60 s old, and leaves the record of every
    connection that is within the 60 s or is not live, the live set and the
    room index as they were; with the ticker at its 30 s period the sweep
    that finds the connection stale comes at most 90 s after its
    [lastPing].  The transport stays closed whatever happens next, so the
    next read of the connection's read loop fails, whatever arrives: the
    loop exits and sends the connection to [unregister].  That removes the
    connection from the live set and from every room when it is still
    live; when a broadcast has found its queue full in between and has
    dropped it from the live set, [unregister] changes nothing and the
    connection stays in the rooms it was in. *)
Theorem health_sweep s now c cl :
  reachable s → c ∈ clients s → heap s !! c = Some cl →
  (now - lastPing cl > 60 * 1000000000)%Z →
  ∃ s', checkClientHealth now s = Some s' ∧
    clients s' = clients s ∧ rooms s' = rooms s ∧
    heap s' !! c = Some (set_conn_closed cl) ∧
    (∀ c' cl', heap s !! c' = Some cl' →
       (now - lastPing cl' ≤ 60 * 1000000000)%Z ∨ c' ∉ clients s →
       heap s' !! c' = Some cl') ∧
    (∀ cmds s2, exec_all cmds s' = Some s2 →
       (∀ env incoming,
          readPump_iter env c incoming s2 = Some (s2, [SendUnregister c], true)) ∧
       ∃ s3, unregister c s2 = Some s3 ∧
         (c ∈ clients s2 →
          (c ∉ clients s3) ∧ (∀ r, c ∉ members s3 r) ∧ memberships s3 c = ∅) ∧
         (c ∉ clients s2 → s3 = s2)) ∧
    (∀ start, (start ≤ lastPing cl)%Z →
       ∃ k s1,
         (60 * 1000000000 < ticker_time start k - lastPing cl ≤ 90 * 1000000000)%Z ∧
         checkClientHealth (ticker_time start k) s = Some s1 ∧
         heap s1 !! c = Some (set_conn_closed cl)).
Proof.
  intros Hr Hin Hc Hstale. pose proof (reachable_inv s Hr) as Hinv.
  assert (Hsweep : ∀ t, ∃ s1, checkClientHealth t s = Some s1 ∧
            ∀ c', heap s1 !! c' = swept t (elements (clients s)) c' <$> heap s !! c').
  { intros t. apply health_loop_effect.
    intros c' Hc'%elem_of_elements.
    destruct (inv_live_open s Hinv c' Hc') as (ch & Hch & _).
    unfold send_of in Hch. destruct (heap s !! c'); [eauto | done]. }
  assert (Hclose : ∀ t s1, (t - lastPing cl > 60 * 1000000000)%Z →
            (∀ c', heap s1 !! c' = swept t (elements (clients s)) c' <$> heap s !! c') →
            heap s1 !! c = Some (set_conn_closed cl)).
  { intros t s1 Ht Heff. rewrite Heff, Hc. simpl. rewrite swept_stale; [done | |].
    - by apply elem_of_elements.
    - unfold stale, time_Since, health_timeout, Second. lia. }
  destruct (Hsweep now) as (s' & H' & Heff).
  pose proof (health_loop_inv _ _ _ _ Hinv H') as Hinv'.
  pose proof (health_loop_frame _ _ _ _ H') as (Hcl & Hrooms & _ & _).
  pose proof (Hclose now s' Hstale Heff) as Hc'.
  exists s'. split_and!; try done.
  - intros c' cl' Hc0 [Hfresh | Hout]; rewrite Heff, Hc0; simpl.
    + rewrite swept_fresh; [done |].
      unfold stale, time_Since, health_timeout, Second. lia.
    + rewrite swept_outside; [done |]. by rewrite elem_of_elements.
  - intros cmds s2 Hrun.
    assert (Hclosed : client_has (λ cl0, conn_closed cl0 = true) s2 c).
    { apply (exec_all_keeps_conn_closed cmds s'); [| done]. by eexists. }
    split; [intros env incoming; by apply readPump_iter_closed |].
    destruct (decide (c ∈ clients s2)) as [Hlive | Hgone].
    + destruct (unregister_evicts c s2) as (s3 & H3 & _ & H4 & H5 & H6 & _);
        [by apply (exec_all_inv cmds s') | done |].
      exists s3. split_and!; done.
    + exists s2. destruct Hclosed as (cl2 & Hc2 & _).
      unfold unregister. rewrite Hc2. simpl. rewrite decide_False by done.
      split_and!; done.
  - intros start Hstart. destruct (ticker_time_stale start (lastPing cl) Hstart) as [k Hk].
    destruct (Hsweep (ticker_time start k)) as (s1 & H1 & Heff1).
    exists k, s1. split_and!; try done; try lia. apply (Hclose (ticker_time start k)); [lia | done].
Qed.

Lemma health_sweep_witness :
  ∃ s', checkClientHealth (61 * Second) room7_full = Some s' ∧
    clients s' = clients room7_full ∧ rooms s' = rooms room7_full ∧
    heap s' !! 1%positive = Some (set_conn_closed alice_full) ∧
    (∀ c' cl', heap room7_full !! c' = Some cl' →
       (61 * Second - lastPing cl' ≤ 60 * 1000000000)%Z ∨ c' ∉ clients room7_full →
       heap s' !! c' = Some cl') ∧
    (∀ cmds s2, exec_all cmds s' = Some s2 →
       (∀ env incoming,
          readPump_iter env 1%positive incoming s2
          = Some (s2, [SendUnregister 1%positive], true)) ∧
       ∃ s3, unregister 1%positive s2 = Some s3 ∧
         (1%positive ∈ clients s2 →
          (1%positive ∉ clients s3) ∧ (∀ r, 1%positive ∉ members s3 r) ∧
          memberships s3 1%positive = ∅) ∧
         (1%positive ∉ clients s2 → s3 = s2)) ∧
    (∀ start, (start ≤ lastPing alice_full)%Z →
       ∃ k s1,
         (60 * 1000000000 < ticker_time start k - lastPing alice_full
          ≤ 90 * 1000000000)%Z ∧
         checkClientHealth (ticker_time start k) room7_full = Some s1 ∧
         heap s1 !! 1%positive = Some (set_conn_closed alice_full)).
Proof.
  apply (health_sweep room7_full (61 * Second) 1%positive alice_full).
  - apply room7_full_reachable.
  - vm_compute. reflexivity.
  - vm_compute. reflexivity.
  - vm_compute. reflexivity.
Defined.

(** C6, where the code goes wrong: alice's queue is full and she has been
    silent for 61 s.  The sweep closes her transport; before her read loop
    has run, "hi" is broadcast to room 7 and the overflow branch drops her
    from the live set; the unregister that her read loop then sends
    changes nothing, and she is still a member of room 7. *)
Lemma health_sweep_then_overflow :
  checkClientHealth (61 * Second) room7_full = Some room7_swept ∧
  conn_closed <$> heap room7_swept !! 1%positive = Some true ∧
  broadcast {| RoomID := 7; Message := b "hi" |} room7_swept = Some room7_swept_sent ∧
  elements (clients room7_swept_sent) = [2%positive] ∧
  readPump_iter (env_ok (62 * Second)) 1%positive (Decoded ping_msg) room7_swept_sent
    = Some (room7_swept_sent, [SendUnregister 1%positive], true) ∧
  unregister 1%positive room7_swept_sent = Some room7_swept_sent ∧
  members room7_swept_sent 7 = [1%positive; 2%positive] ∧
  elements (memberships room7_swept_sent 1%positive) = [7%Z].
Proof. split_and!; vm_compute; reflexivity. Qed.

(** At 61 s both clients of [two_in_room], last heard of at 0 s, are
    stale: the sweep closes both transports, and alice's unregister then
    takes her out of room 7. *)
Example health_sweep_two_in_room :
  ∃ s' s2,
    checkClientHealth (61 * Second) two_in_room = Some s' ∧
    conn_closed <$> heap s' !! 1%positive = Some true ∧
    conn_closed <$> heap s' !! 2%positive = Some true ∧
    unregister 1%positive s' = Some s2 ∧
    members s2 7 = [2%positive] ∧ elements (clients s2) = [2%positive].
Proof. eexists _, _. split_and!; vm_compute; reflexivity. Qed.

(** ** Broadcast and the full queue *)

Lemma broadcast_loop_rooms targets m s s' :
  broadcast_loop targets m s = Some s' → rooms s' = rooms s.
Proof.
  revert s. induction targets as [|c rest IH]; intros s; simpl.
  - by intros [= <-].
  - destruct (heap s !! c) as [cl|]; simpl; [| done].
    destruct (select_send (send cl) m); [done | |].
    + destruct (close_chan (send cl)); simpl; [| done]. intros H. by apply IH in H.
    + intros H. by apply IH in H.
Qed.

Lemma delivered_in m targets c cl : c ∈ targets → delivered m targets c cl = deliver m cl.
Proof. intros. unfold delivered. by rewrite decide_True. Qed.

Lemma delivered_out m targets c cl : c ∉ targets → delivered m targets c cl = cl.
Proof. intros. unfold delivered. by rewrite decide_False. Qed.

Lemma broadcast_loop_effect targets m s :
  NoDup targets →
  (∀ c, c ∈ targets → ∃ cl, heap s !! c = Some cl ∧ closed (send cl) = false) →
  ∃ s', broadcast_loop targets m s = Some s' ∧
    (∀ c, heap s' !! c = delivered m targets c <$> heap s !! c) ∧
    (∀ c, c ∈ clients s' ↔
          c ∈ clients s ∧ ¬ (c ∈ targets ∧ ∃ cl, heap s !! c = Some cl ∧ queue_full cl)).
Proof.
  revert s. induction targets as [|c0 rest IH]; intros s Hnd Hopen.
  - exists s. split_and!; [done | |].
    + intros c. destruct (heap s !! c); [| done]. simpl.
      by rewrite delivered_out by apply not_elem_of_nil.
    + intros c. split; [| tauto]. intros H. split; [done |]. by intros [?%not_elem_of_nil _].
  - apply NoDup_cons in Hnd as [Hnin Hnd].
    destruct (Hopen c0) as (cl0 & Hc0 & Hopen0); [by left |].
    set (s0 := {| clients := if decide (length (buf (send cl0)) < send_capacity)
                             then clients s else clients s ∖ {[c0]};
                  rooms := rooms s;
                  heap := <[c0 := deliver m cl0]> (heap s) |}).
    assert (Hstep : broadcast_loop (c0 :: rest) m s = broadcast_loop rest m s0).
    { cbn [broadcast_loop]. rewrite Hc0. simpl. unfold select_send, s0, deliver.
      rewrite Hopen0. destruct (decide _); [done |].
      by rewrite (close_chan_open _ Hopen0). }
    destruct (IH s0 Hnd) as (s' & H' & Hheap & Hcl).
    { intros c Hc. assert (c ≠ c0) by (by intros ->).
      unfold s0. simpl. rewrite lookup_insert_ne by done. apply Hopen. by right. }
    exists s'. rewrite Hstep. split_and!; [done | |].
    + intros c. rewrite Hheap. unfold s0. simpl. destruct (decide (c = c0)) as [->|Hne].
      * rewrite lookup_insert_eq, Hc0. simpl.
        rewrite delivered_out by done. by rewrite delivered_in by (by left).
      * rewrite lookup_insert_ne by done. destruct (heap s !! c); [| done]. simpl.
        f_equal. unfold delivered. apply decide_ext. rewrite elem_of_cons. naive_solver.
    + intros c. rewrite Hcl. unfold s0. simpl. destruct (decide (c = c0)) as [->|Hne].
      * rewrite lookup_insert_eq. unfold queue_full. split.
        -- intros [Hin _]. destruct (decide _) as [Hlt|Hge]; [| set_solver].
           split; [done |]. intros (_ & cl & Hcl' & Hfull).
           rewrite Hc0 in Hcl'. injection Hcl' as <-. lia.
        -- intros [Hin Hnot]. split; [| by intros [? _]].
           destruct (decide _) as [Hlt|Hge]; [done |].
           exfalso. apply Hnot. split; [by left |]. exists cl0. split; [done | lia].
      * rewrite lookup_insert_ne by done. rewrite elem_of_cons.
        assert (c ∈ (if decide (length (buf (send cl0)) < send_capacity)
                     then clients s else clients s ∖ {[c0]}) ↔ c ∈ clients s) as ->.
        { destruct (decide _); set_solver. }
        naive_solver.
Qed.

(** A send on a closed queue panics, wherever in the room's slice its owner
    stands. *)
Lemma broadcast_loop_panics targets m s c :
  c ∈ targets → is_closed s c → broadcast_loop targets m s = None.
Proof.
  revert s. induction targets as [|c0 rest IH]; intros s Hin Hcl.
  - by apply not_elem_of_nil in Hin.
  - cbn [broadcast_loop]. destruct (heap s !! c0) as [cl0|] eqn:Hc0; simpl; [| done].
    destruct Hcl as (ch & Hch & Hclosed).
    unfold select_send. destruct (closed (send cl0)) eqn:Hopen0; [done |].
    assert (c ≠ c0) as Hne.
    { intros ->. unfold send_of in Hch. rewrite Hc0 in Hch. simpl in Hch. congruence. }
    apply elem_of_cons in Hin as [-> | Hin]; [done |].
    destruct (decide _).
    + apply IH; [done |]. exists ch. by rewrite send_of_insert, decide_False.
    + rewrite (close_chan_open _ Hopen0). simpl.
      apply IH; [done |]. exists ch. by rewrite send_of_insert, decide_False.
Qed.

(** C1, what the code does: a member whose queue is full when the room is
    broadcast to has its queue closed and is deleted from the live set, and
    every member with room in its queue gets the message; but the member
    with the full queue is still in the room's slice and the room is still
    in its own room set; its unregister, when it comes, finds it gone from
    the live set and changes nothing; and the next broadcast to the room
    panics on the send to the closed queue. *)
Theorem broadcast_overflow_stays_in_room s r m c cl :
  reachable s → c ∈ members s r → heap s !! c = Some cl → queue_full cl →
  (∀ c', c' ∈ members s r → ¬ is_closed s c') →
  ∃ s', broadcast {| RoomID := r; Message := m |} s = Some s' ∧
    heap s' !! c = Some (set_send {| buf := buf (send cl); closed := true |} cl) ∧
    (c ∉ clients s') ∧
    (∀ c' cl', c' ∈ members s r → heap s !! c' = Some cl' → ¬ queue_full cl' →
       heap s' !! c' = Some (set_send {| buf := buf (send cl') ++ [m]; closed := false |} cl')) ∧
    c ∈ members s' r ∧ r ∈ memberships s' c ∧
    unregister c s' = Some s' ∧
    (∀ m', broadcast {| RoomID := r; Message := m' |} s' = None).
Proof.
  intros Hr Hin Hc Hfull Hopen. pose proof (reachable_inv s Hr) as Hinv.
  unfold broadcast. simpl. fold (members s r).
  destruct (broadcast_loop_effect (members s r) m s) as (s' & H' & Hheap & Hcl).
  { apply (inv_nodup s Hinv). }
  { intros c' Hc'. apply (inv_consistent s Hinv) in Hc' as Hm.
    unfold memberships in Hm. destruct (heap s !! c') as [cl'|] eqn:Hcl'; [| set_solver].
    exists cl'. split; [done |]. destruct (closed (send cl')) eqn:Hclosed; [| done].
    exfalso. apply (Hopen c' Hc'). exists (send cl'). unfold send_of. by rewrite Hcl'. }
  pose proof (broadcast_loop_rooms _ _ _ _ H') as Hrooms.
  assert (Hc' : heap s' !! c =
                Some (set_send {| buf := buf (send cl); closed := true |} cl)).
  { rewrite Hheap, Hc. simpl. rewrite delivered_in by done. unfold deliver.
    unfold queue_full in Hfull. rewrite decide_False by lia. done. }
  assert (Hin' : c ∈ members s' r) by (unfold members; rewrite Hrooms; done).
  exists s'. split_and!; try done.
  - intros Hlive. apply Hcl in Hlive as [_ Hnot]. apply Hnot. naive_solver.
  - intros c' cl' Hc'in Hcl' Hroom. rewrite Hheap, Hcl'. simpl.
    rewrite delivered_in by done. unfold deliver. unfold queue_full in Hroom.
    rewrite decide_True by lia. done.
  - unfold memberships. rewrite Hc'. simpl.
    apply (inv_consistent s Hinv) in Hin. unfold memberships in Hin. by rewrite Hc in Hin.
  - unfold unregister. rewrite Hc'. simpl. rewrite decide_False; [done |].
    intros Hlive. apply Hcl in Hlive as [_ Hnot]. apply Hnot. naive_solver.
  - intros m'. fold (members s' r). apply (broadcast_loop_panics _ _ _ c Hin').
    eexists. unfold send_of. rewrite Hc'. simpl. done.
Qed.

Lemma broadcast_overflow_stays_in_room_witness :
  ∃ s', broadcast {| RoomID := 7; Message := b "hi" |} room7_full = Some s' ∧
    heap s' !! 1%positive
      = Some (set_send {| buf := buf (send alice_full); closed := true |} alice_full) ∧
    (1%positive ∉ clients s') ∧
    (∀ c' cl', c' ∈ members room7_full 7 → heap room7_full !! c' = Some cl' →
       ¬ queue_full cl' →
       heap s' !! c'
         = Some (set_send {| buf := buf (send cl') ++ [b "hi"]; closed := false |} cl')) ∧
    1%positive ∈ members s' 7 ∧ 7%Z ∈ memberships s' 1%positive ∧
    unregister 1%positive s' = Some s' ∧
    (∀ m', broadcast {| RoomID := 7; Message := m' |} s' = None).
Proof.
  apply (broadcast_overflow_stays_in_room room7_full 7 (b "hi") 1%positive alice_full).
  - apply (exec_all_reachable room7_full_cmds NewWSManager); [constructor |].
    vm_compute. reflexivity.
  - vm_compute. apply list_elem_of_here.
  - vm_compute. reflexivity.
  - unfold queue_full. vm_compute. lia.
  - intros c' Hin (ch & Hch & Hclosed).
    assert (members room7_full 7 = [1%positive; 2%positive]) as Hm by (vm_compute; reflexivity).
    rewrite Hm in Hin.
    apply elem_of_cons in Hin as [-> | Hin];
      [| apply elem_of_cons in Hin as [-> | Hin]; [| by apply not_elem_of_nil in Hin]];
      vm_compute in Hch; injection Hch as <-; vm_compute in Hclosed; discriminate.
Defined.

(** C3: a [send_message] for room [r] with content [s] puts a broadcast on
    the hub's channel exactly when [r] is in the sender's room set, [s] is
    not empty and [SaveMessage] succeeds ([json.Marshal] of the stored
    message being taken to succeed).  The handler then has called
    [SaveMessage] first and sent one broadcast to room [r] whose payload is
    the encoding of the record that [SaveMessage] returned.  A sender not in
    [r] makes no call at all, and a failed [SaveMessage] is followed by no
    broadcast. *)
Theorem send_message_broadcast env c data sd s cl :
  heap s !! c = Some cl →
  as_SendMessageData data = Some sd →
  (∀ d, is_Some (json_Marshal env "new_message" d)) →
  ∃ evs, handleSendMessage env c data s = Some (s, evs) ∧
    ((∃ msg, SendBroadcast msg ∈ evs) ↔
       send_RoomID sd ∈ memberships s c ∧ Content sd ≠ EmptyString ∧
       is_Some (SaveMessage env (send_RoomID sd) (UserID (session cl)) (Content sd))) ∧
    (∀ msg, SendBroadcast msg ∈ evs →
       ∃ message,
         SaveMessage env (send_RoomID sd) (UserID (session cl)) (Content sd) = Some message ∧
         RoomID msg = send_RoomID sd ∧
         json_Marshal env "new_message"
           {| bm_Message := message; bm_RoomID := send_RoomID sd |} = Some (Message msg) ∧
         evs = [CallSaveMessage (send_RoomID sd) (UserID (session cl)) (Content sd);
                SendBroadcast msg]) ∧
    (send_RoomID sd ∉ memberships s c → evs = []) ∧
    (SaveMessage env (send_RoomID sd) (UserID (session cl)) (Content sd) = None →
       ∀ msg, SendBroadcast msg ∉ evs).
Proof.
  intros Hc Hsd Hmarshal. unfold handleSendMessage, memberships. rewrite Hsd, Hc. simpl.
  destruct (decide (Content sd = EmptyString)) as [Hempty|Hne].
  { exists []. split_and!; try done.
    - split; [by intros [msg ?%not_elem_of_nil] | tauto].
    - by intros msg ?%not_elem_of_nil.
    - intros _ msg. apply not_elem_of_nil. }
  destruct (decide (send_RoomID sd ∈ client_rooms cl)) as [Hin|Hnin]; cycle 1.
  { exists []. split_and!; try done.
    - split; [by intros [msg ?%not_elem_of_nil] | tauto].
    - by intros msg ?%not_elem_of_nil.
    - intros _ msg. apply not_elem_of_nil. }
  destruct (SaveMessage env (send_RoomID sd) (UserID (session cl)) (Content sd))
    as [message|] eqn:Hsave.
  - unfold BroadcastToRoom.
    destruct (Hmarshal {| bm_Message := message; bm_RoomID := send_RoomID sd |})
      as [payload Hpay].
    rewrite Hpay. simpl. eexists. split; [done |]. split_and!.
    + split; [intros _; split_and!; eauto |]. intros _. eexists.
      apply list_elem_of_further, list_elem_of_here.
    + intros msg Hmsg. apply elem_of_cons in Hmsg as [Hmsg | Hmsg]; [done |].
      apply list_elem_of_singleton in Hmsg. injection Hmsg as ->.
      exists message. simpl. done.
    + done.
    + done.
  - exists [CallSaveMessage (send_RoomID sd) (UserID (session cl)) (Content sd)].
    split; [done |]. split_and!.
    + split.
      * intros [msg Hmsg]. by apply list_elem_of_singleton in Hmsg.
      * intros (_ & _ & [? ?]). done.
    + intros msg Hmsg. by apply list_elem_of_singleton in Hmsg.
    + done.
    + intros _ msg Hmsg. by apply list_elem_of_singleton in Hmsg.
Qed.

Lemma send_message_broadcast_witness :
  ∃ evs, handleSendMessage (env_ok 9) 1%positive send_hi two_in_room = Some (two_in_room, evs) ∧
    ((∃ msg, SendBroadcast msg ∈ evs) ↔
       7%Z ∈ memberships two_in_room 1%positive ∧ "hi"%string ≠ EmptyString ∧
       is_Some (SaveMessage (env_ok 9) 7 1 "hi")) ∧
    (∀ msg, SendBroadcast msg ∈ evs →
       ∃ message,
         SaveMessage (env_ok 9) 7 1 "hi" = Some message ∧
         RoomID msg = 7%Z ∧
         json_Marshal (env_ok 9) "new_message"
           {| bm_Message := message; bm_RoomID := 7 |} = Some (Message msg) ∧
         evs = [CallSaveMessage 7 1 "hi"; SendBroadcast msg]) ∧
    (7%Z ∉ memberships two_in_room 1%positive → evs = []) ∧
    (SaveMessage (env_ok 9) 7 1 "hi" = None → ∀ msg, SendBroadcast msg ∉ evs).
Proof.
  apply (send_message_broadcast (env_ok 9) 1%positive send_hi
           {| send_RoomID := 7; Content := "hi" |} two_in_room alice_joined).
  - vm_compute. reflexivity.
  - reflexivity.
  - intros d. simpl. eauto.
Defined.

(** ** The handlers of the read loop *)

Lemma addClientToRoom_total c r s :
  is_Some (heap s !! c) → is_Some (addClientToRoom c r s).
Proof.
  intros [cl Hc]. unfold addClientToRoom. destruct (decide _); [eauto |].
  rewrite Hc. simpl. eauto.
Qed.

(** C8: a [join_room] adds the connection to the room when the database
    confirms that the user is in the claimed hall and that the room belongs
    to that hall; a connection that was not in the room is in it afterwards
    exactly in that case.  When a check fails, or the data does not decode,
    the state is unchanged.  In every case no queue changes and the handler
    only queries the database: nothing is sent to the client or to the
    hub. *)
Theorem join_room_authorized env c data s cl :
  reachable s → heap s !! c = Some cl →
  (as_JoinRoomData data = None → handleJoinRoom env c data s = Some (s, [])) ∧
  (∀ jd, as_JoinRoomData data = Some jd →
     ∃ s' evs, handleJoinRoom env c data s = Some (s', evs) ∧
       (join_allowed env (UserID (session cl)) jd →
          addClientToRoom c (join_RoomID jd) s = Some s' ∧
          c ∈ members s' (join_RoomID jd) ∧ join_RoomID jd ∈ memberships s' c) ∧
       (¬ join_allowed env (UserID (session cl)) jd → s' = s) ∧
       (c ∉ members s (join_RoomID jd) →
          (c ∈ members s' (join_RoomID jd) ↔ join_allowed env (UserID (session cl)) jd)) ∧
       (∀ c', send_of s' c' = send_of s c') ∧
       (∀ ev, ev ∈ evs →
          (∃ u h, ev = CallIsUserInHall u h) ∨ (∃ r, ev = CallGetRoomByID r))).
Proof.
  intros Hr Hc. pose proof (reachable_inv s Hr) as Hinv.
  unfold handleJoinRoom. split; [by intros -> |].
  intros jd ->. rewrite Hc. simpl. unfold join_allowed.
  assert (Hev1 : ∀ ev, ev ∈ [CallIsUserInHall (UserID (session cl)) (HallID jd)] →
     (∃ u h, ev = CallIsUserInHall u h) ∨ (∃ r, ev = CallGetRoomByID r)).
  { intros ev ->%list_elem_of_singleton. left. eauto. }
  assert (Hev2 : ∀ ev, ev ∈ [CallIsUserInHall (UserID (session cl)) (HallID jd);
                             CallGetRoomByID (join_RoomID jd)] →
     (∃ u h, ev = CallIsUserInHall u h) ∨ (∃ r, ev = CallGetRoomByID r)).
  { intros ev [-> | ->%list_elem_of_singleton]%elem_of_cons; [left | right]; eauto. }
  destruct (IsUserInHall env (UserID (session cl)) (HallID jd)) as [[|]|] eqn:Hhall;
    try (eexists s, _; split; [done |]; split_and!;
         [by intros [? _] | done | intros ?; split; [done | by intros [? _]]
         | done | exact Hev1]).
  destruct (GetRoomByID env (join_RoomID jd)) as [room|] eqn:Hroom;
    [| eexists s, _; split; [done |]; split_and!;
       [by intros (_ & ? & ? & _) | done
       | intros ?; split; [done | by intros (_ & ? & ? & _)]
       | done | exact Hev2]].
  destruct (decide (room_HallID room = HallID jd)) as [Heq|Hne];
    [| eexists s, _; split; [done |]; split_and!;
       [intros (_ & ? & [= <-] & ?); done | done
       | intros ?; split; [done | intros (_ & ? & [= <-] & ?); done]
       | done | exact Hev2]].
  destruct (addClientToRoom_total c (join_RoomID jd) s) as [s' Hadd]; [eauto |].
  rewrite Hadd. simpl.
  destruct (addClientToRoom_effect c _ s s' Hinv Hadd) as (_ & Hmem & Hms & Hsend & _).
  assert (c ∈ members s' (join_RoomID jd)) as Hin by (apply Hmem; by right).
  eexists s', _. split; [done |]. split_and!.
  - intros _. split_and!; [done | done |]. apply Hms. by right.
  - intros Hnot. exfalso. apply Hnot. eauto.
  - intros _. split; [| done]. intros _. eauto.
  - exact Hsend.
  - exact Hev2.
Qed.

Lemma join_room_authorized_witness :
  (as_JoinRoomData (Data_ (join_room 1 8)) = None →
     handleJoinRoom (env_ok 3) 1%positive (Data_ (join_room 1 8)) two_in_room
       = Some (two_in_room, [])) ∧
  (∀ jd, as_JoinRoomData (Data_ (join_room 1 8)) = Some jd →
     ∃ s' evs, handleJoinRoom (env_ok 3) 1%positive (Data_ (join_room 1 8)) two_in_room
                 = Some (s', evs) ∧
       (join_allowed (env_ok 3) (UserID (session alice_joined)) jd →
          addClientToRoom 1%positive (join_RoomID jd) two_in_room = Some s' ∧
          1%positive ∈ members s' (join_RoomID jd) ∧
          join_RoomID jd ∈ memberships s' 1%positive) ∧
       (¬ join_allowed (env_ok 3) (UserID (session alice_joined)) jd → s' = two_in_room) ∧
       (1%positive ∉ members two_in_room (join_RoomID jd) →
          (1%positive ∈ members s' (join_RoomID jd)
           ↔ join_allowed (env_ok 3) (UserID (session alice_joined)) jd)) ∧
       (∀ c', send_of s' c' = send_of two_in_room c') ∧
       (∀ ev, ev ∈ evs →
          (∃ u h, ev = CallIsUserInHall u h) ∨ (∃ r, ev = CallGetRoomByID r))).
Proof.
  apply (join_room_authorized (env_ok 3) 1%positive (Data_ (join_room 1 8))
           two_in_room alice_joined).
  - apply (exec_all_reachable two_in_room_cmds NewWSManager); [constructor |].
    vm_compute. reflexivity.
  - vm_compute. reflexivity.
Defined.

(** ** Liveness *)

Lemma addClientToRoom_lastPing c r s s' :
  addClientToRoom c r s = Some s' →
  lastPing <$> heap s' !! c = lastPing <$> heap s !! c.
Proof.
  unfold addClientToRoom. destruct (decide _); [by intros [= <-] |].
  destruct (heap s !! c) as [cl|] eqn:Hc; simpl; [| done]. intros [= <-].
  simpl. by rewrite lookup_insert_eq.
Qed.

Lemma removeClientFromRoom_lastPing c r s s' :
  removeClientFromRoom c r s = Some s' →
  lastPing <$> heap s' !! c = lastPing <$> heap s !! c.
Proof.
  unfold removeClientFromRoom. destruct (rooms s !! r); [| by intros [= <-]].
  destruct (heap s !! c) as [cl|] eqn:Hc; simpl; [| done]. intros [= <-].
  simpl. by rewrite lookup_insert_eq.
Qed.

(** C4 as the code has it: the liveness timestamp of a connection is set to
    the current time by a decoded [ping] message, which also calls
    [UpdateUserLastSeen], and by the pong handler; a decoded message of any
    other type leaves it as it was. *)
Theorem liveness_refresh env c msg s cl :
  heap s !! c = Some cl →
  (Type_ msg = "ping"%string →
     ∃ s', handleMessage env c msg s
             = Some (s', [CallUpdateUserLastSeen (UserID (session cl))]) ∧
           lastPing <$> heap s' !! c = Some (time_Now env)) ∧
  (Type_ msg ≠ "ping"%string →
     ∀ s' evs, handleMessage env c msg s = Some (s', evs) →
       lastPing <$> heap s' !! c = Some (lastPing cl) ∧
       ∀ u, CallUpdateUserLastSeen u ∉ evs) ∧
  (∀ now, ∃ s', PongHandler now c s = Some s' ∧ lastPing <$> heap s' !! c = Some now).
Proof.
  intros Hc. split_and!.
  - intros Hping. unfold handleMessage. rewrite Hping. simpl. rewrite Hc. simpl.
    eexists. split; [done |]. simpl. by rewrite lookup_insert_eq.
  - intros Hne s' evs. unfold handleMessage.
    assert (Hl : lastPing <$> heap s !! c = Some (lastPing cl)) by (by rewrite Hc).
    destruct (String.eqb _ "join_room").
    { unfold handleJoinRoom. destruct (as_JoinRoomData _) as [jd|];
        [| intros [= <- <-]; split; [done | intros u; apply not_elem_of_nil]].
      rewrite Hc. simpl.
      assert (∀ x y z, CallUpdateUserLastSeen x ∉ [CallIsUserInHall y z]) as Hev1.
      { intros x y z H%list_elem_of_singleton. done. }
      assert (∀ x y z r, CallUpdateUserLastSeen x
                ∉ [CallIsUserInHall y z; CallGetRoomByID r]) as Hev2.
      { intros x y z r [H | H%list_elem_of_singleton]%elem_of_cons; done. }
      destruct (IsUserInHall _ _ _) as [[|]|]; try (intros [= <- <-]; by split).
      destruct (GetRoomByID _ _) as [room|]; [| intros [= <- <-]; by split].
      destruct (decide _); [| intros [= <- <-]; by split].
      destruct (addClientToRoom _ _ _) as [s1|] eqn:H1; simpl; [| done].
      intros [= <- <-]. split; [| done].
      by rewrite (addClientToRoom_lastPing _ _ _ _ H1). }
    destruct (String.eqb _ "leave_room").
    { unfold handleLeaveRoom. destruct (as_leave_room _) as [r|];
        [| intros [= <- <-]; split; [done | intros u; apply not_elem_of_nil]].
      rewrite Hc. simpl.
      destruct (removeClientFromRoom _ _ _) as [s1|] eqn:H1; simpl; [| done].
      intros [= <- <-]. split; [| intros u; apply not_elem_of_nil].
      by rewrite (removeClientFromRoom_lastPing _ _ _ _ H1). }
    destruct (String.eqb _ "send_message").
    { unfold handleSendMessage. destruct (as_SendMessageData _) as [sd|];
        [| intros [= <- <-]; split; [done | intros u; apply not_elem_of_nil]].
      destruct (decide _);
        [intros [= <- <-]; split; [done | intros u; apply not_elem_of_nil] |].
      rewrite Hc. simpl.
      destruct (decide _);
        [| intros [= <- <-]; split; [done | intros u; apply not_elem_of_nil]].
      destruct (SaveMessage _ _ _ _) as [message|].
      - unfold BroadcastToRoom. destruct (json_Marshal _ _ _);
          intros [= <- <-]; (split; [done |]); intros u H;
          repeat (apply elem_of_cons in H as [H | H]; [done |]);
          by apply not_elem_of_nil in H.
      - intros [= <- <-]. split; [done |]. intros u H%list_elem_of_singleton. done. }
    destruct (String.eqb (Type_ msg) "ping") eqn:Hp.
    { apply String.eqb_eq in Hp. done. }
    intros [= <- <-]. split; [done | intros u; apply not_elem_of_nil].
  - intros now. unfold PongHandler. rewrite Hc. simpl. eexists. split; [done |].
    simpl. by rewrite lookup_insert_eq.
Qed.

Lemma liveness_refresh_witness :
  (Type_ ping_msg = "ping"%string →
     ∃ s', handleMessage (env_ok 5) 1%positive ping_msg two_in_room
             = Some (s', [CallUpdateUserLastSeen (UserID (session alice_joined))]) ∧
           lastPing <$> heap s' !! 1%positive = Some (time_Now (env_ok 5))) ∧
  (Type_ ping_msg ≠ "ping"%string →
     ∀ s' evs, handleMessage (env_ok 5) 1%positive ping_msg two_in_room = Some (s', evs) →
       lastPing <$> heap s' !! 1%positive = Some (lastPing alice_joined) ∧
       ∀ u, CallUpdateUserLastSeen u ∉ evs) ∧
  (∀ now, ∃ s', PongHandler now 1%positive two_in_room = Some s' ∧
                lastPing <$> heap s' !! 1%positive = Some now).
Proof.
  apply (liveness_refresh (env_ok 5) 1%positive ping_msg two_in_room alice_joined).
  vm_compute. reflexivity.
Defined.

(** C4 as the specification has it fails: a decoded [join_room] message,
    read at time 5 from a connection whose [lastPing] is 0, leaves
    [lastPing] at 0. *)
Lemma decoded_join_keeps_lastPing :
  ∃ s' evs,
    readPump_iter (env_ok 5) 1%positive (Decoded (join_room 1 8)) two_in_room
      = Some (s', evs, false) ∧
    lastPing <$> heap two_in_room !! 1%positive = Some 0%Z ∧
    lastPing <$> heap s' !! 1%positive = Some 0%Z ∧
    lastPing <$> heap s' !! 1%positive ≠ Some (time_Now (env_ok 5)).
Proof.
  eexists _, _. split_and!.
  - vm_compute. reflexivity.
  - vm_compute. reflexivity.
  - vm_compute. reflexivity.
  - vm_compute. discriminate.
Qed.

(** * Properties of [cleanRoomName] *)

Lemma byte_eqb_eq (x y : byte) : Byte.eqb x y = true ↔ x = y.
Proof. split; [apply Byte.byte_dec_bl | apply Byte.byte_dec_lb]. Qed.

Lemma byte_eqb_neq (x y : byte) : Byte.eqb x y = false ↔ x ≠ y.
Proof.
  split; [apply Byte.eqb_false |]. intros H.
  destruct (Byte.eqb x y) eqn:E; [| done]. by apply byte_eqb_eq in E.
Qed.

Lemma byteZ_Zbyte x : (0 ≤ x < 256)%Z → byteZ (Zbyte x) = x.
Proof.
  intros Hx. unfold byteZ, Zbyte. rewrite Z.mod_small by done.
  destruct (Byte.of_N (Z.to_N x)) as [y|] eqn:E.
  - simpl. apply Byte.to_of_N in E. rewrite E. lia.
  - apply Byte.of_N_None_iff in E. lia.
Qed.

Section to_lower.
Local Open Scope Z_scope.

Lemma lowerASCII_not_upper c : strings.isUpper (strings.lowerASCII c) = false.
Proof. destruct c; reflexivity. Qed.

Lemma byte_or_not_upper t y :
  t ∈ [utf8.tx; utf8.t2; utf8.t3; utf8.t4] → strings.isUpper (byte_or t y) = false.
Proof.
  intros Ht. repeat (apply elem_of_cons in Ht as [-> | Ht]);
    [..| by apply not_elem_of_nil in Ht]; destruct y; reflexivity.
Qed.

Lemma AppendRune_not_upper r :
  0 ≤ r → ¬ (0x41 ≤ r ≤ 0x5A) →
  Forall (λ c, strings.isUpper c = false) (utf8.AppendRune r).
Proof.
  intros Hr Hup. unfold utf8.AppendRune.
  destruct (r <=? 0x7F) eqn:H1.
  { apply Z.leb_le in H1. apply Forall_singleton. unfold strings.isUpper.
    rewrite byteZ_Zbyte by lia. apply andb_false_iff.
    destruct (Z.leb_spec 0x41 r); [right; apply Z.leb_gt; lia | by left]. }
  repeat case_match;
    repeat (apply Forall_cons_2;
            [first [apply byte_or_not_upper; set_solver | reflexivity] |]);
    apply Forall_nil_2.
Qed.

Context (tbl : Z → Z) (Htbl : ∀ r, 0x7F < r → ¬ (0x41 ≤ tbl r ≤ 0x5A)).

Lemma unicode_ToLower_not_upper r :
  ¬ (0x41 ≤ unicode.ToLower tbl r ≤ 0x5A).
Proof using Htbl.
  unfold unicode.ToLower. destruct (r <=? 0x7F) eqn:H1.
  - destruct ((0x41 <=? r) && (r <=? 0x5A)) eqn:H2.
    + apply andb_true_iff in H2 as [?%Z.leb_le ?%Z.leb_le]. lia.
    + apply andb_false_iff in H2 as [?%Z.leb_gt | ?%Z.leb_gt]; lia.
  - apply Z.leb_gt in H1. by apply Htbl.
Qed.

Lemma map_from_not_upper skip s :
  Forall (λ c, strings.isUpper c = false)
         (strings.map_from (unicode.ToLower tbl) skip s).
Proof using Htbl.
  revert skip. induction s as [|c s IH]; intros skip.
  { apply Forall_nil_2. }
  cbn [strings.map_from]. destruct skip as [|k]; [| apply IH].
  destruct (utf8.DecodeRuneInString (c :: s)) as [r width].
  apply Forall_app. split; [| apply IH].
  destruct (unicode.ToLower tbl r <? 0) eqn:Hneg; [apply Forall_nil_2 |].
  apply Z.ltb_ge in Hneg. apply AppendRune_not_upper; [done |].
  apply unicode_ToLower_not_upper.
Qed.

Lemma ToLower_not_upper s :
  Forall (λ c, strings.isUpper c = false) (strings.ToLower tbl s).
Proof using Htbl.
  unfold strings.ToLower. destruct (forallb strings.isASCII s).
  - destruct (existsb strings.isUpper s) eqn:Hup.
    + apply Forall_forall. intros c [c0 [-> _]]%list_elem_of_fmap.
      apply lowerASCII_not_upper.
    + apply Forall_forall. intros c Hc.
      destruct (strings.isUpper c) eqn:Hc'; [| done].
      assert (existsb strings.isUpper s = true); [| congruence].
      apply existsb_exists. exists c. split; [by apply list_elem_of_In | done].
  - apply map_from_not_upper.
Qed.

Lemma ToLower_hash s :
  ∃ s', strings.ToLower tbl (hash :: s) = hash :: s'.
Proof.
  unfold strings.ToLower. destruct (forallb strings.isASCII (hash :: s)).
  - destruct (existsb strings.isUpper (hash :: s)); [| eauto].
    cbn [map]. eauto.
  - unfold strings.Map. cbn [strings.map_from].
    change (utf8.DecodeRuneInString (hash :: s)) with (35, 1%nat).
    cbn beta iota. change (unicode.ToLower tbl 35) with 35.
    change (35 <? 0) with false. cbn beta iota.
    change (utf8.AppendRune 35) with [hash]. cbn [app]. eauto.
Qed.

Lemma ToLower_ascii_lower s :
  forallb strings.isASCII s = true → existsb strings.isUpper s = false →
  strings.ToLower tbl s = s.
Proof. intros H1 H2. unfold strings.ToLower. by rewrite H1, H2. Qed.
End to_lower.

Section replace.
Implicit Types (s : bytes) (c : byte).

Lemma HasPrefix_app s q p : strings.HasPrefix s p = true → strings.HasPrefix (s ++ q) p = true.
Proof.
  revert s. induction p as [|x p IH]; intros s; [done |].
  destruct s as [|c s]; [done |]. simpl.
  intros [-> H]%andb_true_iff. simpl. by apply IH.
Qed.

Lemma Contains_app s q p : strings.Contains s p = true → strings.Contains (s ++ q) p = true.
Proof.
  induction s as [|c s IH].
  - simpl. rewrite orb_false_r. intros H. destruct p; [| done].
    by destruct q.
  - cbn [strings.Contains app]. intros [H | H]%orb_true_iff; apply orb_true_iff.
    + left. by apply (HasPrefix_app (c :: s)).
    + right. by apply IH.
Qed.

Lemma Contains_prefix s s' p :
  s' `prefix_of` s → strings.Contains s p = false → strings.Contains s' p = false.
Proof.
  intros [q ->] H. destruct (strings.Contains s' p) eqn:E; [| done].
  apply (Contains_app _ q) in E. congruence.
Qed.

(** [ReplaceAll(name, " ", "-")] *)
Lemma ReplaceAll_space s :
  strings.ReplaceAll s (b " ") (b "-")
  = map (λ c, if Byte.eqb c space then dash else c) s.
Proof.
  unfold strings.ReplaceAll. induction s as [|c s IH]; [done |].
  cbn [strings.replace_from map]. change (length (b " ") - 1) with 0. rewrite IH.
  change (strings.HasPrefix (c :: s) (b " ")) with (Byte.eqb c space && true).
  rewrite andb_true_r. by destruct (Byte.eqb c space).
Qed.

Lemma ReplaceAll_space_id s :
  Forall (λ c, c ≠ space) s → strings.ReplaceAll s (b " ") (b "-") = s.
Proof.
  rewrite ReplaceAll_space. induction 1 as [|c s Hc _ IH]; [done |].
  cbn [map]. rewrite IH. apply byte_eqb_neq in Hc. by rewrite Hc.
Qed.

(** [ReplaceAll(name, "--", "-")] *)
Lemma HasPrefix_dd c s :
  strings.HasPrefix (c :: s) (b "--") = true ↔ c = dash ∧ ∃ s', s = dash :: s'.
Proof.
  change (strings.HasPrefix (c :: s) (b "--"))
    with (Byte.eqb c dash && strings.HasPrefix s [dash]).
  rewrite andb_true_iff, byte_eqb_eq. destruct s as [|d s]; simpl.
  - split; [by intros [_ ?] | by intros [_ [? ?]]].
  - rewrite andb_true_r, byte_eqb_eq. naive_solver.
Qed.

Lemma replace_dd_cons c s :
  strings.replace_from (b "--") (b "-") 0 (c :: s)
  = if strings.HasPrefix (c :: s) (b "--")
    then dash :: strings.replace_from (b "--") (b "-") 1 s
    else c :: strings.replace_from (b "--") (b "-") 0 s.
Proof. reflexivity. Qed.

Lemma replace_dd_skip c s :
  strings.replace_from (b "--") (b "-") 1 (c :: s)
  = strings.replace_from (b "--") (b "-") 0 s.
Proof. reflexivity. Qed.

Lemma replace_dd_Forall (P : byte → Prop) s :
  Forall P s →
  Forall P (strings.replace_from (b "--") (b "-") 0 s) ∧
  Forall P (strings.replace_from (b "--") (b "-") 1 s).
Proof.
  induction 1 as [|c s Hc Hs [IH0 IH1]]; [by split |].
  rewrite replace_dd_cons, replace_dd_skip. split; [| done].
  destruct (strings.HasPrefix (c :: s) (b "--")) eqn:E.
  - apply HasPrefix_dd in E as [-> _]. apply Forall_cons_2; [done |]. exact IH1.
  - by apply Forall_cons_2.
Qed.

Lemma replace_dd_length s :
  length (strings.replace_from (b "--") (b "-") 0 s) ≤ length s ∧
  length (strings.replace_from (b "--") (b "-") 1 s) ≤ pred (length s) ∧
  (strings.Contains s (b "--") = true →
   length (strings.replace_from (b "--") (b "-") 0 s) < length s).
Proof.
  induction s as [|c s (IH0 & IH1 & IH2)]; [by split_and! |].
  rewrite replace_dd_cons, replace_dd_skip. cbn [strings.Contains length pred].
  destruct (strings.HasPrefix (c :: s) (b "--")) eqn:E.
  - apply HasPrefix_dd in E as [-> [s' ->]]. cbn [length pred] in *.
    split_and!; [lia | lia |]. intros _. lia.
  - cbn [orb length]. split_and!; [lia | lia |]. intros H. apply IH2 in H. lia.
Qed.

Lemma replace_dd_hash s :
  ∃ s', strings.ReplaceAll (hash :: s) (b "--") (b "-") = hash :: s'.
Proof. unfold strings.ReplaceAll. rewrite replace_dd_cons. simpl. eauto. Qed.

(** The loop *)
Lemma collapse_dashes_no_dd fuel s :
  length s ≤ fuel → strings.Contains (collapse_dashes fuel s) (b "--") = false.
Proof.
  revert s. induction fuel as [|fuel IH]; intros s Hlen.
  - destruct s; [done | simpl in Hlen; lia].
  - cbn [collapse_dashes]. destruct (strings.Contains s (b "--")) eqn:E; [| done].
    apply IH. apply (replace_dd_length s) in E. unfold strings.ReplaceAll. lia.
Qed.

(** With [length s] turns the loop has come to its end: more turns give
    the same name. *)
Lemma collapse_dashes_enough fuel fuel' s :
  length s ≤ fuel → length s ≤ fuel' →
  collapse_dashes fuel s = collapse_dashes fuel' s.
Proof.
  revert fuel' s. induction fuel as [|fuel IH]; intros fuel' s H H'.
  - destruct s; [by destruct fuel' | simpl in H; lia].
  - cbn [collapse_dashes]. destruct (strings.Contains s (b "--")) eqn:E.
    + pose proof (replace_dd_length s) as (_ & _ & Hlt). specialize (Hlt E).
      destruct fuel' as [|fuel']; [lia |]. cbn [collapse_dashes]. rewrite E.
      apply IH; unfold strings.ReplaceAll; lia.
    + destruct fuel'; [done |]. cbn [collapse_dashes]. by rewrite E.
Qed.

Lemma collapse_dashes_Forall (P : byte → Prop) fuel s :
  Forall P s → Forall P (collapse_dashes fuel s).
Proof.
  revert s. induction fuel as [|fuel IH]; intros s Hs; [done |].
  cbn [collapse_dashes]. destruct (strings.Contains s (b "--")); [| done].
  apply IH. by apply replace_dd_Forall.
Qed.

Lemma collapse_dashes_hash fuel s :
  ∃ s', collapse_dashes fuel (hash :: s) = hash :: s'.
Proof.
  revert s. induction fuel as [|fuel IH]; intros s; [by eauto |].
  cbn [collapse_dashes]. destruct (strings.Contains (hash :: s) (b "--")); [| by eauto].
  destruct (replace_dd_hash s) as [s' ->]. apply IH.
Qed.

Lemma collapse_dashes_id fuel s :
  strings.Contains s (b "--") = false → collapse_dashes fuel s = s.
Proof. intros H. destruct fuel; [done |]. cbn [collapse_dashes]. by rewrite H. Qed.

(** The regular expression *)
Lemma remove_invalid_symbols_Forall (P : byte → Prop) s :
  Forall P s →
  Forall (λ c, P c ∧ is_invalid_symbol c = false) (remove_invalid_symbols s).
Proof.
  induction 1 as [|c s Hc _ IH]; [done |]. unfold remove_invalid_symbols in *.
  cbn [List.filter]. destruct (is_invalid_symbol c) eqn:E; [done |].
  by apply Forall_cons_2.
Qed.

Lemma remove_invalid_symbols_hash s :
  remove_invalid_symbols (hash :: s) = hash :: remove_invalid_symbols s.
Proof. done. Qed.

Lemma remove_invalid_symbols_id s :
  Forall (λ c, is_invalid_symbol c = false) s → remove_invalid_symbols s = s.
Proof.
  induction 1 as [|c s Hc _ IH]; [done |]. unfold remove_invalid_symbols in *.
  cbn [List.filter]. by rewrite Hc, IH.
Qed.

(** [TrimRight(name, "-")] *)
Lemma TrimRight_prefix s cut : strings.TrimRight s cut `prefix_of` s.
Proof.
  induction s as [|c s IH]; [done |]. cbn [strings.TrimRight].
  destruct (strings.TrimRight s cut) as [|d t].
  - destruct (existsb _ cut); [apply prefix_nil |].
    apply prefix_cons, prefix_nil.
  - by apply prefix_cons.
Qed.

Lemma TrimRight_last s : last (strings.TrimRight s (b "-")) ≠ Some dash.
Proof.
  induction s as [|c s IH]; [done |]. cbn [strings.TrimRight].
  destruct (strings.TrimRight s (b "-")) as [|d t].
  - change (existsb (Byte.eqb c) (b "-")) with (Byte.eqb c dash || false).
    rewrite orb_false_r. destruct (Byte.eqb c dash) eqn:E; [done |].
    apply byte_eqb_neq in E. simpl. congruence.
  - by rewrite last_cons_cons.
Qed.

Lemma TrimRight_hash s : ∃ s', strings.TrimRight (hash :: s) (b "-") = hash :: s'.
Proof.
  cbn [strings.TrimRight]. destruct (strings.TrimRight s (b "-")); eauto.
Qed.

Lemma TrimRight_id s : last s ≠ Some dash → strings.TrimRight s (b "-") = s.
Proof.
  induction s as [|c s IH]; [done |]. intros Hlast. cbn [strings.TrimRight].
  destruct s as [|d s].
  - cbn [strings.TrimRight].
    change (existsb (Byte.eqb c) (b "-")) with (Byte.eqb c dash || false).
    rewrite orb_false_r. destruct (Byte.eqb c dash) eqn:E; [| done].
    apply byte_eqb_eq in E. subst c. done.
  - rewrite last_cons_cons in Hlast. rewrite IH by done. done.
Qed.
End replace.

Lemma HasPrefix_hash s : strings.HasPrefix s (b "#") = true ↔ ∃ t, s = hash :: t.
Proof.
  destruct s as [|c s]; simpl.
  - split; [done | by intros [? ?]].
  - rewrite andb_true_r, byte_eqb_eq. naive_solver.
Qed.

Lemma Forall_prefix {A} (P : A → Prop) (l l' : list A) :
  l' `prefix_of` l → Forall P l → Forall P l'.
Proof. intros [q ->] H. by apply Forall_app in H as [? _]. Qed.

Lemma cleanRoomName_shape (tbl : Z → Z) name :
  (∀ r, (0x7F < r)%Z → ¬ (0x41 ≤ tbl r ≤ 0x5A)%Z) →
  cleanRoomName tbl name = [] ∨ well_cleaned (cleanRoomName tbl name).
Proof.
  intros Htbl. unfold cleanRoomName.
  set (n1 := if strings.HasPrefix name (b "#") then name else b "#" ++ name).
  assert (∃ t, n1 = hash :: t) as [t1 ->].
  { unfold n1. destruct (strings.HasPrefix name (b "#")) eqn:E.
    - by apply HasPrefix_hash.
    - by exists name. }
  pose proof (ToLower_not_upper tbl Htbl (hash :: t1)) as Hup.
  destruct (ToLower_hash tbl t1) as [t2 E2]. rewrite E2 in *. clear E2.
  rewrite ReplaceAll_space. cbn [map]. change (Byte.eqb hash space) with false. cbn iota.
  set (t3 := map (λ c, if Byte.eqb c space then dash else c) t2).
  assert (Forall (λ c, c ≠ space ∧ strings.isUpper c = false) (hash :: t3)) as H3.
  { apply Forall_cons_2; [done |]. apply Forall_cons in Hup as [_ Hup].
    unfold t3. apply Forall_forall. intros c [c0 [-> Hc0]]%list_elem_of_fmap.
    destruct (Byte.eqb c0 space) eqn:E; [done |]. apply byte_eqb_neq in E.
    split; [done |]. by apply (proj1 (Forall_forall _ _) Hup). }
  apply remove_invalid_symbols_Forall in H3.
  rewrite remove_invalid_symbols_hash in *.
  set (t4 := remove_invalid_symbols t3) in *.
  assert (Forall clean_byte (hash :: t4)) as H4.
  { eapply Forall_impl; [exact H3 |]. intros c [[? ?] ?]. by split_and!. }
  clear H3.
  pose proof (collapse_dashes_no_dd (length (hash :: t4)) (hash :: t4) (le_n _)) as Hdd.
  pose proof (collapse_dashes_Forall clean_byte (length (hash :: t4)) _ H4) as H5.
  destruct (collapse_dashes_hash (length (hash :: t4)) t4) as [t5 E5].
  rewrite E5 in *.
  pose proof (TrimRight_prefix (hash :: t5) (b "-")) as Hpre6.
  pose proof (TrimRight_last (hash :: t5)) as Hlast6.
  destruct (TrimRight_hash t5) as [t6 E6]. rewrite E6 in *.
  set (n7 := if (20 <? length (hash :: t6))%nat
             then strings.TrimRight (take 20 (hash :: t6)) (b "-")
             else hash :: t6).
  assert ((∃ t7, n7 = hash :: t7) ∧ n7 `prefix_of` (hash :: t6) ∧
          length n7 ≤ 20 ∧ last n7 ≠ Some dash) as ([t7 E7] & Hpre7 & Hlen7 & Hlast7).
  { unfold n7. destruct (Nat.ltb_spec 20 (length (hash :: t6))) as [Hlt|Hge].
    - cbn [take]. split_and!.
      + apply TrimRight_hash.
      + etrans; [apply TrimRight_prefix |]. apply (prefix_take (hash :: t6) 20).
      + etrans; [apply prefix_length, TrimRight_prefix |].
        cbn [length]. rewrite length_take. lia.
      + apply (TrimRight_last (hash :: take 19 t6)).
    - split_and!; [by eauto | done | done | done]. }
  destruct (Nat.leb_spec (length n7) 1) as [Hshort|Hlong]; [by left |].
  right. assert (n7 `prefix_of` (hash :: t5)) as Hpre by (by etrans).
  split.
  - eauto.
  - lia.
  - by apply (Forall_prefix _ _ _ Hpre).
  - by apply (Contains_prefix _ _ _ Hpre).
  - done.
Qed.

Lemma cleanRoomName_fixed (tbl : Z → Z) y :
  well_cleaned y → strings.ToLower tbl y = y → cleanRoomName tbl y = y.
Proof.
  intros [[t Ht] Hlen Hbytes Hdd Hlast] Hlower. unfold cleanRoomName.
  assert (strings.HasPrefix y (b "#") = true) as -> by (apply HasPrefix_hash; eauto).
  rewrite Hlower.
  rewrite ReplaceAll_space_id by (eapply Forall_impl; [exact Hbytes |]; by intros c [? _]).
  rewrite remove_invalid_symbols_id
    by (eapply Forall_impl; [exact Hbytes |]; by intros c (_ & _ & ?)).
  rewrite collapse_dashes_id by done. rewrite TrimRight_id by done.
  destruct (Nat.ltb_spec 20 (length y)); [lia |].
  destruct (Nat.leb_spec (length y) 1); [lia | done].
Qed.

Lemma well_cleaned_ascii_lower (tbl : Z → Z) y :
  well_cleaned y → forallb strings.isASCII y = true → strings.ToLower tbl y = y.
Proof.
  intros [_ _ Hbytes _ _] Hascii. apply ToLower_ascii_lower; [done |].
  destruct (existsb strings.isUpper y) eqn:E; [| done].
  apply existsb_exists in E as (c & Hc%list_elem_of_In & Hup).
  apply (proj1 (Forall_forall _ _) Hbytes) in Hc as (_ & Hc & _). congruence.
Qed.

(** C10, what the code achieves: the result of [cleanRoomName] is empty, or
    it begins with '#', is 2 to 20 bytes long, has no space, no upper-case
    ASCII letter, none of the characters !@$%^&*()_=, no "--" and no final
    '-'; and such a result is returned unchanged when it is cleaned again,
    provided [strings.ToLower] leaves it unchanged, which it does for every
    result made of ASCII bytes.  The case table of [unicode.ToLower] is any
    function that never yields an upper-case ASCII letter.  Where the cut
    at 20 goes through a character the result is not returned unchanged:
    see the lemma after the witness. *)
Theorem cleanRoomName_clean (tbl : Z → Z) (name : bytes) :
  (∀ r, (0x7F < r)%Z → ¬ (0x41 ≤ tbl r ≤ 0x5A)%Z) →
  cleanRoomName tbl name = [] ∨
  (strings.HasPrefix (cleanRoomName tbl name) (b "#") = true ∧
   2 ≤ length (cleanRoomName tbl name) ≤ 20 ∧
   (∀ c, c ∈ cleanRoomName tbl name →
      c ≠ space ∧ strings.isUpper c = false ∧ is_invalid_symbol c = false) ∧
   strings.Contains (cleanRoomName tbl name) (b "--") = false ∧
   last (cleanRoomName tbl name) ≠ Some dash ∧
   (strings.ToLower tbl (cleanRoomName tbl name) = cleanRoomName tbl name →
    cleanRoomName tbl (cleanRoomName tbl name) = cleanRoomName tbl name) ∧
   (forallb strings.isASCII (cleanRoomName tbl name) = true →
    strings.ToLower tbl (cleanRoomName tbl name) = cleanRoomName tbl name)).
Proof.
  intros Htbl. destruct (cleanRoomName_shape tbl name Htbl) as [H | H]; [by left |].
  right. pose proof H as [Hhash Hlen Hbytes Hdd Hlast]. split_and!.
  - by apply HasPrefix_hash.
  - lia.
  - lia.
  - intros c Hc. by apply (proj1 (Forall_forall _ _) Hbytes).
  - done.
  - done.
  - by apply cleanRoomName_fixed.
  - by apply well_cleaned_ascii_lower.
Qed.


Lemma cleanRoomName_clean_witness :
  cleanRoomName unicode.latin1 (b "General  Chat!") = [] ∨
  (strings.HasPrefix (cleanRoomName unicode.latin1 (b "General  Chat!")) (b "#") = true ∧
   2 ≤ length (cleanRoomName unicode.latin1 (b "General  Chat!")) ≤ 20 ∧
   (∀ c, c ∈ cleanRoomName unicode.latin1 (b "General  Chat!") →
      c ≠ space ∧ strings.isUpper c = false ∧ is_invalid_symbol c = false) ∧
   strings.Contains (cleanRoomName unicode.latin1 (b "General  Chat!")) (b "--") = false ∧
   last (cleanRoomName unicode.latin1 (b "General  Chat!")) ≠ Some dash ∧
   (strings.ToLower unicode.latin1 (cleanRoomName unicode.latin1 (b "General  Chat!")) = cleanRoomName unicode.latin1 (b "General  Chat!") →
    cleanRoomName unicode.latin1 (cleanRoomName unicode.latin1 (b "General  Chat!")) = cleanRoomName unicode.latin1 (b "General  Chat!")) ∧
   (forallb strings.isASCII (cleanRoomName unicode.latin1 (b "General  Chat!")) = true →
    strings.ToLower unicode.latin1 (cleanRoomName unicode.latin1 (b "General  Chat!")) = cleanRoomName unicode.latin1 (b "General  Chat!"))).
Proof.
  apply (cleanRoomName_clean unicode.latin1 (b "General  Chat!")).
  intros r Hr. unfold unicode.latin1. case_match; lia.
Defined.

Example cleanRoomName_general :
  cleanRoomName unicode.latin1 (b "General  Chat!") = b "#general-chat".
Proof. vm_compute. reflexivity. Qed.

(** C10, where the code goes wrong: with its '#' the name of 18 letters
    and "é" has 20 characters, but the cut [name[:20]] counts bytes and
    splits the two bytes of "é", so the cleaned name ends in the lone byte
    C3; cleaning it again turns that byte into the encoding of U+FFFD, of
    which EF is left after the cut. *)
Lemma cleanRoomName_not_idempotent :
  cleanRoomName unicode.latin1 long_name
    = b "#aaaaaaaaaaaaaaaaaa" ++ [Byte.xc3] ∧
  cleanRoomName unicode.latin1 (cleanRoomName unicode.latin1 long_name)
    = b "#aaaaaaaaaaaaaaaaaa" ++ [Byte.xef] ∧
  cleanRoomName unicode.latin1 long_name ≠ [] ∧
  cleanRoomName unicode.latin1 (cleanRoomName unicode.latin1 long_name)
    ≠ cleanRoomName unicode.latin1 long_name.
Proof. split_and!; vm_compute; first [reflexivity | discriminate]. Qed.

(** * Further properties of the hub

    ** The capacity of the queues *)

Lemma queues_bounded_insert s cs rs c cl' :
  queues_bounded s → length (buf (send cl')) ≤ send_capacity →
  queues_bounded {| clients := cs; rooms := rs; heap := <[c := cl']> (heap s) |}.
Proof.
  intros H Hl c' cl''. simpl. destruct (decide (c' = c)) as [->|Hne].
  - rewrite lookup_insert_eq. by intros [= <-].
  - rewrite lookup_insert_ne by done. apply H.
Qed.

Lemma queues_bounded_frame s cs rs :
  queues_bounded s → queues_bounded {| clients := cs; rooms := rs; heap := heap s |}.
Proof. intros H c cl. apply H. Qed.

Lemma removeClientFromRoom_bounded c r s s' :
  queues_bounded s → removeClientFromRoom c r s = Some s' → queues_bounded s'.
Proof.
  intros Hb. unfold removeClientFromRoom.
  destruct (rooms s !! r); [| by intros [= <-]].
  destruct (heap s !! c) as [cl|] eqn:Hc; simpl; [| done].
  intros [= <-]. apply queues_bounded_insert; [done |]. exact (Hb c cl Hc).
Qed.

Lemma remove_from_rooms_bounded c rs s s' :
  queues_bounded s → remove_from_rooms c rs s = Some s' → queues_bounded s'.
Proof.
  revert s. induction rs as [|r rest IH]; intros s Hb; simpl.
  - by intros [= <-].
  - destruct (removeClientFromRoom c r s) as [s1|] eqn:H1; simpl; [| done].
    apply IH. by apply (removeClientFromRoom_bounded c r s).
Qed.

Lemma addClientToRoom_bounded c r s s' :
  queues_bounded s → addClientToRoom c r s = Some s' → queues_bounded s'.
Proof.
  intros Hb. unfold addClientToRoom.
  destruct (decide _); [intros [= <-]; by apply queues_bounded_frame |].
  destruct (heap s !! c) as [cl|] eqn:Hc; simpl; [| done].
  intros [= <-]. apply queues_bounded_insert; [done |]. exact (Hb c cl Hc).
Qed.

Lemma broadcast_loop_bounded targets m s s' :
  queues_bounded s → broadcast_loop targets m s = Some s' → queues_bounded s'.
Proof.
  revert s. induction targets as [|c rest IH]; intros s Hb; simpl.
  - by intros [= <-].
  - destruct (heap s !! c) as [cl|] eqn:Hc; simpl; [| done].
    unfold select_send. destruct (closed (send cl)) eqn:Hopen; [done |].
    destruct (decide _) as [Hlt|Hge].
    + apply IH. apply queues_bounded_insert; [done |]. simpl.
      rewrite length_app. simpl. lia.
    + rewrite (close_chan_open _ Hopen). simpl.
      apply IH. apply queues_bounded_insert; [done |]. simpl. exact (Hb c cl Hc).
Qed.

Lemma health_loop_bounded now cs s s' :
  queues_bounded s → health_loop now cs s = Some s' → queues_bounded s'.
Proof.
  revert s. induction cs as [|c rest IH]; intros s Hb; simpl.
  - by intros [= <-].
  - destruct (heap s !! c) as [cl|] eqn:Hc; simpl; [| done].
    destruct (decide _); [| by apply IH].
    apply IH. apply queues_bounded_insert; [done |]. exact (Hb c cl Hc).
Qed.

Lemma handleMessage_bounded env c msg s s' evs :
  queues_bounded s → handleMessage env c msg s = Some (s', evs) → queues_bounded s'.
Proof.
  intros Hb. unfold handleMessage.
  destruct (String.eqb _ "join_room").
  { unfold handleJoinRoom. destruct (as_JoinRoomData _) as [jd|]; [| by intros [= <- _]].
    destruct (heap s !! c) as [cl|]; simpl; [| done].
    destruct (IsUserInHall _ _ _) as [[|]|]; try by intros [= <- _].
    destruct (GetRoomByID _ _) as [room|]; [| by intros [= <- _]].
    destruct (decide _); [| by intros [= <- _]].
    destruct (addClientToRoom _ _ _) as [s1|] eqn:H1; simpl; [| done].
    intros [= <- _]. by apply addClientToRoom_bounded in H1. }
  destruct (String.eqb _ "leave_room").
  { unfold handleLeaveRoom. destruct (as_leave_room _) as [r|]; [| by intros [= <- _]].
    destruct (heap s !! c) as [cl|]; simpl; [| done].
    destruct (removeClientFromRoom _ _ _) as [s1|] eqn:H1; simpl; [| done].
    intros [= <- _]. by apply removeClientFromRoom_bounded in H1. }
  destruct (String.eqb _ "send_message").
  { unfold handleSendMessage. destruct (as_SendMessageData _) as [sd|]; [| by intros [= <- _]].
    destruct (decide _); [by intros [= <- _] |].
    destruct (heap s !! c) as [cl|]; simpl; [| done].
    destruct (decide _); [| by intros [= <- _]].
    destruct (SaveMessage _ _ _ _); by intros [= <- _]. }
  destruct (String.eqb _ "ping"); [| by intros [= <- _]].
  destruct (heap s !! c) as [cl|] eqn:Hc; simpl; [| done]. intros [= <- _].
  apply queues_bounded_insert; [done |]. exact (Hb c cl Hc).
Qed.

Lemma exec_bounded cmd s s' :
  queues_bounded s → exec cmd s = Some s' → queues_bounded s'.
Proof.
  intros Hb.
  destruct cmd as [sess now|c0|msg|now|env c0 f|now c0|c0|ok c0]; simpl.
  - rewrite HandleConnection_eq. intros [= <-].
    apply queues_bounded_insert; [done |]. simpl. lia.
  - unfold unregister. destruct (heap s !! c0) as [cl|] eqn:Hc; simpl; [| done].
    destruct (decide (c0 ∈ clients s)); [| by intros [= <-]].
    destruct (close_chan (send cl)) as [ch0|] eqn:Hclose; simpl; [| done].
    apply remove_from_rooms_bounded. apply queues_bounded_insert; [done |]. simpl.
    apply close_chan_closed in Hclose as [_ ->]. exact (Hb c0 cl Hc).
  - by apply broadcast_loop_bounded.
  - by apply health_loop_bounded.
  - unfold readPump_iter. destruct (heap s !! c0) as [cl|] eqn:Hc; simpl; [| done].
    destruct (ReadMessage cl f) as [| |msg]; simpl.
    + intros [= <-]. apply queues_bounded_insert; [done |]. exact (Hb c0 cl Hc).
    + by intros [= <-].
    + destruct (handleMessage env c0 msg s) as [[s1 evs]|] eqn:H1; simpl; [| done].
      intros [= <-]. by apply handleMessage_bounded in H1.
  - unfold PongHandler. destruct (heap s !! c0) as [cl|] eqn:Hc; simpl; [| done].
    intros [= <-]. apply queues_bounded_insert; [done |]. exact (Hb c0 cl Hc).
  - unfold writePump_recv. destruct (heap s !! c0) as [cl|] eqn:Hc; simpl; [| done].
    pose proof (Hb c0 cl Hc) as Hl.
    destruct (buf (send cl)) as [|m rest] eqn:Hbuf.
    + destruct (closed (send cl)); intros [= <-]; [| done].
      apply queues_bounded_insert; [done |]. simpl. by rewrite Hbuf.
    + intros [= <-]. apply queues_bounded_insert; [done |]. simpl. simpl in Hl. lia.
  - unfold writePump_tick. destruct (heap s !! c0) as [cl|] eqn:Hc; simpl; [| done].
    destruct ok; intros [= <-]; [done |].
    apply queues_bounded_insert; [done |]. exact (Hb c0 cl Hc).
Qed.

Lemma reachable_bounded s : reachable s → queues_bounded s.
Proof.
  induction 1 as [|s cmd s' _ IH Hexec].
  - intros c cl. simpl. by rewrite lookup_empty.
  - by apply (exec_bounded cmd s).
Qed.

(** X1: in every state the system can reach, no client's queue holds more
    than 256 messages. *)
Theorem queue_never_exceeds_capacity s c cl :
  reachable s → heap s !! c = Some cl → length (buf (send cl)) ≤ 256.
Proof. intros Hr Hc. by apply (reachable_bounded s Hr c cl). Qed.

Lemma queue_never_exceeds_capacity_witness : length (buf (send alice_full)) ≤ 256.
Proof.
  apply (queue_never_exceeds_capacity room7_full 1%positive alice_full).
  - apply room7_full_reachable.
  - vm_compute. reflexivity.
Defined.

(** ** What a broadcast that returns has done *)

Lemma member_in_heap s r c : hub_inv s → c ∈ members s r → is_Some (heap s !! c).
Proof.
  intros Hinv Hin. apply (inv_consistent s Hinv) in Hin.
  unfold memberships in Hin. destruct (heap s !! c); [done | set_solver].
Qed.

Lemma broadcast_effect msg s s' :
  hub_inv s → broadcast msg s = Some s' →
  rooms s' = rooms s ∧
  (∀ c, c ∈ members s (RoomID msg) → ¬ is_closed s c) ∧
  (∀ c, heap s' !! c = delivered (Message msg) (members s (RoomID msg)) c <$> heap s !! c) ∧
  (∀ c, c ∈ clients s' ↔
        c ∈ clients s ∧
        ¬ (c ∈ members s (RoomID msg) ∧ ∃ cl, heap s !! c = Some cl ∧ queue_full cl)).
Proof.
  intros Hinv Hb. unfold broadcast in Hb. fold (members s (RoomID msg)) in Hb.
  assert (Hopen : ∀ c, c ∈ members s (RoomID msg) → ¬ is_closed s c).
  { intros c Hin Hcl. by rewrite (broadcast_loop_panics _ _ _ c Hin Hcl) in Hb. }
  destruct (broadcast_loop_effect (members s (RoomID msg)) (Message msg) s)
    as (s1 & H1 & Hheap & Hclients).
  { apply (inv_nodup s Hinv). }
  { intros c Hin. destruct (member_in_heap s _ c Hinv Hin) as [cl Hc].
    exists cl. split; [done |]. destruct (closed (send cl)) eqn:E; [| done].
    destruct (Hopen c Hin). exists (send cl). unfold send_of. by rewrite Hc. }
  rewrite H1 in Hb. injection Hb as <-.
  split_and!; try done. by apply broadcast_loop_rooms in H1.
Qed.

Lemma deliver_room m cl :
  length (buf (send cl)) < send_capacity →
  deliver m cl = set_send {| buf := buf (send cl) ++ [m]; closed := false |} cl.
Proof. intros H. unfold deliver. by rewrite decide_True. Qed.

(** X2: messages are queued in the order of the broadcasts and written in
    that order: after two broadcasts to a room, the queue of a member that
    had room for both is its old queue followed by the first and then the
    second message, and the write loop takes the message at the front. *)
Theorem broadcast_fifo s r m1 m2 s1 s2 c cl :
  reachable s →
  broadcast {| RoomID := r; Message := m1 |} s = Some s1 →
  broadcast {| RoomID := r; Message := m2 |} s1 = Some s2 →
  c ∈ members s r → heap s !! c = Some cl →
  length (buf (send cl)) + 2 ≤ send_capacity →
  heap s2 !! c = Some (set_send {| buf := buf (send cl) ++ [m1; m2]; closed := false |} cl) ∧
  ∃ s3, writePump_recv c s2 = Some s3 ∧
        heap s3 !! c
        = Some (set_send {| buf := drop 1 (buf (send cl) ++ [m1; m2]); closed := false |} cl).
Proof.
  intros Hr H1 H2 Hin Hc Hlen.
  pose proof (reachable_inv s Hr) as Hinv.
  pose proof (broadcast_inv _ _ _ Hinv H1) as Hinv1.
  apply (broadcast_effect _ _ _ Hinv) in H1 as (Hrooms & _ & Hheap1 & _).
  apply (broadcast_effect _ _ _ Hinv1) in H2 as (_ & _ & Hheap2 & _).
  simpl in *.
  assert (Hm : members s1 r = members s r) by (unfold members; by rewrite Hrooms).
  assert (Hc2 : heap s2 !! c
    = Some (set_send {| buf := buf (send cl) ++ [m1; m2]; closed := false |} cl)).
  { rewrite Hheap2, Hheap1, Hc, Hm. simpl. rewrite !delivered_in by done.
    rewrite (deliver_room m1 cl) by lia. rewrite deliver_room.
    - simpl. unfold set_send. simpl. by rewrite <- app_assoc.
    - simpl. rewrite length_app. simpl. lia. }
  split; [done |]. unfold writePump_recv. rewrite Hc2. simpl.
  destruct (buf (send cl)) as [|m0 rest]; simpl; eexists; (split; [done |]);
    simpl; by rewrite lookup_insert_eq.
Qed.

Lemma broadcast_fifo_witness :
  heap sent_a_b !! 1%positive
  = Some (set_send {| buf := buf (send alice_joined) ++ [b "a"; b "b"]; closed := false |}
            alice_joined) ∧
  ∃ s3, writePump_recv 1%positive sent_a_b = Some s3 ∧
        heap s3 !! 1%positive
        = Some (set_send {| buf := drop 1 (buf (send alice_joined) ++ [b "a"; b "b"]);
                            closed := false |} alice_joined).
Proof.
  apply (broadcast_fifo two_in_room 7 (b "a") (b "b") sent_a sent_a_b 1%positive alice_joined).
  - apply two_in_room_reachable.
  - vm_compute. reflexivity.
  - vm_compute. reflexivity.
  - vm_compute. apply list_elem_of_here.
  - vm_compute. reflexivity.
  - vm_compute. lia.
Defined.

(** ** The write loop drains a queue *)

Lemma set_send_same cl : set_send {| buf := buf (send cl); closed := closed (send cl) |} cl = cl.
Proof. by destruct cl as [? ? [] ? ?]. Qed.

Lemma writePump_drain n : ∀ c s cl,
  heap s !! c = Some cl → length (buf (send cl)) = n →
  ∃ s1, exec_all (replicate n (CmdWrite c)) s = Some s1 ∧
    clients s1 = clients s ∧ rooms s1 = rooms s ∧
    heap s1 = <[c := set_send {| buf := []; closed := closed (send cl) |} cl]> (heap s).
Proof.
  induction n as [|n IH]; intros c s cl Hc Hn.
  - exists s. simpl. split_and!; try done.
    destruct (buf (send cl)) eqn:Hbuf; [| done].
    rewrite <- Hbuf, set_send_same. by rewrite insert_id.
  - simpl. unfold writePump_recv. rewrite Hc. simpl.
    destruct (buf (send cl)) as [|m rest] eqn:Hbuf; [done |]. simpl in Hn.
    set (cl1 := set_send {| buf := rest; closed := closed (send cl) |} cl).
    set (s0 := {| clients := clients s; rooms := rooms s; heap := <[c := cl1]> (heap s) |}).
    destruct (IH c s0 cl1) as (s1 & H1 & Hcs & Hrs & Hh).
    { simpl. by rewrite lookup_insert_eq. }
    { simpl. lia. }
    exists s1. split_and!; try done.
    rewrite Hh. simpl. by rewrite insert_insert_eq.
Qed.

(** X3: the write loop empties a queue by as many steps as it holds
    messages, touching nothing else; at the empty queue the next step
    closes the transport when the queue is closed, and waits (changes
    nothing) when it is open. *)
Theorem writePump_drains_then_closes s c cl :
  heap s !! c = Some cl →
  ∃ s1, exec_all (replicate (length (buf (send cl))) (CmdWrite c)) s = Some s1 ∧
    clients s1 = clients s ∧ rooms s1 = rooms s ∧
    heap s1 = <[c := set_send {| buf := []; closed := closed (send cl) |} cl]> (heap s) ∧
    writePump_recv c s1
    = Some (if closed (send cl)
            then {| clients := clients s; rooms := rooms s;
                    heap := <[c := set_conn_closed
                                     (set_send {| buf := []; closed := true |} cl)]> (heap s) |}
            else s1).
Proof.
  intros Hc. destruct (writePump_drain _ c s cl Hc eq_refl) as (s1 & H1 & Hcs & Hrs & Hh).
  exists s1. split_and!; try done.
  unfold writePump_recv. rewrite Hh, lookup_insert_eq. simpl.
  destruct (closed (send cl)); [| done].
  by rewrite Hcs, Hrs, insert_insert_eq.
Qed.

Lemma writePump_drains_then_closes_witness :
  ∃ s1, exec_all (replicate (length (buf (send alice_full))) (CmdWrite 1%positive)) room7_full
        = Some s1 ∧
    clients s1 = clients room7_full ∧ rooms s1 = rooms room7_full ∧
    heap s1 = <[1%positive := set_send {| buf := []; closed := closed (send alice_full) |}
                                alice_full]> (heap room7_full) ∧
    writePump_recv 1%positive s1
    = Some (if closed (send alice_full)
            then {| clients := clients room7_full; rooms := rooms room7_full;
                    heap := <[1%positive := set_conn_closed
                                (set_send {| buf := []; closed := true |} alice_full)]>
                              (heap room7_full) |}
            else s1).
Proof.
  apply (writePump_drains_then_closes room7_full 1%positive alice_full).
  vm_compute. reflexivity.
Defined.

(** ** The order of [range] over a map *)

(** X4: the state after [unregister] does not depend on the order in
    which [range client.rooms] yields the client's rooms. *)
Theorem unregister_order_irrelevant order c s cl :
  heap s !! c = Some cl → order ≡ₚ elements (client_rooms cl) →
  unregister_in_order order c s = unregister c s.
Proof.
  intros Hc Hperm. unfold unregister_in_order, unregister. rewrite Hc. simpl.
  destruct (decide _); [| done].
  destruct (close_chan (send cl)); simpl; [| done].
  by apply remove_from_rooms_perm.
Qed.

Lemma unregister_order_irrelevant_witness :
  unregister_in_order [8; 7]%Z 1%positive alice_two_rooms
  = unregister 1%positive alice_two_rooms.
Proof.
  apply (unregister_order_irrelevant [8; 7]%Z 1%positive alice_two_rooms alice_in_7_8).
  - vm_compute. reflexivity.
  - vm_compute. apply perm_swap.
Defined.

Lemma health_loop_swap now c1 c2 rest s :
  health_loop now (c1 :: c2 :: rest) s = health_loop now (c2 :: c1 :: rest) s.
Proof.
  destruct (decide (c1 = c2)) as [->|Hne]; [done |]. simpl.
  destruct (heap s !! c1) as [cl1|] eqn:H1; destruct (heap s !! c2) as [cl2|] eqn:H2; simpl.
  - destruct (decide (time_Since now (lastPing cl1) > health_timeout)%Z);
      destruct (decide (time_Since now (lastPing cl2) > health_timeout)%Z); simpl;
      rewrite ?lookup_insert_ne, ?H1, ?H2 by done; simpl;
      rewrite ?decide_True, ?decide_False by done; try done.
    by rewrite insert_insert_ne.
  - destruct (decide _); simpl; [| done]. by rewrite lookup_insert_ne, H2.
  - destruct (decide _); simpl; [| done]. by rewrite lookup_insert_ne, H1.
  - done.
Qed.

Lemma health_loop_perm now cs cs' :
  cs ≡ₚ cs' → ∀ s, health_loop now cs s = health_loop now cs' s.
Proof.
  induction 1 as [|c l l' _ IH|c1 c2 l|l1 l2 l3 _ IH1 _ IH2]; intros s.
  - done.
  - simpl. destruct (heap s !! c); simpl; [| done]. destruct (decide _); apply IH.
  - apply health_loop_swap.
  - by rewrite IH1.
Qed.

Lemma swept_twice now cs c cl : swept now cs c (swept now cs c cl) = swept now cs c cl.
Proof.
  unfold swept. destruct (decide (c ∈ cs ∧ stale now cl)) as [H|H].
  - rewrite decide_True by done. apply set_conn_closed_twice.
  - by rewrite decide_False.
Qed.

Lemma clients_in_heap s c : hub_inv s → c ∈ clients s → is_Some (heap s !! c).
Proof.
  intros Hinv Hin. destruct (inv_live_open s Hinv c Hin) as (ch & Hch & _).
  unfold send_of in Hch. by destruct (heap s !! c).
Qed.

(** X5: the sweep of [checkClientHealth] gives the same state in whatever
    order [range m.clients] yields the clients, and a second sweep at the
    same instant changes nothing. *)
Theorem sweep_order_irrelevant s now order :
  reachable s → order ≡ₚ elements (clients s) →
  health_loop now order s = checkClientHealth now s ∧
  ∃ s', checkClientHealth now s = Some s' ∧ checkClientHealth now s' = Some s'.
Proof.
  intros Hr Hperm. pose proof (reachable_inv s Hr) as Hinv.
  split; [by apply health_loop_perm |].
  unfold checkClientHealth.
  destruct (health_loop_effect now (elements (clients s)) s) as (s1 & H1 & Hheap1).
  { intros c Hin. apply (clients_in_heap s c Hinv). by apply elem_of_elements. }
  exists s1. split; [done |].
  pose proof (health_loop_frame _ _ _ _ H1) as (Hcs & Hrs & _ & _).
  rewrite Hcs.
  destruct (health_loop_effect now (elements (clients s)) s1) as (s2 & H2 & Hheap2).
  { intros c Hin. rewrite Hheap1.
    destruct (clients_in_heap s c Hinv) as [cl ->]; [by apply elem_of_elements | by eexists]. }
  rewrite H2. f_equal.
  pose proof (health_loop_frame _ _ _ _ H2) as (Hcs2 & Hrs2 & _ & _).
  destruct s1 as [cs1 rs1 h1], s2 as [cs2 rs2 h2]. simpl in *. subst. f_equal.
  apply map_eq. intros c. rewrite Hheap2, Hheap1.
  destruct (heap s !! c) as [cl|]; simpl; [| done]. by rewrite swept_twice.
Qed.

Lemma sweep_order_irrelevant_witness :
  health_loop (61 * Second) [1; 2]%positive two_in_room
    = checkClientHealth (61 * Second) two_in_room ∧
  ∃ s', checkClientHealth (61 * Second) two_in_room = Some s' ∧
        checkClientHealth (61 * Second) s' = Some s'.
Proof.
  apply (sweep_order_irrelevant two_in_room (61 * Second) [1; 2]%positive).
  - apply two_in_room_reachable.
  - vm_compute. apply perm_swap.
Defined.

(** ** Joining and leaving *)

Lemma index_of_last c l : c ∉ l → index_of c (l ++ [c]) = Some (length l).
Proof.
  unfold index_of. induction l as [|x l IH]; intros Hnin; simpl.
  - by rewrite decide_True.
  - apply not_elem_of_cons in Hnin as [Hne Hnin].
    rewrite decide_False by done. specialize (IH Hnin).
    destruct (list_find _ (l ++ [c])) as [[i y]|]; simpl in *; [| done].
    by injection IH as ->.
Qed.

Lemma cut_last c (l : list ptr) :
  take (length l) (l ++ [c]) ++ drop (S (length l)) (l ++ [c]) = l.
Proof.
  rewrite take_app_length. rewrite drop_ge; [by rewrite app_nil_r |].
  rewrite length_app. simpl. lia.
Qed.

(** X6: a client that joins a room it is not in and then leaves it is
    where it was: its record, the registered clients and every room's
    members are as before; the room's key stays in the rooms map, with the
    old members. *)
Theorem join_leave_round_trip s c r cl :
  reachable s → heap s !! c = Some cl → c ∉ members s r →
  ∃ s1 s2, addClientToRoom c r s = Some s1 ∧ removeClientFromRoom c r s1 = Some s2 ∧
    heap s2 = heap s ∧ clients s2 = clients s ∧
    (∀ r', members s2 r' = members s r') ∧
    rooms s2 = <[r := members s r]> (rooms s).
Proof.
  intros Hr Hc Hnin. pose proof (reachable_inv s Hr) as Hinv.
  assert (Hr0 : r ∉ client_rooms cl).
  { intros Hin. apply Hnin. apply (inv_consistent s Hinv).
    unfold memberships. by rewrite Hc. }
  assert (Hl : ∀ rooms1, rooms1 = match rooms s !! r with
                                  | None => <[r := []]> (rooms s) | Some _ => rooms s end →
                         default [] (rooms1 !! r) = members s r).
  { intros rooms1 ->. unfold members. destruct (rooms s !! r) eqn:E.
    - by rewrite E.
    - by rewrite lookup_insert_eq. }
  unfold addClientToRoom. rewrite (Hl _ eq_refl).
  rewrite decide_False by done. rewrite Hc. simpl.
  eexists. eexists. split; [done |].
  unfold removeClientFromRoom. simpl. rewrite !lookup_insert_eq. simpl.
  rewrite (index_of_last c _ Hnin), cut_last.
  assert (Hrooms : <[r := members s r]>
            (<[r := members s r ++ [c]]>
               (match rooms s !! r with
                | None => <[r := []]> (rooms s) | Some _ => rooms s end))
          = <[r := members s r]> (rooms s)).
  { rewrite insert_insert_eq. destruct (rooms s !! r); [done |].
    by rewrite insert_insert_eq. }
  split; [done |]. simpl. rewrite Hrooms. split_and!; try done.
  - rewrite insert_insert_eq.
    replace (({[r]} ∪ client_rooms cl) ∖ {[r]}) with (client_rooms cl) by set_solver.
    unfold set_client_rooms. simpl.
    apply insert_id. rewrite Hc. by destruct cl.
  - intros r'. unfold members. simpl. destruct (decide (r' = r)) as [->|Hne].
    + rewrite lookup_insert_eq. simpl. done.
    + by rewrite lookup_insert_ne.
Qed.

Lemma join_leave_round_trip_witness :
  ∃ s1 s2, addClientToRoom 1%positive 8 two_in_room = Some s1 ∧
    removeClientFromRoom 1%positive 8 s1 = Some s2 ∧
    heap s2 = heap two_in_room ∧ clients s2 = clients two_in_room ∧
    (∀ r', members s2 r' = members two_in_room r') ∧
    rooms s2 = <[8%Z := members two_in_room 8]> (rooms two_in_room).
Proof.
  apply (join_leave_round_trip two_in_room 1%positive 8 alice_joined).
  - apply two_in_room_reachable.
  - vm_compute. reflexivity.
  - vm_compute. apply not_elem_of_nil.
Defined.

(** X7: after a client has left a room, a broadcast to that room does not
    touch its record; the client stays registered. *)
Theorem leave_stops_delivery s c r s1 m s2 :
  reachable s → removeClientFromRoom c r s = Some s1 →
  broadcast {| RoomID := r; Message := m |} s1 = Some s2 →
  heap s2 !! c = heap s1 !! c ∧ (c ∈ clients s → c ∈ clients s2).
Proof.
  intros Hr H1 H2. pose proof (reachable_inv s Hr) as Hinv.
  pose proof (removeClientFromRoom_inv _ _ _ _ Hinv H1) as Hinv1.
  apply (removeClientFromRoom_effect _ _ _ _ Hinv) in H1 as (Hcs & Hmem & _).
  apply (broadcast_effect _ _ _ Hinv1) in H2 as (_ & _ & Hheap & Hclients). simpl in *.
  assert (Hnin : c ∉ members s1 r). { rewrite Hmem. tauto. }
  split.
  - rewrite Hheap. destruct (heap s1 !! c); simpl; [| done]. by rewrite delivered_out.
  - intros Hin. apply Hclients. rewrite Hcs. tauto.
Qed.

Lemma leave_stops_delivery_witness :
  heap bob_left_sent !! 2%positive = heap bob_left !! 2%positive ∧
  (2%positive ∈ clients two_in_room → 2%positive ∈ clients bob_left_sent).
Proof.
  apply (leave_stops_delivery two_in_room 2%positive 7 bob_left (b "hi") bob_left_sent).
  - apply two_in_room_reachable.
  - vm_compute. reflexivity.
  - vm_compute. reflexivity.
Defined.

(** ** What one client's read loop can touch *)

Lemma addClientToRoom_heap_frame c r s s' c' :
  addClientToRoom c r s = Some s' → c' ≠ c → heap s' !! c' = heap s !! c'.
Proof.
  unfold addClientToRoom. destruct (decide _); [by intros [= <-] |].
  destruct (heap s !! c) as [cl|]; simpl; [| done]. intros [= <-] Hne. simpl.
  by rewrite lookup_insert_ne.
Qed.

Lemma removeClientFromRoom_heap_frame c r s s' c' :
  removeClientFromRoom c r s = Some s' → c' ≠ c → heap s' !! c' = heap s !! c'.
Proof.
  unfold removeClientFromRoom. destruct (rooms s !! r); [| by intros [= <-]].
  destruct (heap s !! c) as [cl|]; simpl; [| done]. intros [= <-] Hne. simpl.
  by rewrite lookup_insert_ne.
Qed.

Lemma handleMessage_own_record env c msg s s' evs :
  hub_inv s → handleMessage env c msg s = Some (s', evs) →
  (∀ c', c' ≠ c → heap s' !! c' = heap s !! c') ∧
  (∀ c' r, c' ≠ c → (c' ∈ members s' r ↔ c' ∈ members s r)) ∧
  (∀ c', SendUnregister c' ∉ evs).
Proof.
  intros Hinv. unfold handleMessage.
  destruct (String.eqb _ "join_room").
  { unfold handleJoinRoom.
    destruct (as_JoinRoomData _) as [jd|]; [| intros [= <- <-]; set_solver].
    destruct (heap s !! c) as [cl|]; simpl; [| done].
    destruct (IsUserInHall _ _ _) as [[|]|]; try (intros [= <- <-]; set_solver).
    destruct (GetRoomByID _ _) as [room|]; [| intros [= <- <-]; set_solver].
    destruct (decide _); [| intros [= <- <-]; set_solver].
    destruct (addClientToRoom _ _ _) as [s1|] eqn:H1; simpl; [| done].
    intros [= <- <-]. split_and!.
    - intros c' Hne. by apply (addClientToRoom_heap_frame c _ s s1 c' H1).
    - intros c' r Hne.
      apply (addClientToRoom_effect _ _ _ _ Hinv) in H1 as (_ & Hmem & _).
      rewrite Hmem. naive_solver.
    - set_solver. }
  destruct (String.eqb _ "leave_room").
  { unfold handleLeaveRoom.
    destruct (as_leave_room _) as [r|]; [| intros [= <- <-]; set_solver].
    destruct (heap s !! c) as [cl|]; simpl; [| done].
    destruct (removeClientFromRoom _ _ _) as [s1|] eqn:H1; simpl; [| done].
    intros [= <- <-]. split_and!.
    - intros c' Hne. by apply (removeClientFromRoom_heap_frame c r s s1 c' H1).
    - intros c' r' Hne.
      apply (removeClientFromRoom_effect _ _ _ _ Hinv) in H1 as (_ & Hmem & _).
      rewrite Hmem. naive_solver.
    - set_solver. }
  destruct (String.eqb _ "send_message").
  { unfold handleSendMessage.
    destruct (as_SendMessageData _) as [sd|]; [| intros [= <- <-]; set_solver].
    destruct (decide _); [intros [= <- <-]; set_solver |].
    destruct (heap s !! c) as [cl|]; simpl; [| done].
    destruct (decide _); [| intros [= <- <-]; set_solver].
    destruct (SaveMessage _ _ _ _); [| intros [= <- <-]; set_solver].
    unfold BroadcastToRoom. destruct (json_Marshal _ _ _); intros [= <- <-]; set_solver. }
  destruct (String.eqb _ "ping"); [| intros [= <- <-]; set_solver].
  destruct (heap s !! c) as [cl|] eqn:Hc; simpl; [| done]. intros [= <- <-]. simpl.
  split_and!.
  - intros c' Hne. by rewrite lookup_insert_ne.
  - done.
  - set_solver.
Qed.

(** X8: one iteration of a client's read loop changes no other client's
    record, no other client's membership of any room, no queue and not the
    set of registered clients; it asks the hub to unregister only its own
    client, and does so exactly when it leaves the loop, which is exactly
    when the read fails. *)
Theorem readPump_iter_own_record env c incoming s s' evs stop :
  reachable s → readPump_iter env c incoming s = Some (s', evs, stop) →
  clients s' = clients s ∧
  (∀ c', c' ≠ c → heap s' !! c' = heap s !! c') ∧
  (∀ c' r, c' ≠ c → (c' ∈ members s' r ↔ c' ∈ members s r)) ∧
  (∀ c', send_of s' c' = send_of s c') ∧
  (∀ c', SendUnregister c' ∈ evs → c' = c) ∧
  (stop = true ↔ SendUnregister c ∈ evs) ∧
  (stop = true ↔ ∃ cl, heap s !! c = Some cl ∧ ReadMessage cl incoming = ReadError).
Proof.
  intros Hr. pose proof (reachable_inv s Hr) as Hinv. unfold readPump_iter.
  destruct (heap s !! c) as [cl|] eqn:Hc; simpl; [| done].
  destruct (ReadMessage cl incoming) as [| |msg] eqn:Hread; simpl.
  - intros [= <- <- <-]. simpl. split_and!; try done.
    + intros c' Hne. by rewrite lookup_insert_ne.
    + intros c'. by apply (send_of_insert_same s _ _ c cl).
    + set_solver.
    + set_solver.
    + split; [| done]. intros _. by exists cl.
  - intros [= <- <- <-]. split_and!; try done; try set_solver.
    split; [done |]. intros (? & [= <-] & ?); congruence.
  - destruct (handleMessage env c msg s) as [[s1 evs1]|] eqn:H1; simpl; [| done].
    intros [= <- <- <-].
    pose proof (handleMessage_frame _ _ _ _ _ _ H1) as [Hcs Hsend].
    apply (handleMessage_own_record _ _ _ _ _ _ Hinv) in H1 as (Hheap & Hmem & Hev).
    split_and!; try done.
    + intros c' Hin. by destruct (Hev c').
    + split; [done |]. intros Hin. by destruct (Hev c).
    + split; [done |]. intros (? & [= <-] & ?); congruence.
Qed.

Lemma readPump_iter_own_record_witness :
  clients alice_two_rooms = clients two_in_room ∧
  (∀ c', c' ≠ 1%positive → heap alice_two_rooms !! c' = heap two_in_room !! c') ∧
  (∀ c' r, c' ≠ 1%positive → (c' ∈ members alice_two_rooms r ↔ c' ∈ members two_in_room r)) ∧
  (∀ c', send_of alice_two_rooms c' = send_of two_in_room c') ∧
  (∀ c', SendUnregister c' ∈ [CallIsUserInHall 1 1; CallGetRoomByID 8] → c' = 1%positive) ∧
  (false = true ↔ SendUnregister 1%positive ∈ [CallIsUserInHall 1 1; CallGetRoomByID 8]) ∧
  (false = true ↔ ∃ cl, heap two_in_room !! 1%positive = Some cl ∧
                        ReadMessage cl (Decoded (join_room 1 8)) = ReadError).
Proof.
  apply (readPump_iter_own_record (env_ok 3) 1%positive (Decoded (join_room 1 8))
           two_in_room alice_two_rooms).
  - apply two_in_room_reachable.
  - vm_compute. reflexivity.
Defined.

(** ** Which steps can panic *)

Lemma handleMessage_total env c msg s :
  is_Some (heap s !! c) → is_Some (handleMessage env c msg s).
Proof.
  intros [cl Hc]. unfold handleMessage.
  destruct (String.eqb _ "join_room").
  { unfold handleJoinRoom. destruct (as_JoinRoomData _) as [jd|]; [| done].
    rewrite Hc. simpl.
    destruct (IsUserInHall _ _ _) as [[|]|]; try done.
    destruct (GetRoomByID _ _) as [room|]; [| done].
    destruct (decide _); [| done].
    destruct (addClientToRoom_total c (join_RoomID jd) s) as [s1 ->]; [by eexists | done]. }
  destruct (String.eqb _ "leave_room").
  { unfold handleLeaveRoom. destruct (as_leave_room _) as [r|]; [| done].
    rewrite Hc. simpl.
    destruct (removeClientFromRoom_total c r s) as [s1 ->]; [by eexists | done]. }
  destruct (String.eqb _ "send_message").
  { unfold handleSendMessage. destruct (as_SendMessageData _) as [sd|]; [| done].
    destruct (decide _); [done |]. rewrite Hc. simpl.
    destruct (decide _); [| done]. by destruct (SaveMessage _ _ _ _). }
  destruct (String.eqb _ "ping"); [| done]. rewrite Hc. done.
Qed.

(** X9: from a state the system can reach, the only step that can panic
    is a broadcast, and it panics exactly when the room's slice holds a
    client whose queue is closed; connecting, unregistering, the health
    sweep and the steps of the read and write loops always return. *)
Theorem only_broadcast_panics s :
  reachable s →
  (∀ sess now, is_Some (HandleConnection sess now s)) ∧
  (∀ now, is_Some (checkClientHealth now s)) ∧
  (∀ c, is_Some (heap s !! c) →
     is_Some (unregister c s) ∧
     (∀ now, is_Some (PongHandler now c s)) ∧
     is_Some (writePump_recv c s) ∧
     (∀ write_ok, is_Some (writePump_tick write_ok c s)) ∧
     (∀ env incoming, is_Some (readPump_iter env c incoming s))) ∧
  (∀ msg, broadcast msg s = None ↔ ∃ c, c ∈ members s (RoomID msg) ∧ is_closed s c).
Proof.
  intros Hr. pose proof (reachable_inv s Hr) as Hinv. split_and!.
  - intros sess now. rewrite HandleConnection_eq. by eexists.
  - intros now. unfold checkClientHealth.
    destruct (health_loop_effect now (elements (clients s)) s) as (s1 & -> & _); [| by eexists].
    intros c Hin. apply (clients_in_heap s c Hinv). by apply elem_of_elements.
  - intros c [cl Hc]. split_and!.
    + destruct (decide (c ∈ clients s)) as [Hin|Hnin].
      * destruct (unregister_evicts c s Hinv Hin) as (s2 & -> & _). by eexists.
      * unfold unregister. rewrite Hc. simpl. by rewrite decide_False.
    + intros now. unfold PongHandler. rewrite Hc. by eexists.
    + unfold writePump_recv. rewrite Hc. simpl.
      destruct (buf (send cl)); [destruct (closed (send cl)) |]; by eexists.
    + intros ok. unfold writePump_tick. rewrite Hc. simpl. destruct ok; by eexists.
    + intros env incoming. unfold readPump_iter. rewrite Hc. simpl.
      destruct (ReadMessage cl incoming) as [| |msg]; simpl; try by eexists.
      destruct (handleMessage_total env c msg s) as [[s1 evs] ->]; [by eexists |].
      by eexists.
  - intros msg. split.
    + intros Hnone.
      destruct (decide (Exists (λ c, closed <$> send_of s c = Some true)
                          (members s (RoomID msg)))) as [Hex|Hno].
      * apply Exists_exists in Hex as (c & Hin & Hc). exists c. split; [done |].
        destruct (send_of s c) as [ch|] eqn:Hs; [| done].
        exists ch. split; [done |]. simpl in Hc. by injection Hc.
      * exfalso. unfold broadcast in Hnone. fold (members s (RoomID msg)) in Hnone.
        destruct (broadcast_loop_effect (members s (RoomID msg)) (Message msg) s)
          as (s1 & H1 & _); [apply (inv_nodup s Hinv) | | congruence].
        intros c Hin. destruct (member_in_heap s _ c Hinv Hin) as [cl Hc].
        exists cl. split; [done |]. destruct (closed (send cl)) eqn:E; [| done].
        destruct Hno. apply Exists_exists. exists c. split; [done |].
        unfold send_of. rewrite Hc. simpl. by rewrite E.
    + intros (c & Hin & Hcl). by apply (broadcast_loop_panics _ _ _ c).
Qed.

Lemma only_broadcast_panics_witness :
  (∀ sess now, is_Some (HandleConnection sess now two_in_room)) ∧
  (∀ now, is_Some (checkClientHealth now two_in_room)) ∧
  (∀ c, is_Some (heap two_in_room !! c) →
     is_Some (unregister c two_in_room) ∧
     (∀ now, is_Some (PongHandler now c two_in_room)) ∧
     is_Some (writePump_recv c two_in_room) ∧
     (∀ write_ok, is_Some (writePump_tick write_ok c two_in_room)) ∧
     (∀ env incoming, is_Some (readPump_iter env c incoming two_in_room))) ∧
  (∀ msg, broadcast msg two_in_room = None
          ↔ ∃ c, c ∈ members two_in_room (RoomID msg) ∧ is_closed two_in_room c).
Proof.
  apply (only_broadcast_panics two_in_room).
  apply two_in_room_reachable.
Defined.

(** ** A closed queue *)

Lemma exec_closed_drains cmd s s' c ch :
  send_of s c = Some ch → closed ch = true → exec cmd s = Some s' →
  ∃ ch', send_of s' c = Some ch' ∧ closed ch' = true ∧ buf ch' `suffix_of` buf ch.
Proof.
  intros Hch Hclosed.
  assert (Hcl : is_closed s c) by (by exists ch).
  assert (Hsame : send_of s' c = send_of s c →
    ∃ ch', send_of s' c = Some ch' ∧ closed ch' = true ∧ buf ch' `suffix_of` buf ch).
  { intros ->. by exists ch. }
  destruct cmd as [sess now|c0|msg|now|env c0 f|now c0|c0|ok c0]; simpl.
  - rewrite HandleConnection_eq. intros [= <-]. apply Hsame.
    rewrite send_of_insert. rewrite decide_False; [done |].
    intros ->. unfold send_of in Hch. by rewrite fresh_not_in_heap in Hch.
  - unfold unregister. destruct (heap s !! c0) as [cl|] eqn:Hc; simpl; [| done].
    destruct (decide (c0 ∈ clients s)); [| by intros [= <-]; apply Hsame].
    destruct (close_chan (send cl)) as [ch0|] eqn:Hclose; simpl; [| done].
    intros H. apply remove_from_rooms_frame in H as (_ & H & _). apply Hsame.
    rewrite H, send_of_insert.
    rewrite decide_False; [done |]. intros ->.
    unfold send_of in Hch. rewrite Hc in Hch. simpl in Hch. injection Hch as <-.
    unfold close_chan in Hclose. by rewrite Hclosed in Hclose.
  - intros H. apply Hsame. by apply (broadcast_loop_skips_closed _ _ _ _ c Hcl) in H.
  - intros H. apply health_loop_frame in H as (_ & _ & H & _). by apply Hsame.
  - unfold readPump_iter. destruct (heap s !! c0) as [cl|] eqn:Hc; simpl; [| done].
    destruct (ReadMessage cl f) as [| |msg]; simpl.
    + intros [= <-]. apply Hsame. by rewrite (send_of_insert_same s _ _ c0 cl).
    + intros [= <-]. by apply Hsame.
    + destruct (handleMessage env c0 msg s) as [[s1 evs]|] eqn:H1; simpl; [| done].
      intros [= <-]. apply handleMessage_frame in H1 as [_ H1]. by apply Hsame.
  - unfold PongHandler. destruct (heap s !! c0) as [cl|] eqn:Hc; simpl; [| done].
    intros [= <-]. apply Hsame. by rewrite (send_of_insert_same s _ _ c0 cl).
  - unfold writePump_recv. destruct (heap s !! c0) as [cl|] eqn:Hc; simpl; [| done].
    destruct (buf (send cl)) as [|m rest] eqn:Hbuf.
    + destruct (closed (send cl)); intros [= <-]; [| by apply Hsame].
      apply Hsame. by rewrite (send_of_insert_same s _ _ c0 cl).
    + intros [= <-]. rewrite send_of_insert. case_decide as Heq; [| by exists ch].
      subst c0. unfold send_of in Hch. rewrite Hc in Hch. simpl in Hch.
      injection Hch as <-. eexists. split; [done |]. simpl. split; [done |].
      rewrite Hbuf. by apply suffix_cons_r.
  - unfold writePump_tick. destruct (heap s !! c0) as [cl|] eqn:Hc; simpl; [| done].
    destruct ok; intros [= <-]; [by apply Hsame |].
    apply Hsame. by rewrite (send_of_insert_same s _ _ c0 cl).
Qed.

Lemma exec_all_closed_drains cmds : ∀ s s' c ch,
  send_of s c = Some ch → closed ch = true → exec_all cmds s = Some s' →
  ∃ ch', send_of s' c = Some ch' ∧ closed ch' = true ∧ buf ch' `suffix_of` buf ch.
Proof.
  induction cmds as [|cmd rest IH]; intros s s' c ch Hch Hclosed; simpl.
  - intros [= <-]. by exists ch.
  - destruct (exec cmd s) as [s1|] eqn:H1; simpl; [| done]. intros H2.
    destruct (exec_closed_drains _ _ _ _ _ Hch Hclosed H1) as (ch1 & Hch1 & Hcl1 & Hsuf1).
    destruct (IH _ _ _ _ Hch1 Hcl1 H2) as (ch2 & Hch2 & Hcl2 & Hsuf2).
    exists ch2. split_and!; try done. by etrans.
Qed.

(** X10: a closed queue is final: whatever the system does afterwards, the
    queue stays closed, no message is ever added to it (it can only be
    drained from the front by the write loop), and its client is never
    among the registered clients again. *)
Theorem closed_queue_is_final s c ch cmds s' :
  reachable s → send_of s c = Some ch → closed ch = true →
  exec_all cmds s = Some s' →
  (c ∉ clients s') ∧
  ∃ ch', send_of s' c = Some ch' ∧ closed ch' = true ∧ buf ch' `suffix_of` buf ch.
Proof.
  intros Hr Hch Hclosed Hexec.
  destruct (exec_all_closed_drains _ _ _ _ _ Hch Hclosed Hexec) as (ch' & Hch' & Hcl' & Hsuf).
  split; [| by exists ch'].
  pose proof (reachable_inv s' (exec_all_reachable _ _ _ Hr Hexec)) as Hinv'.
  intros Hin. destruct (inv_live_open s' Hinv' c Hin) as (ch2 & Hch2 & Hopen).
  congruence.
Qed.

Lemma closed_queue_is_final_witness :
  (2%positive ∉ clients bob_gone_later) ∧
  ∃ ch', send_of bob_gone_later 2%positive = Some ch' ∧ closed ch' = true ∧
         buf ch' `suffix_of` buf {| buf := []; closed := true |}.
Proof.
  apply (closed_queue_is_final bob_gone 2%positive {| buf := []; closed := true |}
           [CmdTick 5; CmdPong 6 1%positive] bob_gone_later).
  - apply (reachable_step two_in_room (CmdUnregister 2%positive)).
    + apply two_in_room_reachable.
    + vm_compute. reflexivity.
  - vm_compute. reflexivity.
  - reflexivity.
  - vm_compute. reflexivity.
Defined.

(** ** From [send_message] to the queues *)

(** X11: a [send_message] of a member of the room, stored by the database
    and encoded, is handed to the hub as one broadcast; when the hub has
    carried it out, the encoded message is the last entry of the queue of
    every member of the room that had room for it, the sender's included,
    and no other client's record has changed. *)
Theorem send_message_reaches_members env c data sd s cl message payload s' :
  reachable s → heap s !! c = Some cl →
  as_SendMessageData data = Some sd → Content sd ≠ EmptyString →
  send_RoomID sd ∈ client_rooms cl →
  SaveMessage env (send_RoomID sd) (UserID (session cl)) (Content sd) = Some message →
  json_Marshal env "new_message" {| bm_Message := message; bm_RoomID := send_RoomID sd |}
    = Some payload →
  broadcast {| RoomID := send_RoomID sd; Message := payload |} s = Some s' →
  handleSendMessage env c data s
    = Some (s, [CallSaveMessage (send_RoomID sd) (UserID (session cl)) (Content sd);
                SendBroadcast {| RoomID := send_RoomID sd; Message := payload |}]) ∧
  c ∈ members s (send_RoomID sd) ∧
  (∀ c' cl', c' ∈ members s (send_RoomID sd) → heap s !! c' = Some cl' →
     ¬ queue_full cl' →
     heap s' !! c'
     = Some (set_send {| buf := buf (send cl') ++ [payload]; closed := false |} cl')) ∧
  (∀ c', c' ∉ members s (send_RoomID sd) → heap s' !! c' = heap s !! c').
Proof.
  intros Hr Hc Hdata Hcontent Hroom Hsave Hjson Hb.
  pose proof (reachable_inv s Hr) as Hinv.
  apply (broadcast_effect _ _ _ Hinv) in Hb as (_ & _ & Hheap & _). simpl in Hheap.
  split_and!.
  - unfold handleSendMessage. rewrite Hdata, decide_False by done.
    rewrite Hc. simpl. rewrite decide_True by done. rewrite Hsave.
    unfold BroadcastToRoom. by rewrite Hjson.
  - apply (inv_consistent s Hinv). unfold memberships. by rewrite Hc.
  - intros c' cl' Hin Hc' Hfull. rewrite Hheap, Hc'. simpl.
    rewrite delivered_in by done. rewrite deliver_room; [done |].
    unfold queue_full in Hfull. lia.
  - intros c' Hnin. rewrite Hheap. destruct (heap s !! c'); simpl; [| done].
    by rewrite delivered_out.
Qed.

Lemma send_message_reaches_members_witness :
  handleSendMessage (env_ok 9) 1%positive send_hi two_in_room
    = Some (two_in_room,
            [CallSaveMessage (send_RoomID {| send_RoomID := 7; Content := "hi" |})
               (UserID (session alice_joined))
               (Content {| send_RoomID := 7; Content := "hi" |});
             SendBroadcast {| RoomID := send_RoomID {| send_RoomID := 7; Content := "hi" |};
                              Message := hi_payload |}]) ∧
  1%positive ∈ members two_in_room (send_RoomID {| send_RoomID := 7; Content := "hi" |}) ∧
  (∀ c' cl', c' ∈ members two_in_room (send_RoomID {| send_RoomID := 7; Content := "hi" |}) →
     heap two_in_room !! c' = Some cl' → ¬ queue_full cl' →
     heap hi_sent !! c'
     = Some (set_send {| buf := buf (send cl') ++ [hi_payload]; closed := false |} cl')) ∧
  (∀ c', c' ∉ members two_in_room (send_RoomID {| send_RoomID := 7; Content := "hi" |}) →
     heap hi_sent !! c' = heap two_in_room !! c').
Proof.
  apply (send_message_reaches_members (env_ok 9) 1%positive send_hi
           {| send_RoomID := 7; Content := "hi" |} two_in_room alice_joined
           {| msg_ID := 100; msg_RoomID := 7; msg_UserID := 1; msg_Username := "";
              msg_Content := "hi"; msg_CreatedAt := 9 |}
           hi_payload hi_sent).
  - apply two_in_room_reachable.
  - vm_compute. reflexivity.
  - reflexivity.
  - discriminate.
  - vm_compute. reflexivity.
  - reflexivity.
  - vm_compute. reflexivity.
  - vm_compute. reflexivity.
Defined.

(** * [cleanRoomName] on names of ASCII bytes *)

Lemma forallb_Forall_ascii s :
  forallb strings.isASCII s = true ↔ Forall (λ c, strings.isASCII c = true) s.
Proof.
  induction s as [|c s IH]; simpl.
  - split; [by constructor | done].
  - rewrite andb_true_iff, IH. split.
    + intros [? ?]. by apply Forall_cons_2.
    + intros H. by apply Forall_cons in H.
Qed.

Lemma lowerASCII_ascii c :
  strings.isASCII c = true → strings.isASCII (strings.lowerASCII c) = true.
Proof.
  unfold strings.lowerASCII, strings.isUpper, strings.isASCII, utf8.RuneSelf.
  intros H. destruct (_ && _) eqn:E; [| done].
  apply andb_true_iff in E as [E1%Z.leb_le E2%Z.leb_le].
  rewrite byteZ_Zbyte by lia. apply Z.ltb_lt. lia.
Qed.

Lemma ToLower_ascii (tbl : Z → Z) s :
  forallb strings.isASCII s = true →
  strings.ToLower tbl s = (if existsb strings.isUpper s then map strings.lowerASCII s else s) ∧
  Forall (λ c, strings.isASCII c = true) (strings.ToLower tbl s).
Proof.
  intros H. unfold strings.ToLower. rewrite H. split; [done |].
  apply forallb_Forall_ascii in H. destruct (existsb _ s); [| done].
  apply Forall_forall. intros c [c0 [-> Hc0]]%list_elem_of_fmap.
  apply lowerASCII_ascii. by apply (proj1 (Forall_forall _ _) H).
Qed.

Lemma cleanRoomName_ascii_closed (tbl : Z → Z) name :
  forallb strings.isASCII name = true →
  Forall (λ c, strings.isASCII c = true) (cleanRoomName tbl name).
Proof.
  intros Hname. unfold cleanRoomName.
  set (n1 := if strings.HasPrefix name (b "#") then name else b "#" ++ name).
  assert (H1 : forallb strings.isASCII n1 = true).
  { unfold n1. destruct (strings.HasPrefix name (b "#")); [done |]. simpl. by rewrite Hname. }
  destruct (ToLower_ascii tbl n1 H1) as [_ H2].
  set (n2 := strings.ToLower tbl n1) in *.
  rewrite ReplaceAll_space.
  set (n3 := map (λ c, if Byte.eqb c space then dash else c) n2).
  assert (H3 : Forall (λ c, strings.isASCII c = true) n3).
  { apply Forall_forall. intros c [c0 [-> Hc0]]%list_elem_of_fmap.
    destruct (Byte.eqb c0 space); [done |]. by apply (proj1 (Forall_forall _ _) H2). }
  assert (H4 : Forall (λ c, strings.isASCII c = true) (remove_invalid_symbols n3)).
  { eapply Forall_impl; [by apply remove_invalid_symbols_Forall |]. by intros c [? _]. }
  set (n4 := remove_invalid_symbols n3) in *.
  pose proof (collapse_dashes_Forall _ (length n4) n4 H4) as H5.
  set (n5 := collapse_dashes (length n4) n4) in *.
  pose proof (Forall_prefix _ _ _ (TrimRight_prefix n5 (b "-")) H5) as H6.
  set (n6 := strings.TrimRight n5 (b "-")) in *.
  set (n7 := if (20 <? length n6)%nat
             then strings.TrimRight (take 20 n6) (b "-") else n6).
  assert (H7 : Forall (λ c, strings.isASCII c = true) n7).
  { unfold n7. destruct (20 <? length n6)%nat; [| done].
    apply (Forall_prefix _ (take 20 n6)); [apply TrimRight_prefix |].
    by apply Forall_take. }
  destruct (_ <=? 1)%nat; [by constructor | exact H7].
Qed.

Lemma cleanRoomName_ascii_tbl (t1 t2 : Z → Z) name :
  forallb strings.isASCII name = true → cleanRoomName t1 name = cleanRoomName t2 name.
Proof.
  intros Hname. unfold cleanRoomName. cbv zeta.
  match goal with
  | |- context [strings.ToLower t1 ?n] =>
      assert (Heq : strings.ToLower t1 n = strings.ToLower t2 n)
  end.
  { match goal with
    | |- strings.ToLower _ ?n = _ => assert (H1 : forallb strings.isASCII n = true)
    end.
    { destruct (strings.HasPrefix name (b "#")); [done |]. simpl. by rewrite Hname. }
    destruct (ToLower_ascii t1 _ H1) as [E1 _].
    destruct (ToLower_ascii t2 _ H1) as [E2 _]. by rewrite E1, E2. }
  by rewrite Heq.
Qed.

Lemma cleanRoomName_ascii_fixed (tbl : Z → Z) name :
  forallb strings.isASCII name = true →
  cleanRoomName tbl (cleanRoomName tbl name) = cleanRoomName tbl name ∧
  (cleanRoomName tbl name = [] ∨ well_cleaned (cleanRoomName tbl name)).
Proof.
  intros Hname.
  pose proof (cleanRoomName_ascii_closed tbl name Hname) as Hascii.
  apply forallb_Forall_ascii in Hascii.
  destruct (cleanRoomName_shape (λ r, r) name) as [Hnil | Hwc]; [intros r Hr; lia | |].
  - rewrite (cleanRoomName_ascii_tbl tbl (λ r, r) name Hname), Hnil.
    split; [reflexivity | by left].
  - rewrite (cleanRoomName_ascii_tbl (λ r, r) tbl name Hname) in Hwc.
    split; [| by right]. apply cleanRoomName_fixed; [done |]. by apply well_cleaned_ascii_lower.
Qed.

(** X12: on a name of ASCII bytes [cleanRoomName] does not consult the case
    table of [unicode.ToLower], its result is again made of ASCII bytes,
    and cleaning the result again returns it unchanged. *)
Theorem cleanRoomName_ascii_idempotent (tbl tbl' : Z → Z) (name : bytes) :
  forallb strings.isASCII name = true →
  cleanRoomName tbl name = cleanRoomName tbl' name ∧
  forallb strings.isASCII (cleanRoomName tbl name) = true ∧
  cleanRoomName tbl (cleanRoomName tbl name) = cleanRoomName tbl name.
Proof.
  intros Hname. split_and!.
  - by apply cleanRoomName_ascii_tbl.
  - apply forallb_Forall_ascii. by apply cleanRoomName_ascii_closed.
  - by apply cleanRoomName_ascii_fixed.
Qed.

Lemma cleanRoomName_ascii_idempotent_witness :
  cleanRoomName unicode.latin1 (b "General  Chat!") = cleanRoomName (λ r, r) (b "General  Chat!") ∧
  forallb strings.isASCII (cleanRoomName unicode.latin1 (b "General  Chat!")) = true ∧
  cleanRoomName unicode.latin1 (cleanRoomName unicode.latin1 (b "General  Chat!"))
  = cleanRoomName unicode.latin1 (b "General  Chat!").
Proof.
  apply (cleanRoomName_ascii_idempotent unicode.latin1 (λ r, r) (b "General  Chat!")).
  vm_compute. reflexivity.
Defined.

(** * Properties of the sessions *)

Lemma substring_all (s : string) : String.substring 0 (String.length s) s = s.
Proof. induction s as [|c s IH]; [done |]. simpl. by rewrite IH. Qed.

Lemma prefix_TrimPrefix (p s : string) :
  String.prefix p s = true → s = String.append p (TrimPrefix s p).
Proof.
  unfold TrimPrefix. intros H. rewrite H. revert s H.
  induction p as [|a p IH]; intros s H.
  - simpl. by rewrite Nat.sub_0_r, substring_all.
  - destruct s as [|c s]; [done |]. simpl in H.
    destruct (Ascii.ascii_dec a c) as [->|]; [| done].
    change (String c s = String c (String.append p
              (substring (String.length p) (String.length s - String.length p) s))).
    f_equal. by apply IH.
Qed.

Lemma prefix_append (p t : string) : String.prefix p (String.append p t) = true.
Proof.
  induction p as [|a p IH]; [by destruct t |].
  change (String.prefix (String a p) (String a (String.append p t)) = true).
  simpl. destruct (Ascii.ascii_dec a a); [done | done].
Qed.

Lemma append_inj_l (p t t' : string) :
  String.append p t = String.append p t' → t = t'.
Proof.
  induction p as [|a p IH]; [done |].
  change (String a (String.append p t) = String a (String.append p t') → t = t').
  intros [= H]. by apply IH.
Qed.

Lemma eqb_empty_false (t : string) : t ≠ EmptyString → String.eqb t "" = false.
Proof. intros H. by apply String.eqb_neq. Qed.

Lemma ExtractToken_append (token : string) :
  ExtractToken (String.append "Bearer " token) = token.
Proof.
  unfold ExtractToken. rewrite prefix_append.
  pose proof (prefix_TrimPrefix "Bearer " (String.append "Bearer " token) (prefix_append _ _)) as H.
  by apply append_inj_l in H.
Qed.

Lemma ExtractToken_nonempty (authorization : string) :
  ExtractToken authorization ≠ EmptyString →
  authorization = String.append "Bearer " (ExtractToken authorization).
Proof.
  unfold ExtractToken. destruct (String.prefix "Bearer " authorization) eqn:E; [| done].
  intros _. by apply prefix_TrimPrefix.
Qed.

(** X13: what [ExtractToken] returns is what follows "Bearer " in the
    header: a header made of "Bearer " and a token gives the token back,
    and any header with a non-empty result is "Bearer " followed by that
    result.  Without the prefix, in this very spelling, the result is
    empty. *)
Theorem ExtractToken_bearer (authorization token : string) :
  ExtractToken (String.append "Bearer " token) = token ∧
  (ExtractToken authorization ≠ EmptyString →
     authorization = String.append "Bearer " (ExtractToken authorization)) ∧
  (String.prefix "Bearer " authorization = false →
     ExtractToken authorization = EmptyString).
Proof.
  split_and!.
  - apply ExtractToken_append.
  - apply ExtractToken_nonempty.
  - unfold ExtractToken. by intros ->.
Qed.

(** X14: a session made by [CreateSession] is found again by
    [ValidateSession] under its token at any time up to 24 hours after its
    creation, with the user's id and name, and validating it changes
    nothing. *)
Theorem session_round_trip tok now1 now2 user am now :
  (now ≤ now2 + 24 * Hour)%Z →
  ∃ sess am1,
    CreateSession (Some tok) now1 now2 user am = (Some sess, am1) ∧
    ValidateSession now tok am1 = (inl sess, am1) ∧
    Token sess = tok ∧
    UserID (identity sess) = user_ID user ∧
    Username (identity sess) = user_Username user ∧
    (∀ tok', tok' ≠ tok → sessions am1 !! tok' = sessions am !! tok').
Proof.
  intros Hnow. eexists _, _. split; [done |]. split_and!; try done.
  - unfold ValidateSession. simpl. rewrite lookup_insert_eq. simpl.
    by rewrite decide_False by lia.
  - intros tok' Hne. simpl. by rewrite lookup_insert_ne.
Qed.

Lemma session_round_trip_witness :
  ∃ sess am1,
    CreateSession (Some "t1") 5 6 (mkUser 1 "alice") NewAuthManager = (Some sess, am1) ∧
    ValidateSession (6 + 24 * Hour) "t1" am1 = (inl sess, am1) ∧
    Token sess = "t1"%string ∧
    UserID (identity sess) = user_ID (mkUser 1 "alice") ∧
    Username (identity sess) = user_Username (mkUser 1 "alice") ∧
    (∀ tok', tok' ≠ "t1"%string →
       sessions am1 !! tok' = sessions NewAuthManager !! tok').
Proof.
  apply (session_round_trip "t1" 5 6 (mkUser 1 "alice") NewAuthManager (6 + 24 * Hour)).
  lia.
Defined.

(** X15: the first validation of a session after its expiry time fails
    with "session expired" and deletes it: from then on the token is
    unknown at every time, while every other session is kept. *)
Theorem expired_session_removed am tok sess now :
  sessions am !! tok = Some sess → (now > ExpiresAt sess)%Z →
  ∃ am',
    ValidateSession now tok am = (inr SessionExpired, am') ∧
    (∀ now', ValidateSession now' tok am' = (inr InvalidSession, am')) ∧
    (∀ tok', tok' ≠ tok → sessions am' !! tok' = sessions am !! tok').
Proof.
  intros Hs Hnow. eexists. unfold ValidateSession. rewrite Hs.
  rewrite decide_True by done. split_and!; [done | |].
  - intros now'. simpl. by rewrite lookup_delete_eq.
  - intros tok' Hne. simpl. by rewrite lookup_delete_ne.
Qed.

Lemma expired_session_removed_witness :
  ∃ am',
    ValidateSession (7 + 24 * Hour) "t1" one_session = (inr SessionExpired, am') ∧
    (∀ now', ValidateSession now' "t1" am' = (inr InvalidSession, am')) ∧
    (∀ tok', tok' ≠ "t1"%string → sessions am' !! tok' = sessions one_session !! tok').
Proof.
  apply (expired_session_removed one_session "t1" session_t1 (7 + 24 * Hour)).
  - vm_compute. reflexivity.
  - vm_compute. reflexivity.
Defined.

(** X16: [RequireAuth] hands a session to the wrapped handler exactly when
    the header is "Bearer " followed by a non-empty token under which that
    session is stored and whose expiry time has not passed; the sessions
    are then unchanged.  In every other case the answer is 401. *)
Theorem RequireAuth_gate now authorization am :
  (∀ sess am',
     RequireAuth now authorization am = (inr sess, am') ↔
     ∃ tok, tok ≠ EmptyString ∧ authorization = String.append "Bearer " tok ∧
            sessions am !! tok = Some sess ∧ (now ≤ ExpiresAt sess)%Z ∧ am' = am) ∧
  (∀ resp am',
     RequireAuth now authorization am = (inl resp, am') →
     status_of resp = StatusUnauthorized).
Proof.
  unfold RequireAuth. split.
  - intros sess am'. destruct (String.eqb (ExtractToken authorization) "") eqn:E.
    + apply String.eqb_eq in E. split; [done |].
      intros (tok & Hne & -> & _). pose proof (ExtractToken_append tok) as H.
      congruence.
    + apply String.eqb_neq in E.
      pose proof (ExtractToken_nonempty authorization) as H.
      specialize (H E). unfold ValidateSession.
      destruct (sessions am !! ExtractToken authorization) as [s0|] eqn:Hs.
      * destruct (decide (now > ExpiresAt s0)%Z) as [Hexp|Hok].
        -- split; [done |]. intros (tok & _ & Heq & Hs' & Hle & _).
           rewrite Heq in Hs. pose proof (ExtractToken_append tok) as Ht.
           rewrite Ht in Hs. rewrite Hs in Hs'. injection Hs' as <-. lia.
        -- split.
           ++ intros [= <- <-]. exists (ExtractToken authorization).
              split_and!; try done; lia.
           ++ intros (tok & _ & Heq & Hs' & Hle & ->).
              rewrite Heq in Hs. pose proof (ExtractToken_append tok) as Ht.
              rewrite Ht in Hs. rewrite Hs in Hs'. by injection Hs' as <-.
      * split; [done |]. intros (tok & _ & Heq & Hs' & _).
        rewrite Heq in Hs. pose proof (ExtractToken_append tok) as Ht.
        rewrite Ht in Hs. congruence.
  - intros resp am'. destruct (String.eqb (ExtractToken authorization) "").
    + by intros [= <- _].
    + destruct (ValidateSession now (ExtractToken authorization) am) as [[s0|e] am0].
      * done.
      * by intros [= <- _].
Qed.

(** X17: after a logout that went through, the token of the request is
    accepted neither by [RequireAuth] nor by [handleWebSocket], at any
    time; the sessions under other tokens are as they were. *)
Theorem logout_invalidates now authorization am resp am' :
  logout_route now "POST" authorization am = (resp, am') →
  status_of resp = StatusOK →
  sessions am' !! ExtractToken authorization = None ∧
  (∀ now', ∃ r, RequireAuth now' authorization am' = (inl r, am')) ∧
  (∀ now' ok now'' s,
     handleWebSocket now' (ExtractToken authorization) ok now'' am' s
     = (Some (Error StatusUnauthorized "Invalid token"), am', Some s)) ∧
  (∀ tok, tok ≠ ExtractToken authorization → sessions am' !! tok = sessions am !! tok).
Proof.
  unfold logout_route, RequireAuth.
  destruct (String.eqb (ExtractToken authorization) "") eqn:E; [by intros [= <- _] |].
  unfold ValidateSession.
  destruct (sessions am !! ExtractToken authorization) as [s0|] eqn:Hs;
    [| by intros [= <- _]].
  destruct (decide (now > ExpiresAt s0)%Z); [by intros [= <- _] |].
  unfold handleLogout. simpl. intros [= <- <-] _.
  assert (Hgone : sessions (DeleteSession (ExtractToken authorization) am)
                    !! ExtractToken authorization = None)
    by (simpl; apply lookup_delete_eq).
  split_and!.
  - done.
  - intros now'. unfold RequireAuth, ValidateSession. rewrite ?E, Hgone. eauto.
  - intros now' ok now'' s. unfold handleWebSocket, ValidateSession. by rewrite ?E, Hgone.
  - intros tok Hne. simpl. by rewrite lookup_delete_ne.
Qed.

Lemma logout_invalidates_witness :
  sessions (DeleteSession "t1" one_session) !! ExtractToken "Bearer t1" = None ∧
  (∀ now', ∃ r, RequireAuth now' "Bearer t1" (DeleteSession "t1" one_session)
                = (inl r, DeleteSession "t1" one_session)) ∧
  (∀ now' ok now'' s,
     handleWebSocket now' (ExtractToken "Bearer t1") ok now''
       (DeleteSession "t1" one_session) s
     = (Some (Error StatusUnauthorized "Invalid token"),
        DeleteSession "t1" one_session, Some s)) ∧
  (∀ tok, tok ≠ ExtractToken "Bearer t1" →
     sessions (DeleteSession "t1" one_session) !! tok = sessions one_session !! tok).
Proof.
  apply (logout_invalidates 10 "Bearer t1" one_session
           (Respond (PayloadStatus "logged out")) (DeleteSession "t1" one_session)).
  - vm_compute. reflexivity.
  - reflexivity.
Defined.

(** X18: [handleWebSocket] lets a client into the hub only for a non-empty
    token that [ValidateSession] accepts at that time and only when the
    upgrade completes, and the client then carries the identity of the
    session.  A missing, unknown or expired token gets 401; an upgrade that
    is refused is answered by the upgrader; in all these cases, and when
    the upgrade is lost, the hub is left as it was. *)
Theorem handleWebSocket_gate now token upgrade now' am s resp am' s' :
  handleWebSocket now token upgrade now' am s = (resp, am', s') →
  ((∃ sess, token ≠ EmptyString ∧ sessions am !! token = Some sess ∧
            (now ≤ ExpiresAt sess)%Z ∧ am' = am ∧
            match upgrade with
            | Upgraded =>
                resp = None ∧ s' = HandleConnection (identity sess) now' s
            | UpgradeRefused code message =>
                resp = Some (Error code message) ∧ s' = Some s
            | UpgradeLost => resp = None ∧ s' = Some s
            end) ∨
   ((token = EmptyString ∨ sessions am !! token = None ∨
     ∃ sess, sessions am !! token = Some sess ∧ (now > ExpiresAt sess)%Z) ∧
    (∃ message, resp = Some (Error StatusUnauthorized message)) ∧ s' = Some s)) ∧
  (s' ≠ Some s →
   upgrade = Upgraded ∧ resp = None ∧
   ∃ sess, token ≠ EmptyString ∧ sessions am !! token = Some sess ∧
           (now ≤ ExpiresAt sess)%Z ∧
           s' = HandleConnection (identity sess) now' s).
Proof.
  unfold handleWebSocket. destruct (String.eqb token "") eqn:E.
  { apply String.eqb_eq in E. intros [= <- <- <-].
    split; [right; split_and!; eauto | done]. }
  apply String.eqb_neq in E. unfold ValidateSession.
  destruct (sessions am !! token) as [s0|] eqn:Hs;
    [| intros [= <- <- <-]; split; [right; split_and!; eauto | done]].
  destruct (decide (now > ExpiresAt s0)%Z);
    [intros [= <- <- <-]; split; [right; split_and!; eauto | done] |].
  destruct upgrade as [code message| |]; intros [= <- <- <-].
  - split; [| done]. left. exists s0. split_and!; try done; lia.
  - split; [| done]. left. exists s0. split_and!; try done; lia.
  - split.
    + left. exists s0. split_and!; try done; lia.
    + intros _. split_and!; try done. exists s0. split_and!; try done; lia.
Qed.

Lemma handleWebSocket_gate_witness :
  ((∃ sess, "t1"%string ≠ EmptyString ∧ sessions one_session !! "t1"%string = Some sess ∧
            (10 ≤ ExpiresAt sess)%Z ∧ one_session = one_session ∧
            @None Response = None ∧
            HandleConnection alice 11 NewWSManager
            = HandleConnection (identity sess) 11 NewWSManager) ∨
   (("t1"%string = EmptyString ∨ sessions one_session !! "t1"%string = None ∨
     ∃ sess, sessions one_session !! "t1"%string = Some sess ∧ (10 > ExpiresAt sess)%Z) ∧
    (∃ message, @None Response = Some (Error StatusUnauthorized message)) ∧
    HandleConnection alice 11 NewWSManager = Some NewWSManager)) ∧
  (HandleConnection alice 11 NewWSManager ≠ Some NewWSManager →
   Upgraded = Upgraded ∧ @None Response = None ∧
   ∃ sess, "t1"%string ≠ EmptyString ∧ sessions one_session !! "t1"%string = Some sess ∧
           (10 ≤ ExpiresAt sess)%Z ∧
           HandleConnection alice 11 NewWSManager
           = HandleConnection (identity sess) 11 NewWSManager).
Proof.
  apply (handleWebSocket_gate 10 "t1" Upgraded 11 one_session NewWSManager
           None one_session (HandleConnection alice 11 NewWSManager)).
  vm_compute. reflexivity.
Defined.

(** * Properties of the HTTP handlers *)

Lemma method_is (method m : string) : negb (String.eqb method m) = false → method = m.
Proof. intros H. apply negb_false_iff in H. by apply String.eqb_eq. Qed.



Lemma messages_limit_range limitStr :
  (1 ≤ messages_limit limitStr ≤ 100)%Z ∧
  (messages_limit limitStr ≠ 50%Z → Atoi limitStr = Some (messages_limit limitStr)).
Proof.
  unfold messages_limit. destruct (String.eqb limitStr ""); [split; [lia | done] |].
  destruct (Atoi limitStr) as [p|]; [| split; [lia | done]].
  destruct (_ && _) eqn:E; [| split; [lia | done]].
  apply andb_true_iff in E as [E1%Z.ltb_lt E2%Z.leb_le]. split; [lia | done].
Qed.

Lemma messages_offset_range offsetStr :
  (0 ≤ messages_offset offsetStr)%Z ∧
  (messages_offset offsetStr ≠ 0%Z → Atoi offsetStr = Some (messages_offset offsetStr)).
Proof.
  unfold messages_offset. destruct (String.eqb offsetStr ""); [split; [lia | done] |].
  destruct (Atoi offsetStr) as [p|]; [| split; [lia | done]].
  destruct (0 <=? p)%Z eqn:E; [| split; [lia | done]].
  apply Z.leb_le in E. split; [lia | done].
Qed.

(** X20: [handleMessages] reads messages only on a GET with a session, for
    a room that exists and whose hall the user of the session is confirmed
    to be in; the limit it passes on is between 1 and 100 and the offset is
    not negative, whatever the query says: a limit other than 50 or an
    offset other than 0 is the number the query gave. *)
Theorem handleMessages_bounds db method session url_path limitStr offsetStr resp calls
    roomID limit offset :
  handleMessages db method session url_path limitStr offsetStr = (resp, calls) →
  QGetRoomMessages roomID limit offset ∈ calls →
  (1 ≤ limit ≤ 100)%Z ∧ (0 ≤ offset)%Z ∧
  (limit ≠ 50%Z → Atoi limitStr = Some limit) ∧
  (offset ≠ 0%Z → Atoi offsetStr = Some offset) ∧
  method = "GET"%string ∧
  ∃ sess room, session = Some sess ∧
    Atoi (TrimPrefix url_path "/api/messages/") = Some roomID ∧
    db_GetRoomByID db roomID = Some room ∧
    db_IsUserInHall db (UserID (identity sess)) (room_HallID room) = Some true.
Proof.
  unfold handleMessages.
  destruct (negb (String.eqb method "GET")) eqn:Hm; [intros [= <- <-]; set_solver |].
  apply method_is in Hm.
  destruct session as [sess|]; [| intros [= <- <-]; set_solver].
  destruct (Atoi (TrimPrefix _ _)) as [rid|] eqn:Hrid; [| intros [= <- <-]; set_solver].
  destruct (db_GetRoomByID db rid) as [room|] eqn:Hroom; [| intros [= <- <-]; set_solver].
  destruct (db_IsUserInHall db _ _) as [[|]|] eqn:Hin; try (intros [= <- <-]; set_solver).
  intros Hres Hcall.
  assert (calls = [QGetRoomByID rid; QIsUserInHall (UserID (identity sess)) (room_HallID room);
                   QGetRoomMessages rid (messages_limit limitStr) (messages_offset offsetStr)])
    as ->.
  { destruct (db_GetRoomMessages db _ _ _); by injection Hres as _ <-. }
  assert (roomID = rid ∧ limit = messages_limit limitStr ∧
          offset = messages_offset offsetStr) as (-> & -> & ->).
  { set_unfold in Hcall. naive_solver. }
  destruct (messages_limit_range limitStr) as [? ?].
  destruct (messages_offset_range offsetStr) as [? ?].
  split_and!; try done; try lia. by exists sess, room.
Qed.

Lemma handleMessages_bounds_witness :
  (1 ≤ 50 ≤ 100)%Z ∧ (0 ≤ 20)%Z ∧
  (50%Z ≠ 50%Z → Atoi "1000" = Some 50%Z) ∧
  (20%Z ≠ 0%Z → Atoi "20" = Some 20%Z) ∧
  "GET"%string = "GET"%string ∧
  ∃ sess room, Some session_t1 = Some sess ∧
    Atoi (TrimPrefix "/api/messages/7" "/api/messages/") = Some 7%Z ∧
    db_GetRoomByID db_ok 7 = Some room ∧
    db_IsUserInHall db_ok (UserID (identity sess)) (room_HallID room) = Some true.
Proof.
  apply (handleMessages_bounds db_ok "GET" (Some session_t1) "/api/messages/7" "1000" "20"
           (Respond (PayloadMessages []))
           [QGetRoomByID 7; QIsUserInHall 1 1; QGetRoomMessages 7 50 20]).
  - vm_compute. reflexivity.
  - apply list_elem_of_further, list_elem_of_further, list_elem_of_here.
Defined.

(** ** Deleting rooms and halls *)

Lemma delete_room_checked_owner db sess q room roomID resp calls id :
  (∀ id', DoDeleteRoom id' ∉ q) →
  delete_room_checked db sess q room roomID = (resp, calls) →
  DoDeleteRoom id ∈ calls →
  id = roomID ∧
  ∃ rm hall, room = Some rm ∧ db_GetHallByID db (room_HallID rm) = Some hall ∧
    hall_OwnerID hall = UserID (identity sess) ∧
    calls = q ++ [QGetHallByID (room_HallID rm); DoDeleteRoom roomID].
Proof.
  intros Hq. unfold delete_room_checked.
  destruct room as [rm|]; [| intros [= <- <-] Hin; by destruct (Hq id)].
  destruct (db_GetHallByID db _) as [hall|] eqn:Hhall;
    [| intros [= <- <-] Hin; set_unfold in Hin; naive_solver].
  destruct (negb _) eqn:Hown; [intros [= <- <-] Hin; set_unfold in Hin; naive_solver |].
  apply negb_false_iff, Z.eqb_eq in Hown.
  intros Hres Hin.
  assert (calls = q ++ [QGetHallByID (room_HallID rm); DoDeleteRoom roomID]) as ->.
  { rewrite <- app_assoc in Hres. destruct (db_DeleteRoom db roomID); by injection Hres as _ <-. }
  split; [set_unfold in Hin; naive_solver |]. by exists rm, hall.
Qed.

(** X21: [handleDeleteRoom] deletes a room only on a POST with a session
    whose user owns the hall of the room that was looked up.  The id it
    deletes is the [room_id] of the request: when the room is named by hall
    and name that id is 0, whatever the id of the room that was found. *)
Theorem handleDeleteRoom_owner_only db method session body resp calls id :
  handleDeleteRoom db method session body = (resp, calls) →
  DoDeleteRoom id ∈ calls →
  method = "POST"%string ∧
  ∃ sess req room hall, session = Some sess ∧ body = Some req ∧
    id = dr_RoomID req ∧
    ((id ≠ 0%Z ∧ db_GetRoomByID db id = Some room) ∨
     (id = 0%Z ∧ dr_RoomName req ≠ EmptyString ∧ dr_HallID req ≠ 0%Z ∧
      db_GetRoomByName db (dr_HallID req) (dr_RoomName req) = Some room)) ∧
    db_GetHallByID db (room_HallID room) = Some hall ∧
    hall_OwnerID hall = UserID (identity sess).
Proof.
  unfold handleDeleteRoom.
  destruct (negb (String.eqb method "POST")) eqn:Hm; [intros [= <- <-]; set_solver |].
  apply method_is in Hm.
  destruct session as [sess|]; [| intros [= <- <-]; set_solver].
  destruct body as [req|]; [| intros [= <- <-]; set_solver].
  destruct (negb (dr_RoomID req =? 0)%Z) eqn:Hid.
  { apply negb_true_iff, Z.eqb_neq in Hid. intros Hres Hin.
    destruct (delete_room_checked_owner db sess [QGetRoomByID (dr_RoomID req)] _ _ _ _ id
                ltac:(set_solver) Hres Hin) as (-> & rm & hall & Hrm & Hhall & Hown & _).
    split; [done |]. exists sess, req, rm, hall. split_and!; try done. by left. }
  apply negb_false_iff, Z.eqb_eq in Hid.
  destruct (_ && _) eqn:Hname; [| intros [= <- <-]; set_solver].
  apply andb_true_iff in Hname as [Hname%negb_true_iff%String.eqb_neq
                                   Hhall0%negb_true_iff%Z.eqb_neq].
  intros Hres Hin.
  destruct (delete_room_checked_owner db sess
              [QGetRoomByName (dr_HallID req) (dr_RoomName req)] _ _ _ _ id
              ltac:(set_solver) Hres Hin) as (-> & rm & hall & Hrm & Hhall & Hown & _).
  split; [done |]. exists sess, req, rm, hall. split_and!; try done. by right.
Qed.

Lemma handleDeleteRoom_owner_only_witness :
  "POST"%string = "POST"%string ∧
  ∃ sess req room hall, Some session_t1 = Some sess ∧
    Some {| dr_RoomID := 0; dr_RoomName := "#general"; dr_HallID := 3 |} = Some req ∧
    0%Z = dr_RoomID req ∧
    ((0%Z ≠ 0%Z ∧ db_GetRoomByID db_ok 0 = Some room) ∨
     (0%Z = 0%Z ∧ dr_RoomName req ≠ EmptyString ∧ dr_HallID req ≠ 0%Z ∧
      db_GetRoomByName db_ok (dr_HallID req) (dr_RoomName req) = Some room)) ∧
    db_GetHallByID db_ok (room_HallID room) = Some hall ∧
    hall_OwnerID hall = UserID (identity sess).
Proof.
  apply (handleDeleteRoom_owner_only db_ok "POST" (Some session_t1)
           (Some {| dr_RoomID := 0; dr_RoomName := "#general"; dr_HallID := 3 |})
           (Respond (PayloadStatus "room deleted"))
           [QGetRoomByName 3 "#general"; QGetHallByID 3; DoDeleteRoom 0]).
  - vm_compute. reflexivity.
  - apply list_elem_of_further, list_elem_of_further, list_elem_of_here.
Defined.

(** X22: [handleDeleteRoomByID] deletes a room only on a POST with a
    session whose user owns the hall of that room, and the room it deletes
    is the one the path names and the owner check looked up. *)
Theorem handleDeleteRoomByID_owner_only db method session roomIDStr resp calls id :
  handleDeleteRoomByID db method session roomIDStr = (resp, calls) →
  DoDeleteRoom id ∈ calls →
  method = "POST"%string ∧ Atoi roomIDStr = Some id ∧
  ∃ sess room hall, session = Some sess ∧
    db_GetRoomByID db id = Some room ∧
    db_GetHallByID db (room_HallID room) = Some hall ∧
    hall_OwnerID hall = UserID (identity sess) ∧
    calls = [QGetRoomByID id; QGetHallByID (room_HallID room); DoDeleteRoom id].
Proof.
  unfold handleDeleteRoomByID.
  destruct (negb (String.eqb method "POST")) eqn:Hm; [intros [= <- <-]; set_solver |].
  apply method_is in Hm.
  destruct session as [sess|]; [| intros [= <- <-]; set_solver].
  destruct (Atoi roomIDStr) as [rid|] eqn:Hrid; [| intros [= <- <-]; set_solver].
  intros Hres Hin.
  destruct (delete_room_checked_owner db sess [QGetRoomByID rid] _ _ _ _ id
              ltac:(set_solver) Hres Hin) as (-> & rm & hall & Hrm & Hhall & Hown & ->).
  split_and!; try done. by exists sess, rm, hall.
Qed.

Lemma handleDeleteRoomByID_owner_only_witness :
  "POST"%string = "POST"%string ∧ Atoi "7" = Some 7%Z ∧
  ∃ sess room hall, Some session_t1 = Some sess ∧
    db_GetRoomByID db_ok 7 = Some room ∧
    db_GetHallByID db_ok (room_HallID room) = Some hall ∧
    hall_OwnerID hall = UserID (identity sess) ∧
    [QGetRoomByID 7; QGetHallByID 1; DoDeleteRoom 7]
    = [QGetRoomByID 7; QGetHallByID (room_HallID room); DoDeleteRoom 7].
Proof.
  apply (handleDeleteRoomByID_owner_only db_ok "POST" (Some session_t1) "7"
           (Respond (PayloadStatus "room deleted"))
           [QGetRoomByID 7; QGetHallByID 1; DoDeleteRoom 7]).
  - vm_compute. reflexivity.
  - apply list_elem_of_further, list_elem_of_further, list_elem_of_here.
Defined.

(** X23: [handleHallWithID] changes a hall (a new invite code, or its
    deletion) only on a POST with a session whose user owns the hall the
    path names, and it never deletes a hall named "HKCLB". *)
Theorem handleHallWithID_owner_only db method session url_path resp calls call :
  handleHallWithID db method session url_path = (resp, calls) →
  call ∈ calls →
  (∃ h, call = QGetHallByID h) ∨
  (method = "POST"%string ∧
   ∃ sess part0 action rest hallID hall, session = Some sess ∧
     split_slash (TrimPrefix url_path "/api/halls/") = part0 :: action :: rest ∧
     Atoi part0 = Some hallID ∧ db_GetHallByID db hallID = Some hall ∧
     hall_OwnerID hall = UserID (identity sess) ∧
     ((call = DoRegenerateInviteCode hallID ∧ action = "regenerate-invite"%string) ∨
      (call = DoDeleteHall hallID ∧ action = "delete"%string ∧
       hall_Name hall ≠ "HKCLB"%string))).
Proof.
  unfold handleHallWithID.
  destruct session as [sess|]; [| intros [= <- <-]; set_solver].
  destruct (split_slash _) as [|part0 [|action rest]] eqn:Hsplit;
    try (intros [= <- <-]; set_solver).
  destruct (Atoi part0) as [hallID|] eqn:Hid; [| intros [= <- <-]; set_solver].
  destruct (db_GetHallByID db hallID) as [hall|] eqn:Hhall;
    [| intros [= <- <-] Hin; left; set_unfold in Hin; naive_solver].
  destruct (negb _) eqn:Hown;
    [intros [= <- <-] Hin; left; set_unfold in Hin; naive_solver |].
  apply negb_false_iff, Z.eqb_eq in Hown.
  destruct (String.eqb action "regenerate-invite") eqn:Hact.
  { apply String.eqb_eq in Hact.
    destruct (negb (String.eqb method "POST")) eqn:Hm;
      [intros [= <- <-] Hin; left; set_unfold in Hin; naive_solver |].
    apply method_is in Hm. intros Hres Hin.
    assert (calls = [QGetHallByID hallID; DoRegenerateInviteCode hallID]) as ->.
    { destruct (db_RegenerateInviteCode db hallID); by injection Hres as _ <-. }
    set_unfold in Hin. destruct Hin as [-> | [-> | []]]; [left; by eexists |].
    right. split; [done |]. exists sess, part0, action, rest, hallID, hall.
    split_and!; try done. by left. }
  destruct (String.eqb action "delete") eqn:Hdel;
    [| intros [= <- <-] Hin; left; set_unfold in Hin; naive_solver].
  apply String.eqb_eq in Hdel.
  destruct (negb (String.eqb method "POST")) eqn:Hm;
    [intros [= <- <-] Hin; left; set_unfold in Hin; naive_solver |].
  apply method_is in Hm.
  destruct (String.eqb (hall_Name hall) "HKCLB") eqn:Hname;
    [intros [= <- <-] Hin; left; set_unfold in Hin; naive_solver |].
  apply String.eqb_neq in Hname. intros Hres Hin.
  assert (calls = [QGetHallByID hallID; DoDeleteHall hallID]) as ->.
  { destruct (db_DeleteHall db hallID); by injection Hres as _ <-. }
  set_unfold in Hin. destruct Hin as [-> | [-> | []]]; [left; by eexists |].
  right. split; [done |]. exists sess, part0, action, rest, hallID, hall.
  split_and!; try done. by right.
Qed.

Lemma handleHallWithID_owner_only_witness :
  (∃ h, DoDeleteHall 5 = QGetHallByID h) ∨
  ("POST"%string = "POST"%string ∧
   ∃ sess part0 action rest hallID hall, Some session_t1 = Some sess ∧
     split_slash (TrimPrefix "/api/halls/5/delete" "/api/halls/") = part0 :: action :: rest ∧
     Atoi part0 = Some hallID ∧ db_GetHallByID db_ok hallID = Some hall ∧
     hall_OwnerID hall = UserID (identity sess) ∧
     ((DoDeleteHall 5 = DoRegenerateInviteCode hallID ∧ action = "regenerate-invite"%string) ∨
      (DoDeleteHall 5 = DoDeleteHall hallID ∧ action = "delete"%string ∧
       hall_Name hall ≠ "HKCLB"%string))).
Proof.
  apply (handleHallWithID_owner_only db_ok "POST" (Some session_t1) "/api/halls/5/delete"
           (Respond (PayloadStatus "hall deleted"))
           [QGetHallByID 5; DoDeleteHall 5]).
  - vm_compute. reflexivity.
  - apply list_elem_of_further, list_elem_of_here.
Defined.

(** * Tokens, logging in and registering *)

Lemma hex_byte_round_trip (v : byte) :
  (a ← fromHexChar (hex_digit (N.shiftr (Byte.to_N v) 4));
   b ← fromHexChar (hex_digit (N.land (Byte.to_N v) 15));
   Byte.of_N (16 * a + b)) = Some v.
Proof. destruct v; vm_compute; reflexivity. Qed.

Lemma hex_digit_lower (v : byte) :
  fromHexChar (hex_digit (N.shiftr (Byte.to_N v) 4)) ≠ None ∧
  fromHexChar (hex_digit (N.land (Byte.to_N v) 15)) ≠ None.
Proof. destruct v; vm_compute; split; discriminate. Qed.

Lemma DecodeString_EncodeToString (bs : bytes) :
  DecodeString (EncodeToString bs) = Some bs.
Proof.
  induction bs as [|v bs IH]; [done |].
  cbn [EncodeToString DecodeString]. rewrite IH.
  pose proof (hex_byte_round_trip v) as H.
  destruct (fromHexChar (hex_digit (N.shiftr (Byte.to_N v) 4))) as [a|]; [| done].
  simpl in *.
  destruct (fromHexChar (hex_digit (N.land (Byte.to_N v) 15))) as [c|]; [| done].
  simpl in *. by rewrite H.
Qed.

Lemma EncodeToString_length (bs : bytes) :
  String.length (EncodeToString bs) = 2 * length bs.
Proof. induction bs as [|v bs IH]; [done |]. simpl. rewrite IH. lia. Qed.

Lemma EncodeToString_digits (bs : bytes) :
  Forall (λ c, fromHexChar c ≠ None) (list_ascii_of_string (EncodeToString bs)).
Proof.
  induction bs as [|v bs IH]; [by constructor |].
  destruct (hex_digit_lower v). simpl. by repeat apply Forall_cons_2.
Qed.

Lemma rand_Read_Some random b filled :
  rand_Read random b = Some filled →
  ∃ source, random = Some source ∧ length b ≤ length source ∧
            filled = take (length b) source ∧ length filled = length b.
Proof.
  unfold rand_Read. destruct random as [source|]; simpl; [| done].
  destruct (decide (length b ≤ length source)) as [Hle|]; [| done].
  intros [= <-]. exists source. split_and!; try done. rewrite length_take. lia.
Qed.

Lemma rand_Read_None random b :
  rand_Read random b = None ↔
  random = None ∨ ∃ source, random = Some source ∧ length source < length b.
Proof.
  unfold rand_Read. destruct random as [source|]; simpl; [| naive_solver].
  destruct (decide (length b ≤ length source)) as [Hle|Hgt].
  - split; [done |]. intros [? | (source' & [= <-] & ?)]; [done | lia].
  - split; [| done]. intros _. right. exists source. split; [done | lia].
Qed.

Lemma encoded_read random n code :
  (filled ← rand_Read random (make_bytes n); Some (EncodeToString filled)) = Some code →
  String.length code = 2 * n ∧
  Forall (λ c, fromHexChar c ≠ None) (list_ascii_of_string code) ∧
  ∃ source, random = Some source ∧ n ≤ length source ∧
            code = EncodeToString (take n source) ∧
            DecodeString code = Some (take n source).
Proof.
  destruct (rand_Read random (make_bytes n)) as [filled|] eqn:Hread; simpl; [| done].
  intros [= <-].
  apply rand_Read_Some in Hread as (source & -> & Hle & -> & Hlen).
  unfold make_bytes in *. rewrite length_replicate in *. split_and!.
  - rewrite EncodeToString_length, Hlen. done.
  - apply EncodeToString_digits.
  - exists source. split_and!; try done. apply DecodeString_EncodeToString.
Qed.

Lemma generateToken_length random tok :
  generateToken random = Some tok → String.length tok = 64.
Proof. intros H. by apply encoded_read in H as [H _]. Qed.

(** X24: a token has 64 characters and an invite code 16, every one a
    digit or a letter from a to f, and is never empty; the 32 (the 8)
    random bytes that were read can be read back from it, so two tokens
    are the same only when the same 32 bytes were read.  A token is made
    exactly when the random source gives 32 bytes. *)
Theorem generateToken_hex random tok :
  generateToken random = Some tok →
  String.length tok = 64 ∧ tok ≠ EmptyString ∧
  Forall (λ c, fromHexChar c ≠ None) (list_ascii_of_string tok) ∧
  (∃ source, random = Some source ∧ 32 ≤ length source ∧
     DecodeString tok = Some (take 32 source) ∧
     ∀ random', generateToken random' = Some tok →
       ∃ source', random' = Some source' ∧ take 32 source' = take 32 source) ∧
  (∀ random', generateToken random' = None ↔
     random' = None ∨ ∃ source', random' = Some source' ∧ length source' < 32) ∧
  (∀ random' code, generateInviteCode random' = Some code →
     String.length code = 16 ∧
     Forall (λ c, fromHexChar c ≠ None) (list_ascii_of_string code) ∧
     ∃ source', random' = Some source' ∧ 8 ≤ length source' ∧
                DecodeString code = Some (take 8 source')).
Proof.
  intros Htok. pose proof Htok as Hlen%generateToken_length.
  apply encoded_read in Htok as (_ & Hdigits & source & -> & Hle & -> & Hdec).
  split_and!; try done.
  - intros Hempty. by rewrite Hempty in Hlen.
  - exists source. split_and!; try done. intros random' Htok'.
    apply encoded_read in Htok' as (_ & _ & source' & -> & _ & Heq & _).
    exists source'. split; [done |]. apply (f_equal DecodeString) in Heq.
    rewrite !DecodeString_EncodeToString in Heq. by injection Heq.
  - intros random'. unfold generateToken.
    pose proof (rand_Read_None random' (make_bytes 32)) as Hnone.
    unfold make_bytes in Hnone at 2. rewrite length_replicate in Hnone.
    destruct (rand_Read random' (make_bytes 32)) as [filled|] eqn:Hread; simpl.
    + split; [done |]. intros H. by apply Hnone in H.
    + split; [| done]. intros _. by apply Hnone.
  - intros random' code Hcode.
    apply encoded_read in Hcode as (Hlen' & Hdigits' & source' & -> & Hle' & _ & Hdec').
    split_and!; try done. by exists source'.
Qed.

Lemma generateToken_hex_witness :
  String.length token32 = 64 ∧ token32 ≠ EmptyString ∧
  Forall (λ c, fromHexChar c ≠ None) (list_ascii_of_string token32) ∧
  (∃ source, Some random32 = Some source ∧ 32 ≤ length source ∧
     DecodeString token32 = Some (take 32 source) ∧
     ∀ random', generateToken random' = Some token32 →
       ∃ source', random' = Some source' ∧ take 32 source' = take 32 source) ∧
  (∀ random', generateToken random' = None ↔
     random' = None ∨ ∃ source', random' = Some source' ∧ length source' < 32) ∧
  (∀ random' code, generateInviteCode random' = Some code →
     String.length code = 16 ∧
     Forall (λ c, fromHexChar c ≠ None) (list_ascii_of_string code) ∧
     ∃ source', random' = Some source' ∧ 8 ≤ length source' ∧
                DecodeString code = Some (take 8 source')).
Proof.
  apply (generateToken_hex (Some random32) token32).
  vm_compute. reflexivity.
Defined.

Lemma CreateSession_valid tok now1 now2 user am sess am' now :
  CreateSession (Some tok) now1 now2 user am = (Some sess, am') →
  tok ≠ EmptyString → (now ≤ now2 + 24 * Hour)%Z →
  RequireAuth now (String.append "Bearer " tok) am' = (inr sess, am') ∧
  Token sess = tok ∧
  UserID (identity sess) = user_ID user ∧ Username (identity sess) = user_Username user.
Proof.
  intros [= <- <-] Hne Hnow. split; [| done].
  unfold RequireAuth. rewrite ExtractToken_append, (eqb_empty_false _ Hne).
  unfold ValidateSession. simpl. rewrite lookup_insert_eq. simpl.
  by rewrite decide_False by lia.
Qed.

(** X25: the token that [handleLogin] or [handleRegister] answers with is
    accepted by [RequireAuth], as "Bearer " and the token, at any time up
    to 24 hours later, and stands for the user that was authenticated or
    created; a request that is not answered with a token leaves the
    sessions as they were.  Registering gives the token also when adding
    the user to the default hall fails.  (The random source fills a slice
    that is not empty.) *)
Theorem login_then_authorized db method body random now1 now2 am resp calls am' :
  handleLogin db method body random now1 now2 am = (resp, calls, am') ∨
  handleRegister db method body random now1 now2 am = (resp, calls, am') →
  (∀ bs, random = Some bs → bs ≠ []) →
  (∀ user tok, resp = Respond (PayloadLogin user tok) →
     method = "POST"%string ∧
     (∃ req, body = Some req ∧
        (db_AuthenticateUser db (cred_Username req) (cred_Password req) = Some user ∨
         db_CreateUser db (cred_Username req) (cred_Password req) = inr user)) ∧
     ∀ now, (now ≤ now2 + 24 * Hour)%Z →
       ∃ sess, RequireAuth now (String.append "Bearer " tok) am' = (inr sess, am') ∧
               Token sess = tok ∧
               UserID (identity sess) = user_ID user ∧
               Username (identity sess) = user_Username user) ∧
  ((∀ user tok, resp ≠ Respond (PayloadLogin user tok)) → am' = am).
Proof.
  intros Hrun Hrandom.
  assert (Hsession : ∀ user q,
    (let '(r, am1) := CreateSession (generateToken random) now1 now2 user am in
     match r with
     | None => (Error StatusInternalServerError "Failed to create session", q, am1)
     | Some session => (Respond (PayloadLogin user (Token session)), q, am1)
     end) = (resp, calls, am') →
    (∀ user' tok, resp = Respond (PayloadLogin user' tok) →
       user' = user ∧
       ∀ now, (now ≤ now2 + 24 * Hour)%Z →
         ∃ sess, RequireAuth now (String.append "Bearer " tok) am' = (inr sess, am') ∧
                 Token sess = tok ∧
                 UserID (identity sess) = user_ID user ∧
                 Username (identity sess) = user_Username user) ∧
    ((∀ user' tok, resp ≠ Respond (PayloadLogin user' tok)) → am' = am)).
  { intros user q. destruct (generateToken random) as [tok0|] eqn:Htok; simpl.
    - intros [= <- <- <-]. split.
      + intros user' tok [= <- <-]. split; [done |]. intros now Hnow.
        eexists. apply (CreateSession_valid tok0 now1 now2 user am); try done.
        apply generateToken_length in Htok. intros Hempty. by rewrite Hempty in Htok.
      + intros Hno. by destruct (Hno user tok0).
    - intros [= <- <- <-]. split; [done | done]. }
  destruct Hrun as [Hrun | Hrun].
  - unfold handleLogin in Hrun.
    destruct (negb (String.eqb method "POST")) eqn:Hm; [by injection Hrun as <- <- <- |].
    apply method_is in Hm.
    destruct body as [req|]; [| by injection Hrun as <- <- <-].
    destruct (db_AuthenticateUser db _ _) as [user|] eqn:Hauth;
      [| by injection Hrun as <- <- <-].
    destruct (CreateSession _ _ _ _ _) as [r am1] eqn:Hcs.
    specialize (Hsession user [DoAuthenticateUser (cred_Username req) (cred_Password req)]).
    rewrite Hcs in Hsession. destruct (Hsession Hrun) as [Hok Hfail].
    split; [| done]. intros user' tok Hresp. destruct (Hok user' tok Hresp) as [-> Hreq].
    split_and!; [done | | done]. exists req. split; [done |]. by left.
  - unfold handleRegister in Hrun.
    destruct (negb (String.eqb method "POST")) eqn:Hm; [by injection Hrun as <- <- <- |].
    apply method_is in Hm.
    destruct body as [req|]; [| by injection Hrun as <- <- <-].
    destruct (_ || _); [by injection Hrun as <- <- <- |].
    destruct (db_CreateUser db _ _) as [[|]|user] eqn:Hcreate;
      try (by injection Hrun as <- <- <-).
    destruct (CreateSession _ _ _ _ _) as [r am1] eqn:Hcs.
    specialize (Hsession user ([DoCreateUser (cred_Username req) (cred_Password req)]
                               ++ [DoAddUserToDefaultHall (user_ID user)])).
    rewrite Hcs in Hsession. destruct (Hsession Hrun) as [Hok Hfail].
    split; [| done]. intros user' tok Hresp. destruct (Hok user' tok Hresp) as [-> Hreq].
    split_and!; [done | | done]. exists req. split; [done |]. by right.
Qed.

Lemma login_then_authorized_witness :
  (∀ user tok, Respond (PayloadLogin {| user_ID := 1; user_Username := "alice" |} token32)
               = Respond (PayloadLogin user tok) →
     "POST"%string = "POST"%string ∧
     (∃ req, Some {| cred_Username := "alice"; cred_Password := "pw" |} = Some req ∧
        (db_AuthenticateUser db_ok (cred_Username req) (cred_Password req) = Some user ∨
         db_CreateUser db_ok (cred_Username req) (cred_Password req) = inr user)) ∧
     ∀ now, (now ≤ 6 + 24 * Hour)%Z →
       ∃ sess, RequireAuth now (String.append "Bearer " tok) logged_in = (inr sess, logged_in) ∧
               Token sess = tok ∧
               UserID (identity sess) = user_ID user ∧
               Username (identity sess) = user_Username user) ∧
  ((∀ user tok, Respond (PayloadLogin {| user_ID := 1; user_Username := "alice" |} token32)
                ≠ Respond (PayloadLogin user tok)) → logged_in = NewAuthManager).
Proof.
  apply (login_then_authorized db_ok "POST"
           (Some {| cred_Username := "alice"; cred_Password := "pw" |})
           (Some random32) 5 6 NewAuthManager
           (Respond (PayloadLogin {| user_ID := 1; user_Username := "alice" |} token32))
           [DoAuthenticateUser "alice" "pw"] logged_in).
  - left. reflexivity.
  - intros bs [= <-]. discriminate.
Defined.

(** * [GetRoomMessages] *)

Section reverse_loop.
Context {A : Type}.
Implicit Types (l pre mid post : list A).

Lemma insert_middle pre post (x y : A) n :
  n = length pre → <[n := y]> (pre ++ x :: post) = pre ++ y :: post.
Proof. intros ->. induction pre as [|a pre IH]; [done |]. simpl. by rewrite IH. Qed.

Lemma slice_get_middle pre post (x : A) (i : Z) :
  i = Z.of_nat (length pre) → slice_get (pre ++ x :: post) i = Some x.
Proof.
  intros ->. unfold slice_get. destruct (Z.ltb_spec (Z.of_nat (length pre)) 0); [lia |].
  rewrite Nat2Z.id. by apply list_lookup_middle.
Qed.

Lemma slice_set_middle pre post (x y : A) (i : Z) :
  i = Z.of_nat (length pre) → slice_set (pre ++ x :: post) i y = Some (pre ++ y :: post).
Proof.
  intros ->. unfold slice_set. rewrite length_app. simpl.
  destruct (Z.leb_spec 0 (Z.of_nat (length pre))); [| lia].
  destruct (Z.ltb_spec (Z.of_nat (length pre))
              (Z.of_nat (length pre + S (length post)))); [| lia].
  simpl. rewrite Nat2Z.id. by rewrite insert_middle.
Qed.

Lemma reverse_loop_middle fuel : ∀ pre mid post,
  length mid ≤ 2 * fuel + 1 →
  reverse_loop fuel (Z.of_nat (length pre)) (Z.of_nat (length pre + length mid) - 1)
    (pre ++ mid ++ post)
  = Some (pre ++ reverse mid ++ post).
Proof.
  induction fuel as [|fuel IH]; intros pre mid post Hfuel.
  - destruct mid as [|x [|y mid]]; simpl in Hfuel; try lia; simpl.
    + destruct (Z.ltb_spec (Z.of_nat (length pre)) (Z.of_nat (length pre + 0) - 1)); [lia |].
      done.
    + destruct (Z.ltb_spec (Z.of_nat (length pre)) (Z.of_nat (length pre + 1) - 1)); [lia |].
      done.
  - destruct mid as [|x mid0].
    { simpl. destruct (Z.ltb_spec (Z.of_nat (length pre)) (Z.of_nat (length pre + 0) - 1));
        [lia | done]. }
    destruct (decide (mid0 = [])) as [-> | Hne].
    { simpl. destruct (Z.ltb_spec (Z.of_nat (length pre)) (Z.of_nat (length pre + 1) - 1));
        [lia | done]. }
    destruct (exists_last Hne) as (mid' & y & ->).
    cbn [reverse_loop]. rewrite length_cons, length_app in *. simpl in Hfuel |- *.
    destruct (Z.ltb_spec (Z.of_nat (length pre))
                (Z.of_nat (length pre + S (length mid' + 1)) - 1)); [| lia].
    replace (pre ++ x :: (mid' ++ [y]) ++ post)
      with ((pre ++ x :: mid') ++ y :: post) by (by rewrite <- !app_assoc).
    rewrite (slice_get_middle (pre ++ x :: mid') post y
               (Z.of_nat (length pre + S (length mid' + 1)) - 1))
      by (rewrite length_app; simpl; lia).
    simpl. rewrite <- (app_assoc pre). simpl.
    rewrite (slice_get_middle pre _ x) by done. simpl.
    rewrite (slice_set_middle pre _ x y) by done. simpl.
    replace (pre ++ y :: mid' ++ y :: post)
      with ((pre ++ y :: mid') ++ y :: post) by (by rewrite <- !app_assoc).
    rewrite (slice_set_middle (pre ++ y :: mid') post y x
               (Z.of_nat (length pre + S (length mid' + 1)) - 1))
      by (rewrite length_app; simpl; lia).
    simpl.
    replace ((pre ++ y :: mid') ++ x :: post)
      with ((pre ++ [y]) ++ mid' ++ (x :: post)) by (by rewrite <- !app_assoc).
    replace (Z.of_nat (length pre) + 1)%Z with (Z.of_nat (length (pre ++ [y])))
      by (rewrite length_app; simpl; lia).
    replace (Z.of_nat (length pre + S (length mid' + 1)) - 1 - 1)%Z
      with (Z.of_nat (length (pre ++ [y]) + length mid') - 1)%Z
      by (rewrite length_app; simpl; lia).
    rewrite IH by lia. f_equal.
    rewrite reverse_cons, reverse_app. simpl. by rewrite <- !app_assoc.
Qed.

Lemma reverse_loop_reverse l :
  reverse_loop (length l) 0 (Z.of_nat (length l) - 1) l = Some (reverse l).
Proof.
  pose proof (reverse_loop_middle (length l) [] l []) as H. simpl in H.
  rewrite !app_nil_r in H. apply H. lia.
Qed.
End reverse_loop.

Lemma scan_rows_Some rows : ∀ messages,
  scan_rows (Some <$> rows) messages = Some (messages ++ rows).
Proof.
  induction rows as [|m rows IH]; intros messages; simpl.
  - by rewrite app_nil_r.
  - rewrite IH. by rewrite <- app_assoc.
Qed.

Lemma scan_rows_inv rows : ∀ messages result,
  scan_rows rows messages = Some result →
  ∃ scanned, rows = Some <$> scanned ∧ result = messages ++ scanned.
Proof.
  induction rows as [|row rows IH]; intros messages result; simpl.
  - intros [= <-]. exists []. by rewrite app_nil_r.
  - destruct row as [m|]; simpl; [| done]. intros H.
    apply IH in H as (scanned & -> & ->). exists (m :: scanned).
    split; [done |]. by rewrite <- app_assoc.
Qed.

Lemma reverse_oldest_first rows : newest_first rows → oldest_first (reverse rows).
Proof.
  intros Hsorted i j mi mj Hij Hi Hj.
  assert (j < length rows).
  { apply lookup_lt_Some in Hj. by rewrite length_reverse in Hj. }
  rewrite reverse_lookup in Hi by lia. rewrite reverse_lookup in Hj by lia.
  apply (Hsorted (length rows - S j) (length rows - S i) mj mi); [lia | done | done].
Qed.

(** X26: [GetRoomMessages] returns the rows of the query in the opposite
    order, so with the rows newest first the messages come oldest first;
    it returns them for every number of rows (the reversing loop never
    indexes out of range), and it fails exactly when the query fails or a
    row cannot be scanned. *)
Theorem GetRoomMessages_chronological query :
  (∀ rows, query = Some (Some <$> rows) →
     GetRoomMessages query = Some (reverse rows) ∧
     length (reverse rows) = length rows ∧
     (newest_first rows → oldest_first (reverse rows))) ∧
  (∀ messages, GetRoomMessages query = Some messages →
     ∃ rows, query = Some (Some <$> rows) ∧ messages = reverse rows).
Proof.
  split.
  - intros rows ->. unfold GetRoomMessages. simpl.
    rewrite scan_rows_Some. simpl. split_and!.
    + apply reverse_loop_reverse.
    + apply length_reverse.
    + apply reverse_oldest_first.
  - intros messages. unfold GetRoomMessages. destruct query as [rows|]; simpl; [| done].
    destruct (scan_rows rows []) as [scanned|] eqn:Hscan; simpl; [| done].
    apply scan_rows_inv in Hscan as (rows' & -> & ->). simpl.
    rewrite reverse_loop_reverse. intros [= <-]. by exists rows'.
Qed.

Example GetRoomMessages_three :
  GetRoomMessages (Some [Some (message_at 3 30); Some (message_at 2 20);
                         Some (message_at 1 10)])
    = Some [message_at 1 10; message_at 2 20; message_at 3 30] ∧
  GetRoomMessages (Some [Some (message_at 3 30); None; Some (message_at 1 10)]) = None ∧
  GetRoomMessages (Some []) = Some [].
Proof. split_and!; reflexivity. Qed.

(** * Creating and deleting halls, and the rooms route *)





(** X28: [handleDeleteHall] deletes a hall only on a POST with a session
    whose user owns the hall named in the request, and never a hall named
    "HKCLB"; apart from the deletion it only looks the hall up. *)
Theorem handleDeleteHall_owner_only db method session body resp calls call :
  handleDeleteHall db method session body = (resp, calls) →
  call ∈ calls →
  ∃ hallID, body = Some hallID ∧
    (call = QGetHallByID hallID ∨
     (call = DoDeleteHall hallID ∧ method = "POST"%string ∧
      ∃ sess hall, session = Some sess ∧ db_GetHallByID db hallID = Some hall ∧
        hall_OwnerID hall = UserID (identity sess) ∧
        hall_Name hall ≠ "HKCLB"%string)).
Proof.
  unfold handleDeleteHall.
  destruct (negb (String.eqb method "POST")) eqn:Hm; [intros [= <- <-]; set_solver |].
  apply method_is in Hm.
  destruct session as [sess|]; [| intros [= <- <-]; set_solver].
  destruct body as [hallID|]; [| intros [= <- <-]; set_solver].
  intros Hres Hin. exists hallID. split; [done |].
  destruct (db_GetHallByID db hallID) as [hall|] eqn:Hhall;
    [| injection Hres as <- <-; left; set_unfold in Hin; naive_solver].
  destruct (negb _) eqn:Hown;
    [injection Hres as <- <-; left; set_unfold in Hin; naive_solver |].
  apply negb_false_iff, Z.eqb_eq in Hown.
  destruct (String.eqb (hall_Name hall) "HKCLB") eqn:Hname;
    [injection Hres as <- <-; left; set_unfold in Hin; naive_solver |].
  apply String.eqb_neq in Hname.
  assert (calls = [QGetHallByID hallID; DoDeleteHall hallID]) as ->.
  { destruct (db_DeleteHall db hallID); by injection Hres as _ <-. }
  set_unfold in Hin. destruct Hin as [-> | [-> | []]]; [by left |].
  right. split_and!; try done. by exists sess, hall.
Qed.

Lemma handleDeleteHall_owner_only_witness :
  ∃ hallID, Some 5%Z = Some hallID ∧
    (DoDeleteHall 5 = QGetHallByID hallID ∨
     (DoDeleteHall 5 = DoDeleteHall hallID ∧ "POST"%string = "POST"%string ∧
      ∃ sess hall, Some session_t1 = Some sess ∧ db_GetHallByID db_ok hallID = Some hall ∧
        hall_OwnerID hall = UserID (identity sess) ∧
        hall_Name hall ≠ "HKCLB"%string)).
Proof.
  apply (handleDeleteHall_owner_only db_ok "POST" (Some session_t1) (Some 5%Z)
           (Respond (PayloadStatus "hall deleted")) [QGetHallByID 5; DoDeleteHall 5]).
  - vm_compute. reflexivity.
  - apply list_elem_of_further, list_elem_of_here.
Defined.

(** X29: [handleGiveAdmin] changes nothing: every call it makes on the
    database is a query.  It answers 200 exactly when the request is a POST
    with a session whose user owns the hall of the request and the named
    user exists and is a member of that hall. *)
Theorem handleGiveAdmin_changes_nothing db method session body resp calls :
  handleGiveAdmin db method session body = (resp, calls) →
  Forall (λ call, changes_database call = false) calls ∧
  (status_of resp = StatusOK ↔
   method = "POST"%string ∧
   ∃ sess req hall targetUser, session = Some sess ∧ body = Some req ∧
     db_GetHallByID db (ga_HallID req) = Some hall ∧
     hall_OwnerID hall = UserID (identity sess) ∧
     db_GetUserByUsername db (ga_Username req) = Some targetUser ∧
     db_IsUserInHall db (user_ID targetUser) (ga_HallID req) = Some true).
Proof.
  unfold handleGiveAdmin.
  destruct (negb (String.eqb method "POST")) eqn:Hm.
  { intros [= <- <-]. split; [by constructor |]. split; [done |].
    intros [-> _]. done. }
  apply method_is in Hm.
  destruct session as [sess|];
    [| intros [= <- <-]; split; [by constructor |]; split; [done | naive_solver]].
  destruct body as [req|];
    [| intros [= <- <-]; split; [by constructor |]; split; [done | naive_solver]].
  destruct (db_GetHallByID db _) as [hall|] eqn:Hhall;
    [| intros [= <- <-]; split; [by repeat constructor |]; split; [done | naive_solver]].
  destruct (negb _) eqn:Hown.
  { intros [= <- <-]. split; [by repeat constructor |]. split; [done |].
    apply negb_true_iff, Z.eqb_neq in Hown. naive_solver. }
  apply negb_false_iff, Z.eqb_eq in Hown.
  destruct (db_GetUserByUsername db _) as [target|] eqn:Htarget;
    [| intros [= <- <-]; split; [by repeat constructor |]; split; [done | naive_solver]].
  destruct (db_IsUserInHall db _ _) as [[|]|] eqn:Hin;
    intros [= <- <-]; (split; [by repeat constructor |]); (split; [| naive_solver]);
    try done.
  intros _. split; [done |]. by exists sess, req, hall, target.
Qed.

Lemma handleGiveAdmin_changes_nothing_witness :
  Forall (λ call, changes_database call = false)
    [QGetHallByID 3; QGetUserByUsername "bob"; QIsUserInHall 2 3] ∧
  (status_of (Respond (PayloadStatusMessage
                         "Admin rights feature not fully implemented yet"
                         "This would grant admin rights in a full implementation"))
   = StatusOK ↔
   "POST"%string = "POST"%string ∧
   ∃ sess req hall targetUser, Some session_t1 = Some sess ∧
     Some {| ga_Username := "bob"; ga_HallID := 3 |} = Some req ∧
     db_GetHallByID db_ok (ga_HallID req) = Some hall ∧
     hall_OwnerID hall = UserID (identity sess) ∧
     db_GetUserByUsername db_ok (ga_Username req) = Some targetUser ∧
     db_IsUserInHall db_ok (user_ID targetUser) (ga_HallID req) = Some true).
Proof.
  apply (handleGiveAdmin_changes_nothing db_ok "POST" (Some session_t1)
           (Some {| ga_Username := "bob"; ga_HallID := 3 |})).
  vm_compute. reflexivity.
Defined.

(** X30: under [/api/rooms/], [handleRoomsWithID] changes the database
    only by deleting a room, only for a path of exactly two segments whose
    second is "delete" and whose first is the number of the room, on a POST
    with a session whose user owns the hall of that room; every other call
    it makes is a query. *)
Theorem handleRoomsWithID_delete_route db method session url_path resp calls call :
  handleRoomsWithID db method session url_path = (resp, calls) →
  call ∈ calls → changes_database call = true →
  method = "POST"%string ∧
  ∃ sess part0 id room hall, session = Some sess ∧
    split_slash (TrimPrefix url_path "/api/rooms/") = [part0; "delete"%string] ∧
    Atoi part0 = Some id ∧ call = DoDeleteRoom id ∧
    db_GetRoomByID db id = Some room ∧
    db_GetHallByID db (room_HallID room) = Some hall ∧
    hall_OwnerID hall = UserID (identity sess).
Proof.
  unfold handleRoomsWithID.
  destruct session as [sess|]; [| intros [= <- <-]; set_solver].
  destruct (split_slash _) as [|part0 [|part1 [|part2 rest]]] eqn:Hsplit;
    try (intros [= <- <-]; set_solver).
  - unfold handleRooms.
    destruct (negb (String.eqb method "GET")); [intros [= <- <-]; set_solver |].
    destruct (Atoi _) as [hallID|]; [| intros [= <- <-]; set_solver].
    destruct (db_IsUserInHall db _ _) as [[|]|];
      try (intros [= <- <-] Hin Hch; set_unfold in Hin; naive_solver).
    destruct (db_GetHallRooms db hallID);
      intros [= <- <-] Hin Hch; set_unfold in Hin; naive_solver.
  - destruct (String.eqb part1 "delete") eqn:Hdel; [| intros [= <- <-]; set_solver].
    apply String.eqb_eq in Hdel. subst part1.
    unfold handleDeleteRoomByID.
    destruct (negb (String.eqb method "POST")) eqn:Hm; [intros [= <- <-]; set_solver |].
    apply method_is in Hm.
    destruct (Atoi part0) as [rid|] eqn:Hrid; [| intros [= <- <-]; set_solver].
    intros Hres Hin Hch.
    assert (∃ id, call = DoDeleteRoom id) as [id ->].
    { unfold delete_room_checked in Hres.
      destruct (db_GetRoomByID db rid) as [rm|];
        [| injection Hres as <- <-; set_unfold in Hin; naive_solver].
      destruct (db_GetHallByID db _);
        [| injection Hres as <- <-; set_unfold in Hin; naive_solver].
      destruct (negb _); [injection Hres as <- <-; set_unfold in Hin; naive_solver |].
      destruct (db_DeleteRoom db rid); injection Hres as <- <-;
        set_unfold in Hin; naive_solver. }
    destruct (delete_room_checked_owner db sess [QGetRoomByID rid] _ _ _ _ id
                ltac:(set_solver) Hres Hin) as (-> & rm & hall & Hrm & Hhall & Hown & _).
    split; [done |]. by exists sess, part0, rid, rm, hall.
Qed.

Lemma handleRoomsWithID_delete_route_witness :
  "POST"%string = "POST"%string ∧
  ∃ sess part0 id room hall, Some session_t1 = Some sess ∧
    split_slash (TrimPrefix "/api/rooms/7/delete" "/api/rooms/") = [part0; "delete"%string] ∧
    Atoi part0 = Some id ∧ DoDeleteRoom 7 = DoDeleteRoom id ∧
    db_GetRoomByID db_ok id = Some room ∧
    db_GetHallByID db_ok (room_HallID room) = Some hall ∧
    hall_OwnerID hall = UserID (identity sess).
Proof.
  apply (handleRoomsWithID_delete_route db_ok "POST" (Some session_t1) "/api/rooms/7/delete"
           (Respond (PayloadStatus "room deleted"))
           [QGetRoomByID 7; QGetHallByID 1; DoDeleteRoom 7]).
  - vm_compute. reflexivity.
  - apply list_elem_of_further, list_elem_of_further, list_elem_of_here.
  - reflexivity.
Defined.
